(** * CVector and CMap: a shallow embedding of cvector.c and cmap.c

    The two containers are modelled over a block/offset memory: a pointer is
    either [NULL] or a block identifier with a byte offset, [malloc] returns a
    block that is not live, and pointer arithmetic moves the offset.  Integer
    arithmetic follows the C types of an LP64 target: [size_t] and
    [unsigned long] are 64-bit and wrap, [int] is 32-bit, and the conversions
    between them are written out.

    Conventions.  A [const void * ] argument that the code copies from is
    given as the bytes it points to.  Allocation succeeds whenever the
    requested size is representable; a failed [assert] is the outcome
    [Abort].  A cleanup callback is recorded in a log when it is called, with
    its argument and the bytes found there; it does not change the memory of
    the container.  [bsearch] and [lfind] are the C library's; [bsearch]
    follows the loop of glibc. *)

From Stdlib Require Import ZArith Lia.
From Stdlib.Strings Require Import Byte Ascii String.
From stdpp Require Import base numbers list gmap strings.

Local Open Scope Z_scope.

(** ** Machine integers *)

Definition INT_MAX : Z := 2147483647.

(** Conversion to [size_t] / [unsigned long]. *)
Definition to_ulong (z : Z) : Z := z mod 2 ^ 64.

(** Conversion to [int] (two's complement truncation). *)
Definition to_int (z : Z) : Z := (z + 2 ^ 31) mod 2 ^ 32 - 2 ^ 31.

(** ** Outcomes of a call

    [Ret a]: the call returns [a].  [Abort]: an [assert] failed.  [Undef]: the
    call reads or writes outside a live block.  [Diverge]: a loop does not
    terminate. *)

Inductive outcome (A : Type) : Type :=
  | Ret (a : A)
  | Abort
  | Undef
  | Diverge.
Arguments Ret {A} a.
Arguments Abort {A}.
Arguments Undef {A}.
Arguments Diverge {A}.

#[global] Instance outcome_ret : MRet outcome := fun A a => Ret a.
#[global] Instance outcome_bind : MBind outcome := fun A B f c =>
  match c with
  | Ret a => f a
  | Abort => Abort
  | Undef => Undef
  | Diverge => Diverge
  end.

(** A memory access that is out of bounds is undefined behaviour. *)
Definition defined {A : Type} (o : option A) : outcome A :=
  match o with
  | Some a => Ret a
  | None => Undef
  end.

(** [assert(c)] *)
Definition assert (c : bool) : outcome unit :=
  if c then Ret tt else Abort.

(** ** Pointers *)

Definition block := positive.

Inductive ptr : Type :=
  | NULL
  | Ptr (b : block) (ofs : Z).

#[global] Instance ptr_eq_dec : EqDecision ptr.
Proof. solve_decision. Defined.

(** [(char * )p + n] *)
Definition ptr_add (p : ptr) (n : Z) : ptr :=
  match p with
  | NULL => NULL
  | Ptr b o => Ptr b (o + n)
  end.

(** A cleanup callback is a function pointer; [None] is the NULL callback. *)
Definition fnptr := nat.

(** A call of a cleanup callback: the callback, its argument, and the bytes
    the argument points to when the call is made. *)
Record cleanup_call : Type := Cleanup {
  cc_fn : fnptr;
  cc_arg : ptr;
  cc_bytes : list byte
}.

#[global] Instance byte_eq_dec : EqDecision byte.
Proof. intros x y. destruct (Byte.byte_eq_dec x y); [left | right]; done. Defined.

(** ** Byte blocks *)

Section Blocks.
Implicit Types (h : gmap block (list byte)) (p : ptr) (bs : list byte).

(** Read [n] bytes at [p]. *)
Definition load h p (n : Z) : option (list byte) :=
  match p with
  | NULL => None
  | Ptr b o =>
      blk ← h !! b;
      if bool_decide (0 ≤ o ∧ 0 ≤ n ∧ o + n ≤ Z.of_nat (length blk))
      then Some (take (Z.to_nat n) (drop (Z.to_nat o) blk))
      else None
  end.

(** Write the bytes [bs] at [p]. *)
Definition store h p bs : option (gmap block (list byte)) :=
  match p with
  | NULL => None
  | Ptr b o =>
      blk ← h !! b;
      if bool_decide (0 ≤ o ∧ o + Z.of_nat (length bs) ≤ Z.of_nat (length blk))
      then Some (<[b := take (Z.to_nat o) blk ++ bs
                        ++ drop (Z.to_nat o + length bs) blk]> h)
      else None
  end.

(** [memmove(dst, src, n)]: the source range is read before the
    destination is written, so the ranges may overlap. *)
Definition memmove h (dst src : ptr) (n : Z) : option (gmap block (list byte)) :=
  bs ← load h src n; store h dst bs.

(** [memcpy(dst, addr, n)] where [addr] is a buffer of the caller holding
    the bytes [v]. *)
Definition memcpy h (dst : ptr) (v : list byte) (n : Z) : option (gmap block (list byte)) :=
  store h dst (take (Z.to_nat n) v).

(** [calloc(nmemb, sz)]: a zeroed block that is not live, or NULL when the
    byte count does not fit [size_t]. *)
Definition calloc h (nmemb sz : Z) : ptr * gmap block (list byte) :=
  if nmemb * sz <? 2 ^ 64
  then let b := fresh (dom h) in
       (Ptr b 0, <[b := replicate (Z.to_nat (nmemb * sz)) x00]> h)
  else (NULL, h).

(** [realloc(p, n)]: the block is moved to a block that is not live and cut
    or extended to [n] bytes; [realloc(p, 0)] frees the block and returns
    NULL. *)
Definition realloc h p (n : Z) : option (ptr * gmap block (list byte)) :=
  match p with
  | Ptr b 0 =>
      blk ← h !! b;
      if n =? 0 then Some (NULL, delete b h)
      else let b' := fresh (dom h) in
           Some (Ptr b' 0,
                 <[b' := take (Z.to_nat n) (blk ++ replicate (Z.to_nat n) x00)]>
                   (delete b h))
  | _ => None
  end.

(** [free(p)] *)
Definition free h p : option (gmap block (list byte)) :=
  match p with
  | NULL => Some h
  | Ptr b 0 => _ ← h !! b; Some (delete b h)
  | Ptr _ _ => None
  end.

(** [p - q] for two pointers into the same block. *)
Definition ptr_diff p (q : ptr) : option Z :=
  match p, q with
  | Ptr b1 o1, Ptr b2 o2 => if decide (b1 = b2) then Some (o1 - o2) else None
  | _, _ => None
  end.
End Blocks.

(** ** The C library's searches

    A comparator receives the key object and the bytes of one element. *)

Definition CompareFn := list byte → list byte → Z.

Section Search.
Context (h : gmap block (list byte)) (key : list byte) (base : ptr)
        (sz : Z) (cmp : CompareFn).

(** [lfind]: the elements are compared with the key in order; the first
    one that compares equal is returned. *)
Fixpoint lfind_loop (fuel : nat) (i : Z) : outcome ptr :=
  match fuel with
  | O => Ret NULL
  | S fuel' =>
      let p := ptr_add base (i * sz) in
      e ← defined (load h p sz);
      if cmp key e =? 0 then Ret p else lfind_loop fuel' (i + 1)
  end.

Definition lfind (nmemb : Z) : outcome ptr := lfind_loop (Z.to_nat nmemb) 0.

(** [bsearch], as in glibc: [l = 0; u = nmemb; while (l < u) { idx = (l + u)
    / 2; ... }].  The loop runs at most [u - l] times, which is the fuel. *)
Fixpoint bsearch_loop (fuel : nat) (l u : Z) : outcome ptr :=
  match fuel with
  | O => Ret NULL
  | S fuel' =>
      if l <? u then
        let idx := (l + u) / 2 in
        let p := ptr_add base (idx * sz) in
        e ← defined (load h p sz);
        let c := cmp key e in
        if c <? 0 then bsearch_loop fuel' l idx
        else if 0 <? c then bsearch_loop fuel' (idx + 1) u
        else Ret p
      else Ret NULL
  end.

Definition bsearch (nmemb : Z) : outcome ptr :=
  bsearch_loop (Z.to_nat nmemb) 0 nmemb.
End Search.

(** * cvector.c *)

Module CVec.

(** a suggested value to use when given capacity_hint is 0 *)
Definition DEFAULT_CAPACITY : Z := 16.

Record CVector : Type := mkCVector {
  data : ptr;              (* void *data *)
  size : Z;                (* size_t size *)
  capacity : Z;            (* size_t capacity *)
  elemsz : Z;              (* size_t elemsz *)
  clean : option fnptr     (* CleanupElemFn clean *)
}.

(** The heap of byte blocks and the calls of cleanup callbacks made so far. *)
Record mem : Type := mkMem {
  heap : gmap block (list byte);
  log : list cleanup_call
}.

Definition get_nth (cv : CVector) (n : Z) : ptr :=
  ptr_add (data cv) (to_ulong (to_ulong n * elemsz cv)).

Definition cvec_create (esz capacity_hint : Z) (fn : option fnptr) (m : mem)
  : outcome (CVector * mem) :=
  _ ← assert (negb (esz =? 0));
  let capacity_hint :=
    if capacity_hint =? 0 then DEFAULT_CAPACITY else capacity_hint in
  let '(p, h) := calloc (heap m) capacity_hint esz in
  _ ← assert (negb (bool_decide (p = NULL)));
  Ret (mkCVector p 0 capacity_hint esz fn, mkMem h (log m)).

(** The loop of [cvec_dispose]: [for (int i = 0; i < cv->size; i++)]. *)
Fixpoint dispose_loop (cv : CVector) (f : fnptr) (h : gmap block (list byte))
    (fuel : nat) (i : Z) (lg : list cleanup_call) : list cleanup_call :=
  match fuel with
  | O => lg
  | S fuel' =>
      if to_ulong i <? size cv then
        let p := get_nth cv i in
        dispose_loop cv f h fuel' (i + 1)
          (lg ++ [Cleanup f p (default [] (load h p (elemsz cv)))])
      else lg
  end.

Definition cvec_dispose (cv : CVector) (m : mem) : outcome mem :=
  let lg :=
    match clean cv with
    | Some f => dispose_loop cv f (heap m) (Z.to_nat (size cv)) 0 (log m)
    | None => log m
    end in
  h ← defined (free (heap m) (data cv));
  Ret (mkMem h lg).

Definition cvec_count (cv : CVector) : Z := to_int (size cv).

Definition cvec_nth (cv : CVector) (index : Z) : outcome ptr :=
  _ ← assert ((0 <=? index) && (to_ulong index <=? to_ulong (size cv - 1)));
  Ret (get_nth cv index).

Definition cvec_expand (cv : CVector) (m : mem) : outcome (CVector * mem) :=
  let capacity' := to_ulong (capacity cv * 2) in
  '(p, h) ← defined (realloc (heap m) (data cv) (to_ulong (elemsz cv * capacity')));
  _ ← assert (negb (bool_decide (p = NULL)));
  Ret (mkCVector p (size cv) capacity' (elemsz cv) (clean cv), mkMem h (log m)).

Definition cvec_insert (cv : CVector) (addr : list byte) (index : Z) (m : mem)
  : outcome (CVector * mem) :=
  _ ← assert ((0 <=? index) && (to_ulong index <=? size cv));
  '(cv, m) ← (if size cv =? capacity cv then cvec_expand cv m else Ret (cv, m));
  h ← defined (memmove (heap m) (get_nth cv (to_int (index + 1))) (get_nth cv index)
                 (to_ulong (elemsz cv * to_ulong (size cv - to_ulong index))));
  h ← defined (memcpy h (get_nth cv index) addr (elemsz cv));
  Ret (mkCVector (data cv) (to_ulong (size cv + 1)) (capacity cv) (elemsz cv) (clean cv),
       mkMem h (log m)).

Definition cvec_append (cv : CVector) (addr : list byte) (m : mem)
  : outcome (CVector * mem) :=
  cvec_insert cv addr (cvec_count cv) m.

Definition cvec_search (cv : CVector) (key : list byte) (cmp : CompareFn)
    (start : Z) (sorted : bool) (m : mem) : outcome Z :=
  _ ← assert ((0 <=? start) && (to_ulong start <=? size cv));
  let num_searchelems := to_ulong (to_int (cvec_count cv - start)) in
  p ← (if sorted
       then bsearch (heap m) key (get_nth cv start) (elemsz cv) cmp num_searchelems
       else lfind (heap m) key (get_nth cv start) (elemsz cv) cmp num_searchelems);
  if bool_decide (p = NULL) then Ret (-1)
  else d ← defined (ptr_diff p (data cv));
       Ret (to_int (to_ulong d / elemsz cv)).

Definition cvec_first (cv : CVector) : ptr :=
  if size cv =? 0 then NULL else data cv.

Definition cvec_next (cv : CVector) (prev : ptr) : ptr :=
  if bool_decide
       (prev = ptr_add (data cv)
                 (to_ulong (elemsz cv * to_ulong (to_int (cvec_count cv - 1)))))
  then NULL
  else ptr_add prev (elemsz cv).

(** The traversal protocol of the interface:
    [for (p = cvec_first(cv); p != NULL; p = cvec_next(cv, p))].
    The result is the list of the pointers visited, or [None] when the loop
    has not reached NULL within [fuel] steps. *)
Fixpoint cvec_iterate (cv : CVector) (fuel : nat) (p : ptr) : option (list ptr) :=
  match fuel with
  | O => None
  | S fuel' =>
      if bool_decide (p = NULL) then Some []
      else ps ← cvec_iterate cv fuel' (cvec_next cv p); Some (p :: ps)
  end.

Definition cvec_traversal (cv : CVector) (fuel : nat) : option (list ptr) :=
  cvec_iterate cv fuel (cvec_first cv).

(** ** The abstract view of a vector *)

(** The elements of [l] all have [n] bytes. *)
Definition chunks (n : nat) (l : list (list byte)) : Prop :=
  Forall (λ e, length e = n) l.

(** [rep cv m l]: in memory [m] the vector [cv] holds the elements [l], laid
    out back to back from the start of its block, followed by the unused
    slots. *)
Definition rep (cv : CVector) (m : mem) (l : list (list byte)) : Prop :=
  ∃ b rest,
    data cv = Ptr b 0
    ∧ heap m !! b = Some (concat l ++ rest)
    ∧ Z.of_nat (length (concat l ++ rest)) = capacity cv * elemsz cv
    ∧ 0 < elemsz cv
    ∧ size cv = Z.of_nat (length l)
    ∧ capacity cv * elemsz cv < 2 ^ 64
    ∧ chunks (Z.to_nat (elemsz cv)) l
    ∧ 0 < capacity cv.

Definition initial_capacity (capacity_hint : Z) : Z :=
  if capacity_hint =? 0 then DEFAULT_CAPACITY else capacity_hint.

(** A call of [cvec_append] or [cvec_insert]. *)
Inductive vec_op : Type :=
  | Append (v : list byte)
  | InsertAt (v : list byte) (index : Z).

Definition op_value (op : vec_op) : list byte :=
  match op with
  | Append v => v
  | InsertAt v _ => v
  end.

Definition run_op (op : vec_op) (cv : CVector) (m : mem) : outcome (CVector * mem) :=
  match op with
  | Append v => cvec_append cv v m
  | InsertAt v index => cvec_insert cv v index m
  end.

Fixpoint run_ops (ops : list vec_op) (cv : CVector) (m : mem)
  : outcome (CVector * mem) :=
  match ops with
  | [] => Ret (cv, m)
  | op :: ops' => '(cv', m') ← run_op op cv m; run_ops ops' cv' m'
  end.

(** The position an operation writes at, in a vector of [n] elements. *)
Definition op_index (n : nat) (op : vec_op) : nat :=
  match op with
  | Append _ => n
  | InsertAt _ index => Z.to_nat index
  end.

(** The logical content after an operation: the new element is at its
    position, the elements from that position on have moved up by one. *)
Definition apply_op (l : list (list byte)) (op : vec_op) : list (list byte) :=
  take (op_index (length l) op) l ++ op_value op :: drop (op_index (length l) op) l.

Definition apply_ops (ops : list vec_op) (l : list (list byte)) : list (list byte) :=
  foldl apply_op l ops.

(** Every value has [esz] bytes and every [InsertAt] has
    [0 <= index <= count] when it is called. *)
Fixpoint ops_valid (esz : Z) (l : list (list byte)) (ops : list vec_op) : Prop :=
  match ops with
  | [] => True
  | op :: ops' =>
      Z.of_nat (length (op_value op)) = esz
      ∧ match op with
        | Append _ => True
        | InsertAt _ index => 0 ≤ index ≤ Z.of_nat (length l)
        end
      ∧ ops_valid esz (apply_op l op) ops'
  end.

(** Following the specification of Search: the index of the first element
    in [[start, count)] that compares equal to the key, or -1. *)
Fixpoint find_first (cmp : CompareFn) (key : list byte) (l : list (list byte))
    (i : Z) : Z :=
  match l with
  | [] => -1
  | e :: l' => if cmp key e =? 0 then i else find_first cmp key l' (i + 1)
  end.

Definition spec_search (cmp : CompareFn) (key : list byte) (l : list (list byte))
    (start : Z) : Z :=
  find_first cmp key (drop (Z.to_nat start) l) start.

(** The precondition of [bsearch]: the elements the key is greater than come
    first, then those it is equal to, then those it is less than. *)
Definition key_sorted (cmp : CompareFn) (key : list byte) (l : list (list byte)) : Prop :=
  ∀ i j ei ej, (i < j)%nat → l !! i = Some ei → l !! j = Some ej →
    Z.sgn (cmp key ej) ≤ Z.sgn (cmp key ei).

(** The pointers to the slots [i, i + 1, ...] of the elements [l]. *)
Fixpoint slots (cv : CVector) (i : Z) (l : list (list byte)) : list ptr :=
  match l with
  | [] => []
  | _ :: l' => get_nth cv i :: slots cv (i + 1) l'
  end.

(** The cleanup calls of a disposal: one per element, in index order. *)
Fixpoint cleanup_calls (cv : CVector) (f : fnptr) (i : Z) (l : list (list byte))
  : list cleanup_call :=
  match l with
  | [] => []
  | e :: l' => Cleanup f (get_nth cv i) e :: cleanup_calls cv f (i + 1) l'
  end.

(** A comparator of one-byte elements: [*(unsigned char * )a - *(unsigned char * )b]. *)
Definition cmp_byte : CompareFn := λ k e,
  match k, e with
  | a :: _, b :: _ => Z.of_N (Byte.to_N a) - Z.of_N (Byte.to_N b)
  | _, _ => 0
  end.

(** The empty memory. *)
Definition mem0 : mem := mkMem ∅ [].

(** The reading of Search under which both modes return the first match. *)
Definition search_returns_first (cv : CVector) (m : mem) (l : list (list byte))
    (key : list byte) (cmp : CompareFn) (start : Z) (sorted : bool) : Prop :=
  cvec_search cv key cmp start sorted m = Ret (spec_search cmp key l start).

(** A vector of three equal one-byte elements, as three appends to a new
    vector of the default capacity leave it. *)
Definition ones : list (list byte) := [[x01]; [x01]; [x01]].
Definition ones_vec : CVector := mkCVector (Ptr 1%positive 0) 3 16 1 None.
Definition ones_mem : mem :=
  mkMem {[ 1%positive := [x01; x01; x01] ++ replicate 13 x00 ]} [].

(** A vector of five one-byte elements that are not sorted. *)
Definition mixed : list (list byte) := [[x05]; [x01]; [x04]; [x02]; [x03]].
Definition mixed_vec : CVector := mkCVector (Ptr 1%positive 0) 5 16 1 None.
Definition mixed_mem : mem :=
  mkMem {[ 1%positive := [x05; x01; x04; x02; x03] ++ replicate 11 x00 ]} [].

(** [owns cv m h0]: the memory [m] is the memory [h0] plus the one block of
    the buffer of [cv]. *)
Definition owns (cv : CVector) (m : mem) (h0 : gmap block (list byte)) : Prop :=
  ∃ b blk, data cv = Ptr b 0 ∧ h0 !! b = None ∧ heap m = <[b := blk]> h0.

End CVec.

(** * cmap.c *)

(** ** The C library's string functions *)

(** A [string] stands for a C string: the characters before the
    terminating NUL. *)

(** The value of a [char] as [unsigned char]. *)
Definition uchar (c : ascii) : Z := Z.of_N (Ascii.N_of_ascii c).

(** The value of a [char]; [char] is signed on the target. *)
Definition schar (c : ascii) : Z :=
  if uchar c <? 128 then uchar c else uchar c - 256.

Definition strlen (s : string) : Z := Z.of_nat (String.length s).

Fixpoint strcmp (s1 s2 : string) : Z :=
  match s1, s2 with
  | EmptyString, EmptyString => 0
  | EmptyString, String c2 _ => 0 - uchar c2
  | String c1 _, EmptyString => uchar c1
  | String c1 t1, String c2 t2 =>
      if decide (c1 = c2) then strcmp t1 t2 else uchar c1 - uchar c2
  end.

Fixpoint strncmp (s1 s2 : string) (n : nat) {struct n} : Z :=
  match n with
  | O => 0
  | S n' =>
      match s1, s2 with
      | EmptyString, EmptyString => 0
      | EmptyString, String c2 _ => 0 - uchar c2
      | String c1 _, EmptyString => uchar c1
      | String c1 t1, String c2 t2 =>
          if decide (c1 = c2) then strncmp t1 t2 n' else uchar c1 - uchar c2
      end
  end.

Module CMap.

(** a suggested value to use when given capacity_hint is 0 *)
Definition DEFAULT_CAPACITY : Z := 1023.

(** [sizeof(void * )] *)
Definition PTR_SIZE : Z := 8.

Record CMap : Type := mkCMap {
  buckets : list ptr;      (* void **buckets: the bucket array *)
  nbuckets : Z;            (* size_t nbuckets *)
  valsz : Z;               (* size_t valsz *)
  count : Z;               (* int count *)
  clean : option fnptr     (* CleanupValueFn clean *)
}.

(** A blob is one [malloc]ed block of [b_size] bytes: the next pointer at
    offset 0, the key and its terminator from offset [PTR_SIZE], and the
    value right after the terminator. *)
Record Blob : Type := mkBlob {
  b_size : Z;
  b_next : ptr;
  b_key : string;
  b_value : list byte
}.

Record mem : Type := mkMem {
  heap : gmap block Blob;
  log : list cleanup_call
}.

Definition MULTIPLIER : Z := 2630849305.

(** The loop of [hash]: [hashcode = hashcode * MULTIPLIER + s[i]] in
    [unsigned long]. *)
Fixpoint hash_loop (s : string) (hashcode : Z) : Z :=
  match s with
  | EmptyString => hashcode
  | String c s' => hash_loop s' (to_ulong (hashcode * MULTIPLIER + to_ulong (schar c)))
  end.

(** [nbuckets] is the [int] parameter; [hashcode % nbuckets] is computed in
    [unsigned long] and returned as [int]. *)
Definition hash (s : string) (nbuckets : Z) : outcome Z :=
  if to_ulong nbuckets =? 0 then Undef
  else Ret (to_int (hash_loop s 0 mod to_ulong nbuckets)).

Section Blobs.
Implicit Types (h : gmap block Blob) (p : ptr).

Definition get_next h (blob : ptr) : option ptr :=
  match blob with
  | Ptr b 0 => b_next <$> h !! b
  | _ => None
  end.

Definition set_next h (blob : ptr) (ptr_to_next : ptr) : option (gmap block Blob) :=
  match blob with
  | Ptr b 0 =>
      x ← h !! b;
      Some (<[b := mkBlob (b_size x) ptr_to_next (b_key x) (b_value x)]> h)
  | _ => None
  end.

Definition get_key (blob : ptr) : ptr := ptr_add blob PTR_SIZE.

(** The string stored at a key pointer. *)
Definition string_at h (s : ptr) : option string :=
  match s with
  | Ptr b o => if o =? PTR_SIZE then b_key <$> h !! b else None
  | NULL => None
  end.

(** [strcpy(get_key(blob), key)] *)
Definition set_key h (blob : ptr) (key : string) : option (gmap block Blob) :=
  match get_key blob with
  | Ptr b o =>
      x ← h !! b;
      if (o =? PTR_SIZE) && (PTR_SIZE + strlen key + 1 <=? b_size x)
      then Some (<[b := mkBlob (b_size x) (b_next x) key (b_value x)]> h)
      else None
  | NULL => None
  end.

Definition get_value h (blob : ptr) : option ptr :=
  k ← string_at h (get_key blob);
  Some (ptr_add (ptr_add (ptr_add blob PTR_SIZE) (strlen k)) 1).

(** The bytes of the value a value pointer points to. *)
Definition value_at h (v : ptr) : option (list byte) :=
  match v with
  | Ptr b o =>
      x ← h !! b;
      if o =? PTR_SIZE + strlen (b_key x) + 1 then Some (b_value x) else None
  | NULL => None
  end.

(** [memcpy(get_value(blob), value, cm->valsz)] *)
Definition set_value (cm : CMap) h (blob : ptr) (value : list byte)
  : option (gmap block Blob) :=
  v ← get_value h blob;
  match v with
  | Ptr b o =>
      x ← h !! b;
      if (o =? PTR_SIZE + strlen (b_key x) + 1) && (o + valsz cm <=? b_size x)
      then Some (<[b := mkBlob (b_size x) (b_next x) (b_key x)
                           (take (Z.to_nat (valsz cm)) value)]> h)
      else None
  | NULL => None
  end.

(** [malloc(n)] for a blob: a block that is not live; its content is
    indeterminate until the fields are set. *)
Definition malloc h (n : Z) : ptr * gmap block Blob :=
  let b := fresh (dom h) in
  (Ptr b 0, <[b := mkBlob n NULL EmptyString []]> h).

Definition free h (blob : ptr) : option (gmap block Blob) :=
  match blob with
  | NULL => Some h
  | Ptr b 0 => _ ← h !! b; Some (delete b h)
  | Ptr _ _ => None
  end.

Definition create_blob (cm : CMap) (key : string) (value : list byte) h
  : outcome (ptr * gmap block Blob) :=
  let '(blob, h) := malloc h (to_ulong (PTR_SIZE + strlen key + 1 + valsz cm)) in
  _ ← assert (negb (bool_decide (blob = NULL)));
  h ← defined (set_next h blob NULL);
  h ← defined (set_key h blob key);
  h ← defined (set_value cm h blob value);
  Ret (blob, h).
End Blobs.

Definition cmap_create (valuesz capacity_hint : Z) (fn : option fnptr) (m : mem)
  : outcome (CMap * mem) :=
  _ ← assert (negb (valuesz =? 0));
  let capacity_hint :=
    if capacity_hint =? 0 then DEFAULT_CAPACITY else capacity_hint in
  (* calloc(capacity_hint, sizeof(void * )) returns NULL when the byte count
     does not fit size_t *)
  _ ← assert (capacity_hint * PTR_SIZE <? 2 ^ 64);
  Ret (mkCMap (replicate (Z.to_nat capacity_hint) NULL) capacity_hint valuesz 0 fn, m).

(** [cm->buckets[i]] for an [int] index [i]. *)
Definition bucket (cm : CMap) (i : Z) : option ptr :=
  if i <? 0 then None else buckets cm !! Z.to_nat i.

(** [cm->buckets[i] = p] *)
Definition set_bucket (cm : CMap) (i : Z) (p : ptr) : option CMap :=
  _ ← bucket cm i;
  Some (mkCMap (<[Z.to_nat i := p]> (buckets cm)) (nbuckets cm) (valsz cm) (count cm)
          (clean cm)).

(** [if (cm->clean != NULL) cm->clean(get_value(blob));] *)
Definition call_clean (cm : CMap) (m : mem) (blob : ptr) : outcome mem :=
  match clean cm with
  | Some f =>
      v ← defined (get_value (heap m) blob);
      Ret (mkMem (heap m) (log m ++ [Cleanup f v (default [] (value_at (heap m) v))]))
  | None => Ret m
  end.

(** The inner loop of [cmap_dispose] on bucket [i]:
    [while (cm->buckets[i] != NULL)].  Every iteration frees a live block, so
    the loop runs at most as often as there are live blocks. *)
Fixpoint dispose_chain (fuel : nat) (i : Z) (cm : CMap) (m : mem) : outcome (CMap * mem) :=
  match fuel with
  | O => Diverge
  | S fuel' =>
      blob ← defined (bucket cm i);
      if bool_decide (blob = NULL) then Ret (cm, m)
      else
        nxt ← defined (get_next (heap m) blob);
        cm ← defined (set_bucket cm i nxt);
        m ← call_clean cm m blob;
        h ← defined (free (heap m) blob);
        dispose_chain fuel' i cm (mkMem h (log m))
  end.

(** The outer loop of [cmap_dispose]: [for (int i = 0; i < cm->nbuckets; i++)]. *)
Fixpoint dispose_buckets (fuel : nat) (i : Z) (cm : CMap) (m : mem) : outcome (CMap * mem) :=
  match fuel with
  | O => Ret (cm, m)
  | S fuel' =>
      if to_ulong i <? nbuckets cm then
        '(cm, m) ← dispose_chain (S (size (heap m))) i cm m;
        dispose_buckets fuel' (i + 1) cm m
      else Ret (cm, m)
  end.

(** The bucket array and the map itself are freed at the end; the result is
    the memory that is left. *)
Definition cmap_dispose (cm : CMap) (m : mem) : outcome mem :=
  '(_, m) ← dispose_buckets (Z.to_nat (nbuckets cm)) 0 cm m;
  Ret m.

Definition cmap_count (cm : CMap) : Z := count cm.

(** The loop of [cmap_put]: [Some m'] when the key is found and its value is
    replaced, [None] when the end of the chain is reached. *)
Fixpoint put_loop (cm : CMap) (key : string) (addr : list byte) (m : mem)
    (fuel : nat) (temp : ptr) : outcome (option mem) :=
  match fuel with
  | O => Diverge
  | S fuel' =>
      if bool_decide (temp = NULL) then Ret None
      else
        k ← defined (string_at (heap m) (get_key temp));
        if strcmp k key =? 0 then
          m ← call_clean cm m temp;
          h ← defined (set_value cm (heap m) temp addr);
          Ret (Some (mkMem h (log m)))
        else
          nxt ← defined (get_next (heap m) temp);
          put_loop cm key addr m fuel' nxt
  end.

(** [(cm->count)++] is an [int] increment; its overflow is undefined and
    the model does not wrap it: [count] agrees with the field of the code as
    long as the table holds at most [INT_MAX] keys, and the statements about
    the count are made for sequences of Put calls with at most [INT_MAX]
    distinct keys.  Buckets, chains, blobs and cleanup calls do not depend
    on the count. *)
Definition cmap_put (cm : CMap) (key : string) (addr : list byte) (m : mem)
  : outcome (CMap * mem) :=
  bucket_num ← hash key (to_int (nbuckets cm));
  temp ← defined (bucket cm bucket_num);
  r ← put_loop cm key addr m (S (size (heap m))) temp;
  match r with
  | Some m => Ret (cm, m)
  | None =>
      '(blob, h) ← create_blob cm key addr (heap m);
      start ← defined (bucket cm bucket_num);
      h ← (if bool_decide (start = NULL) then Ret h
           else defined (set_next h blob start));
      cm ← defined (set_bucket cm bucket_num blob);
      Ret (mkCMap (buckets cm) (nbuckets cm) (valsz cm) (count cm + 1) (clean cm),
           mkMem h (log m))
  end.

(** The loop of [cmap_get]. *)
Fixpoint get_loop (key : string) (m : mem) (fuel : nat) (temp : ptr) : outcome ptr :=
  match fuel with
  | O => Diverge
  | S fuel' =>
      if bool_decide (temp = NULL) then Ret NULL
      else
        k ← defined (string_at (heap m) (get_key temp));
        if strncmp k key (Z.to_nat (strlen key)) =? 0 then
          defined (get_value (heap m) temp)
        else
          nxt ← defined (get_next (heap m) temp);
          get_loop key m fuel' nxt
  end.

Definition cmap_get (cm : CMap) (key : string) (m : mem) : outcome ptr :=
  bucket_num ← hash key (to_int (nbuckets cm));
  temp ← defined (bucket cm bucket_num);
  get_loop key m (S (size (heap m))) temp.

(** [for (int i = start; i < cm->nbuckets; i++)
       if (cm->buckets[i] != NULL) return get_key(cm->buckets[i]);
     return NULL;]
    the loop of [cmap_first] (from 0) and of [cmap_next] (from
    [start_bucket + 1]). *)
Fixpoint scan_buckets (cm : CMap) (fuel : nat) (i : Z) : outcome ptr :=
  match fuel with
  | O => Ret NULL
  | S fuel' =>
      if to_ulong i <? nbuckets cm then
        b ← defined (bucket cm i);
        if bool_decide (b = NULL) then scan_buckets cm fuel' (i + 1)
        else Ret (get_key b)
      else Ret NULL
  end.

Definition cmap_first (cm : CMap) : outcome ptr :=
  scan_buckets cm (Z.to_nat (nbuckets cm)) 0.

Definition cmap_next (cm : CMap) (prevkey : ptr) (m : mem) : outcome ptr :=
  let blob := ptr_add prevkey (- PTR_SIZE) in
  nxt ← defined (get_next (heap m) blob);
  if negb (bool_decide (nxt = NULL)) then Ret (get_key nxt)
  else
    s ← defined (string_at (heap m) prevkey);
    start_bucket ← hash s (to_int (nbuckets cm));
    scan_buckets cm (Z.to_nat (nbuckets cm)) (start_bucket + 1).

(** The traversal protocol of the interface:
    [for (k = cmap_first(cm); k != NULL; k = cmap_next(cm, k))].
    [cmap_next] is a function of the key pointer, and there are no more key
    pointers than live blocks, so a traversal that takes more steps than that
    does not end. *)
Fixpoint cmap_iterate (cm : CMap) (m : mem) (fuel : nat) (k : ptr) : outcome (list ptr) :=
  match fuel with
  | O => Diverge
  | S fuel' =>
      if bool_decide (k = NULL) then Ret []
      else
        k' ← cmap_next cm k m;
        ks ← cmap_iterate cm m fuel' k';
        Ret (k :: ks)
  end.

Definition cmap_traversal (cm : CMap) (m : mem) : outcome (list ptr) :=
  k ← cmap_first cm;
  cmap_iterate cm m (S (size (heap m))) k.

(** ** The abstract view of a table *)

(** An entry of a chain: the block of its blob, its key and its value. *)
Record entry : Type := mkEntry {
  e_block : block;
  e_key : string;
  e_value : list byte
}.

(** The key pointer and the value pointer of an entry. *)
Definition key_ptr (e : entry) : ptr := Ptr (e_block e) PTR_SIZE.
Definition value_ptr (e : entry) : ptr :=
  Ptr (e_block e) (PTR_SIZE + strlen (e_key e) + 1).

(** The byte size of the blob of a key, for values of [vsz] bytes. *)
Definition blob_size (vsz : Z) (k : string) : Z := PTR_SIZE + strlen k + 1 + vsz.

(** A C string is the characters before its terminator: it holds no NUL. *)
Fixpoint cstring (s : string) : Prop :=
  match s with
  | EmptyString => True
  | String c s' => c ≠ Ascii.zero ∧ cstring s'
  end.

(** A key the table can hold: a C string whose blob has a size that fits
    [size_t]. *)
Definition valid_key (vsz : Z) (k : string) : Prop :=
  cstring k ∧ blob_size vsz k < 2 ^ 64.

(** [chain vsz h p es]: starting at [p] and following the next pointers, the
    heap [h] holds the blobs of the entries [es], in this order, and the last
    next pointer is NULL. *)
Fixpoint chain (vsz : Z) (h : gmap block Blob) (p : ptr) (es : list entry) : Prop :=
  match es with
  | [] => p = NULL
  | e :: es' =>
      p = Ptr (e_block e) 0
      ∧ valid_key vsz (e_key e)
      ∧ ∃ nxt,
          h !! e_block e
          = Some (mkBlob (blob_size vsz (e_key e)) nxt (e_key e) (e_value e))
          ∧ chain vsz h nxt es'
  end.

Definition table_keys (T : list (list entry)) : list string := e_key <$> concat T.
Definition table_blocks (T : list (list entry)) : list block := e_block <$> concat T.

(** [rep cm m T]: bucket [i] of [cm] heads the chain of the entries [T !! i];
    no blob is in two places; every entry is in the bucket its key hashes to;
    no key occurs twice; [count] is the number of entries. *)
Definition rep (cm : CMap) (m : mem) (T : list (list entry)) : Prop :=
  Forall2 (chain (valsz cm) (heap m)) (buckets cm) T
  ∧ Z.of_nat (length (buckets cm)) = nbuckets cm
  ∧ 0 < nbuckets cm ≤ INT_MAX
  ∧ 0 < valsz cm
  ∧ NoDup (table_blocks T)
  ∧ (∀ i es e, T !! i = Some es → e ∈ es →
       hash (e_key e) (to_int (nbuckets cm)) = Ret (Z.of_nat i))
  ∧ NoDup (table_keys T)
  ∧ count cm = Z.of_nat (length (concat T)).

(** A sequence of Put calls. *)
Fixpoint run_puts (kvs : list (string * list byte)) (cm : CMap) (m : mem)
  : outcome (CMap * mem) :=
  match kvs with
  | [] => Ret (cm, m)
  | (k, v) :: kvs' => '(cm', m') ← cmap_put cm k v m; run_puts kvs' cm' m'
  end.

(** Every key of the sequence is a valid key. *)
Definition valid_keys (vsz : Z) (kvs : list (string * list byte)) : Prop :=
  Forall (λ kv, valid_key vsz kv.1) kvs.

(** The cleanup call on the value of an entry. *)
Definition clean_entry (f : fnptr) (e : entry) : cleanup_call :=
  Cleanup f (value_ptr e) (e_value e).

(** The calls a cleanup configuration makes on the entries [es]. *)
Definition clean_calls (fn : option fnptr) (es : list entry) : list cleanup_call :=
  match fn with
  | Some f => clean_entry f <$> es
  | None => []
  end.

(** Put on an entry: the value of the entry of key [k] is replaced. *)
Definition set_entry_value (k : string) (v : list byte) (e : entry) : entry :=
  if decide (e_key e = k) then mkEntry (e_block e) k v else e.

(** A function on entries applied to every entry of a table. *)
Definition map_table (f : entry → entry) (T : list (list entry)) : list (list entry) :=
  list_fmap _ _ (list_fmap _ _ f) T.

(** The key pointer of the first entry of a list, or NULL. *)
Definition first_key_ptr (es : list entry) : ptr :=
  match es with
  | [] => NULL
  | e :: _ => key_ptr e
  end.

(** The entry [cmap_get] stops at: the first entry of the chain whose key
    agrees with [key] on the first [strlen(key)] characters. *)
Definition get_match (key : string) (es : list entry) : option entry :=
  List.find (λ e, strncmp (e_key e) key (Z.to_nat (strlen key)) =? 0) es.

(** [s] starts with [key]. *)
Definition starts_with (key s : string) : Prop := ∃ t, s = String.append key t.

(** The heap after the blocks [bs] are freed. *)
Definition free_blocks (bs : list block) (h : gmap block Blob) : gmap block Blob :=
  foldl (λ h b, delete b h) h bs.

(** The empty memory. *)
Definition mem0 : mem := mkMem ∅ [].

(** The table holds the value [v] under the key [k]. *)
Definition stored (T : list (list entry)) (k : string) (v : list byte) : Prop :=
  ∃ e, e ∈ concat T ∧ e_key e = k ∧ e_value e = v.

(** The value a sequence of Put calls leaves under a key: the first [vsz]
    bytes of the last value put under it. *)
Fixpoint last_put (vsz : Z) (kvs : list (string * list byte)) (k : string)
  : option (list byte) :=
  match kvs with
  | [] => None
  | (k', v) :: kvs' =>
      match last_put vsz kvs' k with
      | Some v' => Some v'
      | None => if decide (k' = k) then Some (take (Z.to_nat vsz) v) else None
      end
  end.

(** The bytes a sequence of Put calls stores, one value per call. *)
Definition put_values (vsz : Z) (kvs : list (string * list byte)) : list (list byte) :=
  (λ kv, take (Z.to_nat vsz) kv.2) <$> kvs.

End CMap.
(** * Properties *)

(** ** Machine integers *)

Lemma to_ulong_small z : 0 ≤ z < 2 ^ 64 → to_ulong z = z.
Proof. intros. unfold to_ulong. by apply Z.mod_small. Qed.

Lemma to_int_small z : - 2 ^ 31 ≤ z < 2 ^ 31 → to_int z = z.
Proof. intros. unfold to_int. rewrite Z.mod_small; lia. Qed.

Lemma to_ulong_range z : 0 ≤ to_ulong z < 2 ^ 64.
Proof. unfold to_ulong. apply Z.mod_pos_bound. lia. Qed.

Lemma to_ulong_minus_one : to_ulong (0 - 1) = 2 ^ 64 - 1.
Proof. reflexivity. Qed.

(** ** Byte blocks *)

Section BlockFacts.
Implicit Types (h : gmap block (list byte)) (pre bs post : list byte).

Lemma load_app h b pre bs post o n :
  h !! b = Some (pre ++ bs ++ post) →
  o = Z.of_nat (length pre) → n = Z.of_nat (length bs) →
  load h (Ptr b o) n = Some bs.
Proof.
  intros Hb -> ->. unfold load. rewrite Hb. simpl.
  rewrite bool_decide_eq_true_2.
  - rewrite !Nat2Z.id, drop_app_length, take_app_length. done.
  - rewrite !length_app. lia.
Qed.

Lemma store_app h b pre old bs post o :
  h !! b = Some (pre ++ old ++ post) →
  o = Z.of_nat (length pre) → length old = length bs →
  store h (Ptr b o) bs = Some (<[b := pre ++ bs ++ post]> h).
Proof.
  intros Hb -> Hlen. unfold store. rewrite Hb. simpl.
  rewrite bool_decide_eq_true_2.
  - rewrite !Nat2Z.id, take_app_length. do 3 f_equal.
    rewrite <- Hlen, <- drop_drop, drop_app_length, drop_app_length. done.
  - rewrite !length_app. lia.
Qed.
End BlockFacts.


(** ** cvector.c: the representation invariant *)

Module CVecProofs.
Import CVec.

#[local] Arguments load : simpl never.
#[local] Arguments store : simpl never.
#[local] Arguments memmove : simpl never.
#[local] Arguments memcpy : simpl never.

(** ** Lists of elements of one size, laid out back to back *)

Section Chunks.
Context (n : nat).
Implicit Types (l : list (list byte)).

Lemma length_concat_chunks l : chunks n l → length (concat l) = (length l * n)%nat.
Proof. induction 1 as [|e l He _ IH]; simpl; [done|]. rewrite length_app. lia. Qed.

Lemma chunks_app l1 l2 : chunks n (l1 ++ l2) ↔ chunks n l1 ∧ chunks n l2.
Proof. apply Forall_app. Qed.

Lemma chunks_lookup l i e : chunks n l → l !! i = Some e → length e = n.
Proof. intros Hl Hi. by eapply (Forall_lookup_1 _ _ _ _ Hl Hi). Qed.

(** Element [i] starts [i * n] bytes into the layout. *)
Lemma concat_split_at l i e :
  chunks n l → l !! i = Some e →
  concat l = concat (take i l) ++ e ++ concat (drop (S i) l)
  ∧ length (concat (take i l)) = (i * n)%nat.
Proof.
  intros Hl Hi. split.
  - rewrite <- (take_drop_middle l i e Hi) at 1.
    by rewrite concat_app.
  - rewrite length_concat_chunks.
    + rewrite length_take. apply lookup_lt_Some in Hi. f_equal. lia.
    + by apply Forall_take.
Qed.
End Chunks.

Lemma rep_length_concat cv m l :
  rep cv m l → Z.of_nat (length (concat l)) = size cv * elemsz cv.
Proof.
  intros (b & rest & _ & _ & _ & Hsz & Hsize & _ & Hch & _).
  rewrite (length_concat_chunks _ _ Hch), Hsize. lia.
Qed.

Lemma rep_size_le_capacity cv m l : rep cv m l → 0 ≤ size cv ≤ capacity cv.
Proof.
  intros Hrep. pose proof (rep_length_concat _ _ _ Hrep) as Hlen.
  destruct Hrep as (b & rest & _ & _ & Hblk & Hsz & Hsize & _ & _ & _).
  rewrite length_app in Hblk. split; [lia | nia].
Qed.

Lemma rep_slot_fits cv m l i :
  rep cv m l → 0 ≤ i ≤ capacity cv →
  0 ≤ i < 2 ^ 64 ∧ 0 ≤ i * elemsz cv < 2 ^ 64.
Proof.
  intros (b & rest & _ & _ & _ & Hsz & _ & Hfit & _ & _) Hi. split; nia.
Qed.

Lemma get_nth_rep cv m l b i :
  rep cv m l → data cv = Ptr b 0 → 0 ≤ i ≤ capacity cv →
  get_nth cv i = Ptr b (i * elemsz cv).
Proof.
  intros Hrep Hd Hi. destruct (rep_slot_fits _ _ _ _ Hrep Hi) as [H1 H2].
  unfold get_nth. rewrite Hd. simpl.
  rewrite (to_ulong_small i), to_ulong_small by done. f_equal.
Qed.

(** Reading slot [i] gives element [i]. *)
Lemma load_elem cv m l i e :
  rep cv m l → l !! i = Some e →
  load (heap m) (get_nth cv (Z.of_nat i)) (elemsz cv) = Some e.
Proof.
  intros Hrep Hi. pose proof (rep_size_le_capacity _ _ _ Hrep) as Hle.
  pose proof (lookup_lt_Some _ _ _ Hi) as Hlt.
  pose proof Hrep as (b & rest & Hd & Hb & Hblk & Hsz & Hsize & Hfit & Hch & Hcap).
  rewrite (get_nth_rep cv m l b) by (done || lia).
  destruct (concat_split_at _ _ _ _ Hch Hi) as [Hsplit Hlen].
  rewrite Hsplit, <- !app_assoc in Hb.
  eapply load_app; [exact Hb | |].
  - rewrite Hlen. lia.
  - rewrite (chunks_lookup _ _ _ _ Hch Hi). lia.
Qed.

Lemma cvec_create_rep esz capacity_hint fn m :
  0 < esz → 0 ≤ capacity_hint →
  initial_capacity capacity_hint * esz < 2 ^ 64 →
  ∃ cv m',
    cvec_create esz capacity_hint fn m = Ret (cv, m')
    ∧ rep cv m' []
    ∧ capacity cv = initial_capacity capacity_hint
    ∧ elemsz cv = esz ∧ clean cv = fn ∧ log m' = log m.
Proof.
  intros Hesz Hhint Hfit. unfold cvec_create, initial_capacity in *.
  destruct (esz =? 0) eqn:E; [lia|]. simpl.
  set (cap := if capacity_hint =? 0 then DEFAULT_CAPACITY else capacity_hint) in *.
  assert (0 < cap) as Hcap.
  { subst cap. destruct (capacity_hint =? 0) eqn:E'; [done | lia]. }
  unfold calloc. destruct (cap * esz <? 2 ^ 64) eqn:E2; [|lia]. simpl.
  eexists _, _. split; [done|]. split; [|done].
  eexists _, _. simpl. split; [done|]. split; [apply lookup_insert_eq|].
  rewrite length_replicate. repeat split; try done; try lia. by constructor.
Qed.


Lemma cvec_expand_rep cv m l :
  rep cv m l → 2 * capacity cv * elemsz cv < 2 ^ 64 →
  ∃ cv' m',
    cvec_expand cv m = Ret (cv', m')
    ∧ rep cv' m' l
    ∧ capacity cv' = 2 * capacity cv
    ∧ size cv' = size cv ∧ elemsz cv' = elemsz cv ∧ clean cv' = clean cv
    ∧ log m' = log m.
Proof.
  intros Hrep Hfit2. pose proof (rep_size_le_capacity _ _ _ Hrep) as Hle.
  destruct Hrep as (b & rest & Hd & Hb & Hblk & Hsz & Hsize & Hfit & Hch & Hcap).
  unfold cvec_expand.
  rewrite (to_ulong_small (capacity cv * 2)) by nia.
  rewrite to_ulong_small by nia.
  rewrite Hd. unfold realloc. rewrite Hb. simpl.
  destruct (elemsz cv * (capacity cv * 2) =? 0) eqn:E; [nia|]. simpl.
  eexists _, _. split; [done|]. split; [|simpl; repeat split; (done || lia)].
  exists (fresh (dom (heap m))),
    (rest ++ replicate (Z.to_nat (capacity cv * elemsz cv)) x00).
  simpl. split; [done|]. split.
  - rewrite lookup_insert_eq. f_equal.
    rewrite take_app_ge by lia. rewrite take_replicate, <- app_assoc.
    do 3 f_equal. lia.
  - rewrite !length_app, length_replicate. rewrite length_app in Hblk.
    repeat split; try done; lia.
Qed.

Lemma chunks_insert n (l : list (list byte)) i v :
  chunks n l → length v = n → chunks n (take i l ++ v :: drop i l).
Proof.
  intros Hl Hv. apply Forall_app. split; [by apply Forall_take|].
  constructor; [done | by apply Forall_drop].
Qed.

(** [cvec_insert] shifts the elements from [index] on by one slot and writes
    the new element at [index]. *)
Lemma cvec_insert_rep cv m l v index :
  rep cv m l →
  (index ≤ length l)%nat → Z.of_nat (length v) = elemsz cv →
  Z.of_nat (length l) < INT_MAX →
  (size cv = capacity cv → 2 * capacity cv * elemsz cv < 2 ^ 64) →
  ∃ cv' m',
    cvec_insert cv v (Z.of_nat index) m = Ret (cv', m')
    ∧ rep cv' m' (take index l ++ v :: drop index l)
    ∧ capacity cv' = (if size cv =? capacity cv then 2 * capacity cv else capacity cv)
    ∧ elemsz cv' = elemsz cv ∧ clean cv' = clean cv
    ∧ log m' = log m.
Proof.
  intros Hrep Hidx Hv Hmax Hgrow.
  pose proof (rep_size_le_capacity _ _ _ Hrep) as Hle.
  assert (size cv = Z.of_nat (length l)) as Hsize by (by destruct Hrep as (?&?&?&?&?&?&?&?&?&?)).
  unfold cvec_insert, INT_MAX in *.
  rewrite (to_ulong_small (Z.of_nat index)) by lia.
  replace ((0 <=? Z.of_nat index) && (Z.of_nat index <=? size cv)) with true
    by (symmetry; apply andb_true_intro; split; lia).
  simpl.
  (* the vector after the possible growth *)
  assert (∃ cv1 m1,
    (if size cv =? capacity cv then cvec_expand cv m else Ret (cv, m)) = Ret (cv1, m1)
    ∧ rep cv1 m1 l ∧ size cv1 < capacity cv1
    ∧ capacity cv1 = (if size cv =? capacity cv then 2 * capacity cv else capacity cv)
    ∧ elemsz cv1 = elemsz cv ∧ clean cv1 = clean cv ∧ log m1 = log m)
    as (cv1 & m1 & -> & Hrep1 & Hlt & Hcap1 & Hesz1 & Hclean1 & Hlog1).
  { destruct (size cv =? capacity cv) eqn:E.
    - destruct (cvec_expand_rep _ _ _ Hrep) as (cv1 & m1 & ? & ? & ? & ? & ? & ? & ?);
        [apply Hgrow; lia|].
      exists cv1, m1. repeat split; try done.
      destruct Hrep as (?&?&?&?&?&?&?&?&?&?). nia.
    - exists cv, m. repeat split; try done. lia. }
  simpl. clear Hgrow Hrep.
  assert (size cv1 = Z.of_nat (length l)) as Hsize1 by (by destruct Hrep1 as (?&?&?&?&?&?&?&?&?&?)).
  pose proof Hrep1 as (b & rest & Hd & Hb & Hblk & Hsz & _ & Hfit & Hch & Hcap).
  rewrite <- Hesz1 in Hv.
  rewrite to_int_small by lia.
  rewrite (get_nth_rep cv1 m1 l b) by (done || lia).
  rewrite (get_nth_rep cv1 m1 l b) by (done || lia).
  rewrite (to_ulong_small (size cv1 - _)) by lia.
  rewrite (to_ulong_small (elemsz cv1 * _)) by nia.
  rewrite (to_ulong_small (size cv1 + 1)) by nia.
  (* split the block at the insertion point *)
  assert (∃ n, n = Z.to_nat (elemsz cv1)) as [n Hn] by eauto.
  rewrite <- Hn in *.
  set (l1 := take index l). set (l2 := drop index l).
  assert (l = l1 ++ l2) as Hl by (symmetry; apply take_drop).
  assert (chunks n l1 ∧ chunks n l2) as [Hch1 Hch2].
  { apply chunks_app. by rewrite <- Hl. }
  assert (length l1 = index) as Hlen1 by (subst l1; rewrite length_take; lia).
  assert (length l2 = (length l - index)%nat) as Hlen2 by (subst l2; by rewrite length_drop).
  pose proof (length_concat_chunks _ _ Hch1) as Hc1.
  pose proof (length_concat_chunks _ _ Hch2) as Hc2.
  rewrite length_app in Hblk.
  pose proof (length_concat_chunks _ _ Hch) as Hc.
  assert (n ≤ length rest)%nat as Hrest by nia.
  rewrite <- (take_drop n rest) in Hb.
  set (gap := take n rest) in *. set (rest' := drop n rest) in *.
  assert (length gap = n) as Hgap by (subst gap; rewrite length_take; lia).
  rewrite Hl, concat_app, <- !app_assoc in Hb.
  (* memmove *)
  unfold memmove.
  erewrite load_app; [ | exact Hb | nia | nia ]. simpl.
  assert (∃ slot tail, length slot = n ∧ length tail = length (concat l2)
            ∧ concat l2 ++ gap = slot ++ tail) as (slot & tail & Hslot & Htail & Heq).
  { exists (take n (concat l2 ++ gap)), (drop n (concat l2 ++ gap)).
    rewrite length_take, length_drop, length_app, take_drop. repeat split; lia. }
  assert (heap m1 !! b = Some ((concat l1 ++ slot) ++ tail ++ rest')) as Hb'.
  { rewrite Hb. f_equal. rewrite <- !app_assoc. f_equal.
    rewrite (app_assoc slot), <- Heq, <- app_assoc. done. }
  erewrite store_app; [ | exact Hb' | rewrite length_app; nia | done ]. simpl.
  (* memcpy *)
  unfold memcpy. rewrite take_ge by lia.
  erewrite store_app;
    [ | rewrite lookup_insert_eq, <- app_assoc; reflexivity | nia | lia ].
  simpl. eexists _, _. split; [done|]. split; [|done].
  exists b, rest'. simpl. rewrite insert_insert_eq, lookup_insert_eq.
  rewrite concat_app. simpl. rewrite <- !app_assoc.
  split; [done|]. split; [done|].
  rewrite !length_app, length_cons, Hlen1, Hlen2.
  assert (length rest = n + length rest')%nat as Hr.
  { subst rest' gap. rewrite length_drop. lia. }
  assert (length (concat l) = length (concat l1) + length (concat l2))%nat as Hcl.
  { by rewrite Hl, concat_app, length_app. }
  split; [lia|]. split; [done|]. split; [lia|]. split; [done|]. split; [|done].
  rewrite <- Hn. apply chunks_insert; [done | lia].
Qed.

(** ** Sequences of insertions *)

Lemma run_op_rep cv m l op :
  rep cv m l →
  ops_valid (elemsz cv) l [op] →
  Z.of_nat (length l) < INT_MAX →
  (size cv = capacity cv → 2 * capacity cv * elemsz cv < 2 ^ 64) →
  ∃ cv' m',
    run_op op cv m = Ret (cv', m')
    ∧ rep cv' m' (apply_op l op)
    ∧ capacity cv' = (if size cv =? capacity cv then 2 * capacity cv else capacity cv)
    ∧ elemsz cv' = elemsz cv ∧ clean cv' = clean cv
    ∧ log m' = log m.
Proof.
  intros Hrep (Hv & Hidx & _) Hmax Hgrow.
  assert (size cv = Z.of_nat (length l)) as Hsize
    by (by destruct Hrep as (?&?&?&?&?&?&?&?&?&?)).
  unfold apply_op. destruct op as [v | v index]; simpl in *.
  - unfold cvec_append, cvec_count.
    replace (to_int (size cv)) with (Z.of_nat (length l))
      by (rewrite Hsize, to_int_small; unfold INT_MAX in *; lia).
    by apply cvec_insert_rep.
  - assert (∃ k, index = Z.of_nat k) as [k ->] by (exists (Z.to_nat index); lia).
    rewrite Nat2Z.id. apply cvec_insert_rep; try done. lia.
Qed.

Lemma length_apply_op l op :
  (op_index (length l) op ≤ length l)%nat → length (apply_op l op) = S (length l).
Proof.
  intros H. unfold apply_op.
  rewrite length_app, length_cons, length_take, length_drop. lia.
Qed.

Lemma ops_valid_index esz l op ops :
  ops_valid esz l (op :: ops) → (op_index (length l) op ≤ length l)%nat.
Proof. intros (_ & H & _). destruct op; simpl in *; lia. Qed.

Lemma length_apply_ops esz ops l :
  ops_valid esz l ops → length (apply_ops ops l) = (length l + length ops)%nat.
Proof.
  revert l. induction ops as [|op ops IH]; intros l Hv; simpl; [lia|].
  pose proof (ops_valid_index _ _ _ _ Hv) as Hidx.
  destruct Hv as (_ & _ & Hv). change (apply_ops (op :: ops) l) with (apply_ops ops (apply_op l op)).
  rewrite (IH _ Hv), length_apply_op by done. lia.
Qed.

Lemma run_ops_rep ops cv m l bound :
  rep cv m l →
  ops_valid (elemsz cv) l ops →
  Z.of_nat (length l + length ops) ≤ INT_MAX →
  capacity cv ≤ bound → 2 * Z.of_nat (length l + length ops) ≤ bound →
  bound * elemsz cv < 2 ^ 64 →
  ∃ cv' m',
    run_ops ops cv m = Ret (cv', m')
    ∧ rep cv' m' (apply_ops ops l)
    ∧ elemsz cv' = elemsz cv ∧ clean cv' = clean cv ∧ log m' = log m.
Proof.
  revert cv m l. induction ops as [|op ops IH]; intros cv m l Hrep Hv Hmax Hcap Hb Hfit.
  - exists cv, m. done.
  - pose proof (ops_valid_index _ _ _ _ Hv) as Hidx.
    destruct Hv as (Hv1 & Hv2 & Hv).
    assert (0 < elemsz cv ∧ size cv = Z.of_nat (length l)) as [Hsz Hsize]
      by (by destruct Hrep as (?&?&?&?&?&?&?&?&?&?)).
    simpl in Hmax, Hb.
    destruct (run_op_rep cv m l op) as (cv1 & m1 & Hrun & Hrep1 & Hcap1 & Hesz & Hcl & Hlg);
      [done | done | lia | nia |].
    simpl. rewrite Hrun. simpl.
    destruct (IH cv1 m1 (apply_op l op)) as (cv' & m' & Hrun' & Hrep' & ? & ? & ?).
    + done.
    + by rewrite Hesz.
    + rewrite length_apply_op by done. lia.
    + rewrite Hcap1. destruct (size cv =? capacity cv) eqn:E; lia.
    + rewrite length_apply_op by done. lia.
    + by rewrite Hesz.
    + exists cv', m'. repeat split; try done; congruence.
Qed.

(** ** Element access *)

Lemma cvec_nth_in_range cv m l i e :
  rep cv m l → l !! i = Some e →
  cvec_nth cv (Z.of_nat i) = Ret (get_nth cv (Z.of_nat i))
  ∧ load (heap m) (get_nth cv (Z.of_nat i)) (elemsz cv) = Some e.
Proof.
  intros Hrep Hi. split; [|by eapply load_elem].
  pose proof (lookup_lt_Some _ _ _ Hi) as Hlt.
  pose proof (rep_size_le_capacity _ _ _ Hrep) as Hle.
  assert (size cv = Z.of_nat (length l)) as Hsize
    by (by destruct Hrep as (?&?&?&?&?&?&?&?&?&?)).
  destruct (rep_slot_fits cv m l (capacity cv) Hrep) as [Hc _]; [lia|].
  unfold cvec_nth. rewrite !to_ulong_small by lia.
  replace ((0 <=? Z.of_nat i) && (Z.of_nat i <=? size cv - 1)) with true; [done|].
  symmetry. apply andb_true_intro. split; lia.
Qed.

(** On a vector that is not empty, an index out of range fails the assertion. *)
Lemma cvec_nth_out_of_range cv m l index :
  rep cv m l → l ≠ [] → - 2 ^ 31 ≤ index < 2 ^ 31 →
  ¬ (0 ≤ index < size cv) →
  cvec_nth cv index = Abort.
Proof.
  intros Hrep Hne Hint Hout.
  pose proof (rep_size_le_capacity _ _ _ Hrep) as Hle.
  assert (size cv = Z.of_nat (length l)) as Hsize
    by (by destruct Hrep as (?&?&?&?&?&?&?&?&?&?)).
  destruct (rep_slot_fits cv m l (capacity cv) Hrep) as [Hc _]; [lia|].
  assert (0 < size cv) by (destruct l; simpl in *; [done | lia]).
  unfold cvec_nth. rewrite (to_ulong_small (size cv - 1)) by lia.
  destruct (0 <=? index) eqn:E; [|done].
  rewrite to_ulong_small by lia.
  destruct (index <=? size cv - 1) eqn:E2; [lia | done].
Qed.

(** On an empty vector [cv->size - 1] wraps around to the largest [size_t],
    and every index that is not negative passes the assertion. *)
Lemma cvec_nth_empty cv index :
  size cv = 0 → 0 ≤ index →
  cvec_nth cv index = Ret (get_nth cv index).
Proof.
  intros Hsize Hidx. unfold cvec_nth. rewrite Hsize.
  pose proof (to_ulong_range index).
  replace ((0 <=? index) && (to_ulong index <=? to_ulong (0 - 1))) with true; [done|].
  symmetry. apply andb_true_intro. rewrite to_ulong_minus_one. split; lia.
Qed.

(** C4. ElementAt on an empty vector: the assertion of [cvec_nth] does not
    fail for index 0 on a vector that was just created; the call returns the
    address of slot 0 although no element is stored there. *)
Theorem cvec_nth_empty_vector_returns :
  ('(cv, _) ← cvec_create 4 0 None mem0; cvec_nth cv 0) = Ret (Ptr 1%positive 0).
Proof. vm_compute. reflexivity. Qed.

(** C5. After any sequence of Append and InsertAt calls on a new vector,
    each InsertAt with [0 <= index <= count] at its call, the count is the
    number of calls and ElementAt(i) points at the bytes that the sequence
    leaves at logical position [i]: an insertion puts its value at its
    index and moves the elements from that index on up by one slot.  The
    sequence may grow the capacity any number of times, as long as the count
    fits [int] and the byte size of the buffer fits [size_t]. *)
Theorem insert_sequence_content esz capacity_hint fn ops m0 :
  0 < esz → 0 ≤ capacity_hint →
  ops_valid esz [] ops →
  Z.of_nat (length ops) ≤ INT_MAX →
  Z.max (initial_capacity capacity_hint) (2 * Z.of_nat (length ops)) * esz < 2 ^ 64 →
  ∃ cv m,
    ('(cv, m) ← cvec_create esz capacity_hint fn m0; run_ops ops cv m) = Ret (cv, m)
    ∧ cvec_count cv = Z.of_nat (length ops)
    ∧ length (apply_ops ops []) = length ops
    ∧ ∀ i e, apply_ops ops [] !! i = Some e →
        ∃ p, cvec_nth cv (Z.of_nat i) = Ret p ∧ load (heap m) p esz = Some e.
Proof.
  intros Hesz Hhint Hv Hmax Hfit.
  destruct (cvec_create_rep esz capacity_hint fn m0) as (cv0 & m1 & Hcr & Hrep0 & Hcap0 & Hesz0 & _);
    [done | done | nia |].
  rewrite Hcr. simpl.
  destruct (run_ops_rep ops cv0 m1 []
              (Z.max (initial_capacity capacity_hint) (2 * Z.of_nat (length ops))))
    as (cv & m & Hrun & Hrep & Hesz1 & _);
    simpl; try done; try lia; try (by rewrite Hesz0).
  exists cv, m. split; [done|].
  pose proof (length_apply_ops _ _ _ Hv) as Hlen. simpl in Hlen.
  assert (size cv = Z.of_nat (length (apply_ops ops []))) as Hsize
    by (by destruct Hrep as (?&?&?&?&?&?&?&?&?&?)).
  split; [|split; [done|]].
  - unfold cvec_count. rewrite Hsize, Hlen.
    apply to_int_small. unfold INT_MAX in *. lia.
  - intros i e Hi. exists (get_nth cv (Z.of_nat i)).
    rewrite <- Hesz0, <- Hesz1. by eapply cvec_nth_in_range.
Qed.

Lemma insert_sequence_content_witness :
  ∃ cv m,
    ('(cv, m) ← cvec_create 1 2 None mem0;
     run_ops [Append [x01]; InsertAt [x02] 0; InsertAt [x03] 1; Append [x04]] cv m)
    = Ret (cv, m)
    ∧ cvec_count cv = 4
    ∧ length (apply_ops [Append [x01]; InsertAt [x02] 0; InsertAt [x03] 1; Append [x04]] [])
      = 4%nat
    ∧ ∀ i e,
        apply_ops [Append [x01]; InsertAt [x02] 0; InsertAt [x03] 1; Append [x04]] []
          !! i = Some e →
        ∃ p, cvec_nth cv (Z.of_nat i) = Ret p ∧ load (heap m) p 1 = Some e.
Proof.
  apply (insert_sequence_content 1 2 None
           [Append [x01]; InsertAt [x02] 0; InsertAt [x03] 1; Append [x04]] mem0).
  - lia.
  - lia.
  - simpl. lia.
  - vm_compute. discriminate.
  - vm_compute. reflexivity.
Defined.

(** C10. Search with [startIndex = Count()]: the assertion passes and the
    result is -1 in the sorted and in the unsorted mode; the call has no
    effect on the vector or the memory (it only returns the index). *)
Theorem cvec_search_empty_range cv key cmp sorted m :
  0 ≤ size cv ≤ INT_MAX →
  cvec_search cv key cmp (cvec_count cv) sorted m = Ret (-1).
Proof.
  intros Hsize. unfold cvec_search, cvec_count, INT_MAX in *.
  rewrite (to_int_small (size cv)) by lia.
  rewrite (to_ulong_small (size cv)) by lia.
  replace ((0 <=? size cv) && (size cv <=? size cv)) with true
    by (symmetry; apply andb_true_intro; split; lia).
  rewrite Z.sub_diag. destruct sorted; reflexivity.
Qed.

Lemma cvec_search_empty_range_witness :
  cvec_search (mkCVector (Ptr 1%positive 0) 0 16 4 None) [x01] cmp_byte
    (cvec_count (mkCVector (Ptr 1%positive 0) 0 16 4 None)) true mem0 = Ret (-1).
Proof.
  apply (cvec_search_empty_range (mkCVector (Ptr 1%positive 0) 0 16 4 None)).
  simpl. unfold INT_MAX. lia.
Defined.


(** ** Search *)

Lemma find_first_range cmp key l i :
  find_first cmp key l i = -1
  ∨ i ≤ find_first cmp key l i < i + Z.of_nat (length l).
Proof.
  revert i. induction l as [|e l IH]; intros i; simpl; [by left|].
  destruct (cmp key e =? 0); [right; lia|].
  destruct (IH (i + 1)) as [->|]; [by left | right; lia].
Qed.

(** What [find_first] finds: the first match, or -1 when nothing matches. *)
Lemma find_first_spec cmp key l i :
  0 ≤ i →
  (find_first cmp key l i = -1 ∧ ∀ e, e ∈ l → cmp key e ≠ 0)
  ∨ (∃ k e, find_first cmp key l i = i + Z.of_nat k
            ∧ l !! k = Some e ∧ cmp key e = 0
            ∧ ∀ k' e', (k' < k)%nat → l !! k' = Some e' → cmp key e' ≠ 0).
Proof.
  revert i. induction l as [|e l IH]; intros i Hi; simpl.
  - left. split; [done|]. intros e He. by apply elem_of_nil in He.
  - destruct (cmp key e =? 0) eqn:E.
    + right. exists 0%nat, e. repeat split; [lia | lia | lia].
    + destruct (IH (i + 1)) as [[Hr Hno] | (k & e' & Hr & Hk & He' & Hfirst)]; [lia | |].
      * left. split; [done|]. intros x Hx. apply elem_of_cons in Hx as [-> | Hx]; [lia | auto].
      * right. exists (S k), e'. repeat split; [lia | done | done |].
        intros [|k'] x Hlt Hx; simpl in Hx; [injection Hx as <-; lia|].
        apply (Hfirst k'); [lia | done].
Qed.

Section SearchFacts.
Context (cv : CVector) (m : mem) (l : list (list byte)) (b : block).
Context (key : list byte) (cmp : CompareFn) (start : nat).
Context (Hrep : rep cv m l) (Hdata : data cv = Ptr b 0).
Context (Hstart : (start ≤ length l)%nat).

Lemma search_slot i e :
  drop start l !! i = Some e →
  load (heap m) (ptr_add (Ptr b (Z.of_nat start * elemsz cv)) (Z.of_nat i * elemsz cv))
    (elemsz cv) = Some e.
Proof.
  intros Hi. rewrite lookup_drop in Hi.
  pose proof (lookup_lt_Some _ _ _ Hi) as Hlt.
  pose proof (rep_size_le_capacity _ _ _ Hrep) as Hle.
  assert (size cv = Z.of_nat (length l)) as Hsize
    by (by destruct Hrep as (?&?&?&?&?&?&?&?&?&?)).
  rewrite <- (load_elem cv m l _ e Hrep Hi).
  rewrite (get_nth_rep cv m l b) by (done || lia).
  simpl. do 2 f_equal. lia.
Qed.

Lemma lfind_loop_rep fuel i :
  (start + i + fuel = length l)%nat →
  lfind_loop (heap m) key (Ptr b (Z.of_nat start * elemsz cv)) (elemsz cv) cmp fuel
    (Z.of_nat i)
  = Ret (let r := find_first cmp key (drop (start + i) l) (Z.of_nat (start + i)) in
         if r =? -1 then NULL else Ptr b (r * elemsz cv)).
Proof.
  revert i. induction fuel as [|fuel IH]; intros i Hlen.
  - rewrite drop_ge by lia. done.
  - destruct (drop (start + i) l) as [|e rest] eqn:Hdrop.
    { apply (f_equal length) in Hdrop. rewrite length_drop in Hdrop. simpl in Hdrop. lia. }
    assert (drop start l !! i = Some e) as Hi.
    { rewrite lookup_drop. rewrite <- (Nat.add_0_r (start + i)), <- lookup_drop, Hdrop. done. }
    assert (drop (start + S i) l = rest) as Hrest.
    { replace (start + S i)%nat with ((start + i) + 1)%nat by lia.
      rewrite <- drop_drop, Hdrop. done. }
    cbn [lfind_loop find_first]. rewrite (search_slot _ _ Hi). simpl.
    destruct (cmp key e =? 0) eqn:E.
    + destruct (Z.eqb_spec (Z.of_nat (start + i)) (-1)) as [Heq|_]; [lia|].
      do 2 f_equal. lia.
    + replace (Z.of_nat i + 1) with (Z.of_nat (S i)) by lia.
      rewrite IH by lia. rewrite Hrest.
      replace (Z.of_nat (start + S i)) with (Z.of_nat (start + i) + 1) by lia. done.
Qed.

(** More fuel than the width of the range does not change the result of
    the binary search: the loop ends because the range is empty. *)
Lemma bsearch_loop_fuel h base sz fuel1 fuel2 lo hi :
  hi - lo ≤ Z.of_nat fuel1 → hi - lo ≤ Z.of_nat fuel2 →
  bsearch_loop h key base sz cmp fuel1 lo hi = bsearch_loop h key base sz cmp fuel2 lo hi.
Proof.
  revert fuel2 lo hi. induction fuel1 as [|fuel1 IH]; intros fuel2 lo hi H1 H2.
  - destruct fuel2 as [|fuel2]; [done|]. simpl.
    destruct (Z.ltb_spec lo hi); [lia | done].
  - destruct fuel2 as [|fuel2]; simpl.
    + destruct (Z.ltb_spec lo hi); [lia | done].
    + destruct (Z.ltb_spec lo hi) as [Hlt|_]; [|done].
      assert (lo ≤ (lo + hi) / 2 < hi) as Hmid.
      { split; [apply Z.div_le_lower_bound | apply Z.div_lt_upper_bound]; lia. }
      destruct (defined (load h (ptr_add base ((lo + hi) / 2 * sz)) sz)) as [e| | |];
        simpl; try done.
      destruct (cmp key e <? 0); [apply IH; lia|].
      destruct (0 <? cmp key e); [apply IH; lia | done].
Qed.

Context (Hsorted : key_sorted cmp key (drop start l)).

Lemma bsearch_loop_rep fuel lo hi :
  0 ≤ lo ≤ hi → hi ≤ Z.of_nat (length (drop start l)) →
  hi - lo ≤ Z.of_nat fuel →
  (∀ i e, Z.of_nat i < lo → drop start l !! i = Some e → 0 < cmp key e) →
  (∀ i e, hi ≤ Z.of_nat i → drop start l !! i = Some e → cmp key e < 0) →
  (bsearch_loop (heap m) key (Ptr b (Z.of_nat start * elemsz cv)) (elemsz cv) cmp
     fuel lo hi = Ret NULL
   ∧ ∀ e, e ∈ drop start l → cmp key e ≠ 0)
  ∨ (∃ i e, drop start l !! i = Some e ∧ cmp key e = 0
       ∧ bsearch_loop (heap m) key (Ptr b (Z.of_nat start * elemsz cv)) (elemsz cv)
           cmp fuel lo hi
         = Ret (Ptr b (Z.of_nat (start + i) * elemsz cv))).
Proof.
  revert lo hi. induction fuel as [|fuel IH]; intros lo hi Hlo Hhi Hfuel Hbelow Habove.
  - left. split; [done|]. intros e He.
    apply list_elem_of_lookup in He as [i Hi].
    destruct (decide (Z.of_nat i < lo)) as [Hlt|Hge].
    + specialize (Hbelow i e Hlt Hi). lia.
    + specialize (Habove i e ltac:(lia) Hi). lia.
  - cbn [bsearch_loop]. destruct (lo <? hi) eqn:E.
    2:{ left. split; [done|]. intros e He.
        apply list_elem_of_lookup in He as [i Hi].
        destruct (decide (Z.of_nat i < lo)) as [Hlt|Hge].
        + specialize (Hbelow i e Hlt Hi). lia.
        + specialize (Habove i e ltac:(lia) Hi). lia. }
    assert (lo ≤ (lo + hi) / 2 < hi) as Hmid.
    { split; [apply Z.div_le_lower_bound | apply Z.div_lt_upper_bound]; lia. }
    set (mid := (lo + hi) / 2) in *.
    destruct (lookup_lt_is_Some_2 (drop start l) (Z.to_nat mid)) as [e He]; [lia|].
    pose proof (search_slot _ _ He) as Hload.
    rewrite Z2Nat.id in Hload by lia. rewrite Hload. simpl.
    destruct (cmp key e <? 0) eqn:E1; [|destruct (0 <? cmp key e) eqn:E2].
    + apply IH; try lia; [done|].
      intros i x Hi Hx. destruct (decide (i = Z.to_nat mid)) as [->|Hne].
      * rewrite He in Hx. injection Hx as <-. lia.
      * pose proof (Hsorted (Z.to_nat mid) i e x ltac:(lia) He Hx). lia.
    + apply IH; try lia; [|done].
      intros i x Hi Hx. destruct (decide (i = Z.to_nat mid)) as [->|Hne].
      * rewrite He in Hx. injection Hx as <-. lia.
      * pose proof (Hsorted i (Z.to_nat mid) x e ltac:(lia) Hx He). lia.
    + right. exists (Z.to_nat mid), e. repeat split; [done | lia |].
      simpl. do 2 f_equal. rewrite Nat2Z.inj_add, Z2Nat.id by lia. ring.
Qed.
End SearchFacts.


(** C6 (as amended). For a vector holding [l], [0 <= start <= count] and,
    when the search is in the sorted (binary) mode, the range
    [[start, count)] being sorted for the key: Search returns -1 exactly when
    no element of [[start, count)] compares equal to the key, and otherwise
    the index of an element of that range that compares equal; in the
    unsorted (linear) mode this is the first such index; in the sorted mode
    it is the index of some matching element, not always the first.  Nothing
    is stated of the sorted mode on a range that is not sorted. *)
Theorem cvec_search_result cv m l key cmp start sorted :
  rep cv m l →
  0 ≤ start ≤ Z.of_nat (length l) → Z.of_nat (length l) ≤ INT_MAX →
  (sorted = true → key_sorted cmp key (drop (Z.to_nat start) l)) →
  ∃ r,
    cvec_search cv key cmp start sorted m = Ret r
    ∧ ((r = -1 ∧ ∀ e, e ∈ drop (Z.to_nat start) l → cmp key e ≠ 0)
       ∨ (start ≤ r < Z.of_nat (length l)
          ∧ ∃ e, l !! Z.to_nat r = Some e ∧ cmp key e = 0))
    ∧ (sorted = false → r = spec_search cmp key l start).
Proof.
  intros Hrep Hstart Hmax Hsorted.
  pose proof (rep_size_le_capacity _ _ _ Hrep) as Hle.
  pose proof Hrep as (b & rest & Hd & Hb & Hblk & Hsz & Hsize & Hfit & Hch & Hcap).
  assert (∃ s, start = Z.of_nat s) as [s ->] by (exists (Z.to_nat start); lia).
  rewrite Nat2Z.id in *.
  unfold cvec_search, cvec_count, INT_MAX in *.
  rewrite (to_ulong_small (Z.of_nat s)) by lia.
  replace ((0 <=? Z.of_nat s) && (Z.of_nat s <=? size cv)) with true
    by (symmetry; apply andb_true_intro; split; lia).
  rewrite (to_int_small (size cv)) by lia.
  rewrite (to_int_small (size cv - _)) by lia.
  rewrite (to_ulong_small (size cv - _)) by lia.
  rewrite (get_nth_rep cv m l b) by (done || lia).
  rewrite Hd. cbn [mbind outcome_bind assert].
  assert (∀ i, 0 ≤ i < Z.of_nat (length l) →
            to_int (to_ulong (i * elemsz cv - 0) / elemsz cv) = i) as Hidx.
  { intros i Hi. rewrite Z.sub_0_r, to_ulong_small by nia.
    rewrite Z.div_mul by lia. apply to_int_small. lia. }
  destruct sorted.
  - (* binary search *)
    unfold bsearch.
    destruct (bsearch_loop_rep cv m l b key cmp s Hrep Hd ltac:(lia) (Hsorted eq_refl)
                (Z.to_nat (size cv - Z.of_nat s)) 0 (size cv - Z.of_nat s))
      as [[-> Hno] | (i & e & Hi & He & ->)];
      try (rewrite ?length_drop; lia).
    + intros i e Hi Hx. apply lookup_lt_Some in Hx. rewrite length_drop in Hx. lia.
    + exists (-1). simpl. split; [done|]. split; [by left | done].
    + pose proof (lookup_lt_Some _ _ _ Hi) as Hlt. rewrite length_drop in Hlt.
      exists (Z.of_nat (s + i)). simpl.
      destruct (decide (b = b)); [|done]. simpl. rewrite Hidx by lia.
      split; [done|]. split; [|done]. right. split; [lia|].
      exists e. rewrite Nat2Z.id. by rewrite lookup_drop in Hi.
  - (* linear search *)
    unfold lfind.
    pose proof (lfind_loop_rep cv m l b key cmp s Hrep Hd ltac:(lia)
                  (Z.to_nat (size cv - Z.of_nat s)) 0 ltac:(lia)) as Hfind.
    change (Z.of_nat 0) with 0 in Hfind. rewrite Nat.add_0_r in Hfind.
    rewrite Hfind. clear Hfind. unfold spec_search. rewrite Nat2Z.id.
    destruct (find_first_spec cmp key (drop s l) (Z.of_nat s))
      as [[Hr Hno] | (k & e & Hr & Hk & He & _)]; [lia | |].
    + exists (-1). rewrite Hr. simpl. split; [done|]. split; [by left | done].
    + pose proof (lookup_lt_Some _ _ _ Hk) as Hlt. rewrite length_drop in Hlt.
      exists (Z.of_nat (s + k)). rewrite Hr. cbn zeta.
      destruct (Z.eqb_spec (Z.of_nat s + Z.of_nat k) (-1)) as [?|_]; [lia|].
      simpl. destruct (decide (b = b)); [|done]. simpl.
      rewrite Hidx by lia. split; [f_equal; lia|]. split; [|intros _; lia].
      right. split; [lia|]. exists e. rewrite Nat2Z.id. by rewrite lookup_drop in Hk.
Qed.

Lemma ones_rep : rep ones_vec ones_mem ones.
Proof.
  exists 1%positive, (replicate 13 x00). simpl.
  split; [done|]. split; [done|]. split; [done|]. split; [done|].
  split; [done|]. split; [done|]. split; [|done].
  repeat constructor.
Qed.

Lemma ones_built :
  ('(cv, m) ← cvec_create 1 0 None mem0;
   run_ops [Append [x01]; Append [x01]; Append [x01]] cv m) = Ret (ones_vec, ones_mem).
Proof. vm_compute. reflexivity. Qed.

Lemma ones_key_sorted : key_sorted cmp_byte [x01] ones.
Proof.
  intros i j ei ej _ Hi Hj.
  assert (∀ k e, ones !! k = Some e → e = [x01]) as Hone.
  { intros [|[|[|k]]] e; simpl; intros He; by inversion He. }
  rewrite (Hone _ _ Hi), (Hone _ _ Hj). done.
Qed.


Lemma cvec_search_result_witness :
  ∃ r,
    cvec_search ones_vec [x01] cmp_byte 0 true ones_mem = Ret r
    ∧ ((r = -1 ∧ ∀ e, e ∈ drop (Z.to_nat 0) ones → cmp_byte [x01] e ≠ 0)
       ∨ (0 ≤ r < Z.of_nat (length ones)
          ∧ ∃ e, ones !! Z.to_nat r = Some e ∧ cmp_byte [x01] e = 0))
    ∧ (true = false → r = spec_search cmp_byte [x01] ones 0).
Proof.
  apply (cvec_search_result ones_vec ones_mem ones [x01] cmp_byte 0 true).
  - exact ones_rep.
  - simpl. lia.
  - vm_compute. discriminate.
  - intros _. exact ones_key_sorted.
Defined.

(** C6 (as stated) fails: on three equal elements, a sorted range, the binary
    search returns index 1 and not the first matching index 0. *)
Lemma cvec_search_sorted_not_first :
  rep ones_vec ones_mem ones
  ∧ key_sorted cmp_byte [x01] (drop (Z.to_nat 0) ones)
  ∧ cvec_search ones_vec [x01] cmp_byte 0 true ones_mem = Ret 1
  ∧ ¬ search_returns_first ones_vec ones_mem ones [x01] cmp_byte 0 true.
Proof.
  split; [exact ones_rep|]. split; [exact ones_key_sorted|].
  split; [vm_compute; reflexivity|].
  unfold search_returns_first. vm_compute. discriminate.
Qed.

(** Why the sorted mode is stated for sorted ranges only: on the range
    5, 1, 4, 2, 3, which is not sorted, the binary search for 5 probes 4 and
    then 3 and returns -1, although the element at index 0 compares equal. *)
Lemma cvec_search_sorted_mode_unsorted_range :
  rep mixed_vec mixed_mem mixed
  ∧ ¬ key_sorted cmp_byte [x05] (drop (Z.to_nat 0) mixed)
  ∧ cvec_search mixed_vec [x05] cmp_byte 0 true mixed_mem = Ret (-1)
  ∧ cvec_search mixed_vec [x05] cmp_byte 0 false mixed_mem = Ret 0.
Proof.
  split; [|split; [|split; vm_compute; reflexivity]].
  - exists 1%positive, (replicate 11 x00). simpl.
    split; [done|]. split; [done|]. split; [done|]. split; [done|].
    split; [done|]. split; [done|]. split; [|done].
    repeat constructor.
  - intros Hs. specialize (Hs 0%nat 1%nat [x05] [x01] ltac:(lia) eq_refl eq_refl).
    vm_compute in Hs. by apply Hs.
Qed.

(** ** Traversal *)

Section TraversalFacts.
Context (cv : CVector) (m : mem) (l : list (list byte)).
Context (Hrep : rep cv m l) (Hmax : Z.of_nat (length l) ≤ INT_MAX).

Lemma get_nth_slot i :
  (i ≤ length l)%nat →
  ∃ b, data cv = Ptr b 0 ∧ get_nth cv (Z.of_nat i) = Ptr b (Z.of_nat i * elemsz cv).
Proof.
  intros Hi. pose proof (rep_size_le_capacity _ _ _ Hrep) as Hle.
  pose proof Hrep as (b & rest & Hd & Hb & Hblk & Hsz & Hsize & Hfit & Hch & Hcap).
  exists b. split; [done|]. apply (get_nth_rep cv m l b); (done || lia).
Qed.

Lemma cvec_first_rep :
  cvec_first cv = (if decide (l = []) then NULL else data cv)
  ∧ data cv = get_nth cv 0.
Proof.
  destruct (get_nth_slot 0) as (b & Hd & Hnth); [lia|].
  assert (size cv = Z.of_nat (length l)) as Hsize
    by (by destruct Hrep as (?&?&?&?&?&?&?&?&?&?)).
  split.
  - unfold cvec_first. rewrite Hsize. destruct l; simpl; done.
  - change (Z.of_nat 0) with 0 in Hnth. rewrite Hnth, Hd. done.
Qed.

Lemma cvec_next_rep i :
  (i < length l)%nat →
  cvec_next cv (get_nth cv (Z.of_nat i))
  = (if decide (S i = length l) then NULL else get_nth cv (Z.of_nat (S i)))
  ∧ ptr_add (get_nth cv (Z.of_nat i)) (elemsz cv) = get_nth cv (Z.of_nat (S i)).
Proof.
  intros Hi. pose proof (rep_size_le_capacity _ _ _ Hrep) as Hle.
  pose proof Hrep as (b & rest & Hd & Hb & Hblk & Hsz & Hsize & Hfit & Hch & Hcap).
  assert (ptr_add (get_nth cv (Z.of_nat i)) (elemsz cv) = get_nth cv (Z.of_nat (S i)))
    as Hadd.
  { rewrite !(get_nth_rep cv m l b) by (done || lia). simpl. f_equal. lia. }
  split; [|done].
  unfold cvec_next, cvec_count, INT_MAX in *. rewrite Hadd.
  rewrite (to_int_small (size cv)) by lia.
  rewrite (to_int_small (size cv - 1)) by lia.
  rewrite (to_ulong_small (size cv - 1)) by lia.
  rewrite to_ulong_small by nia.
  rewrite (get_nth_rep cv m l b) by (done || lia). rewrite Hd. simpl.
  destruct (decide (S i = length l)) as [Heq|Hne].
  - rewrite bool_decide_eq_true_2; [done|]. f_equal. nia.
  - rewrite bool_decide_eq_false_2; [done|]. intros [= Heq]. nia.
Qed.

Lemma cvec_iterate_rep rest i fuel :
  drop i l = rest → rest ≠ [] → (length rest < fuel)%nat →
  cvec_iterate cv fuel (get_nth cv (Z.of_nat i)) = Some (slots cv (Z.of_nat i) rest).
Proof.
  revert i fuel. induction rest as [|e rest IH]; intros i fuel Hdrop Hne Hfuel; [done|].
  assert (length l = (i + S (length rest))%nat) as Hlen.
  { apply (f_equal length) in Hdrop. rewrite length_drop in Hdrop. simpl in Hdrop. lia. }
  destruct fuel as [|fuel]; [simpl in Hfuel; lia|].
  destruct (get_nth_slot i) as (b & Hd & Hnth); [lia|].
  destruct (cvec_next_rep i) as [Hnext _]; [lia|].
  cbn [cvec_iterate slots]. rewrite Hnext.
  rewrite bool_decide_eq_false_2 by (by rewrite Hnth).
  replace (Z.of_nat i + 1) with (Z.of_nat (S i)) by lia.
  assert (drop (S i) l = rest) as Hdrop'.
  { replace (S i) with (i + 1)%nat by lia. by rewrite <- drop_drop, Hdrop. }
  destruct (decide (S i = length l)) as [Heq|Hneq].
  - assert (rest = []) as -> by (destruct rest; [done | simpl in Hlen; lia]).
    destruct fuel; [simpl in Hfuel; lia|]. done.
  - rewrite IH; [done | done | | simpl in Hfuel; lia].
    destruct rest; [simpl in Hlen; lia | done].
Qed.

Lemma cvec_traversal_rep fuel :
  (length l < fuel)%nat → cvec_traversal cv fuel = Some (slots cv 0 l).
Proof.
  intros Hfuel. unfold cvec_traversal.
  destruct cvec_first_rep as [Hfirst Hzero]. rewrite Hfirst.
  destruct (decide (l = [])) as [->|Hne].
  - destruct fuel; [simpl in Hfuel; lia | done].
  - rewrite Hzero. by apply (cvec_iterate_rep l 0%nat).
Qed.

Lemma slots_load rest i :
  drop i l = rest →
  Forall2 (λ p e, load (heap m) p (elemsz cv) = Some e) (slots cv (Z.of_nat i) rest) rest.
Proof.
  revert i. induction rest as [|e rest IH]; intros i Hdrop; simpl; constructor.
  - apply (load_elem cv m l); [done|].
    rewrite <- (Nat.add_0_r i), <- lookup_drop, Hdrop. done.
  - replace (Z.of_nat i + 1) with (Z.of_nat (S i)) by lia. apply IH.
    replace (S i) with (i + 1)%nat by lia. by rewrite <- drop_drop, Hdrop.
Qed.

End TraversalFacts.

Section DisposeFacts.
Context (cv : CVector) (m : mem) (l : list (list byte)).
Context (Hrep : rep cv m l).

(** The loop of [cvec_dispose] calls the callback on slot after slot. *)
Lemma dispose_loop_rep f rest i lg :
  drop i l = rest →
  dispose_loop cv f (heap m) (length rest) (Z.of_nat i) lg
  = lg ++ cleanup_calls cv f (Z.of_nat i) rest.
Proof.
  revert i lg. induction rest as [|e rest IH]; intros i lg Hdrop; simpl.
  - by rewrite app_nil_r.
  - assert (length l = (i + S (length rest))%nat) as Hlen.
    { apply (f_equal length) in Hdrop. rewrite length_drop in Hdrop. simpl in Hdrop. lia. }
    assert (size cv = Z.of_nat (length l)) as Hsize
      by (by destruct Hrep as (?&?&?&?&?&?&?&?&?&?)).
    pose proof (rep_size_le_capacity _ _ _ Hrep) as Hle.
    destruct (rep_slot_fits cv m l (capacity cv) Hrep) as [Hc _]; [lia|].
    rewrite to_ulong_small by lia.
    destruct (Z.of_nat i <? size cv) eqn:E; [|lia].
    rewrite (load_elem cv m l i e Hrep)
      by (rewrite <- (Nat.add_0_r i), <- lookup_drop, Hdrop; done).
    simpl. replace (Z.of_nat i + 1) with (Z.of_nat (S i)) by lia.
    rewrite IH.
    + by rewrite <- app_assoc.
    + replace (S i) with (i + 1)%nat by lia. by rewrite <- drop_drop, Hdrop.
Qed.

Lemma cvec_dispose_rep :
  ∃ b m',
    data cv = Ptr b 0
    ∧ cvec_dispose cv m = Ret m'
    ∧ heap m' = delete b (heap m)
    ∧ log m' = log m ++ match clean cv with
                        | Some f => cleanup_calls cv f 0 l
                        | None => []
                        end.
Proof.
  pose proof Hrep as (b & rest & Hd & Hb & Hblk & Hsz & Hsize & Hfit & Hch & Hcap).
  unfold cvec_dispose. rewrite Hd. unfold free. rewrite Hb. simpl.
  eexists b, _. split; [done|]. split; [done|]. simpl. split; [done|].
  destruct (clean cv) as [f|]; [|by rewrite app_nil_r].
  rewrite Hsize, Nat2Z.id. by apply (dispose_loop_rep f l 0%nat).
Qed.
End DisposeFacts.

Lemma apply_ops_insert_front es l :
  apply_ops (map (λ e, InsertAt e 0) es) l = reverse es ++ l.
Proof.
  revert l. induction es as [|e es IH]; intros l; [done|].
  change (apply_ops (map (λ e, InsertAt e 0) (e :: es)) l)
    with (apply_ops (map (λ e, InsertAt e 0) es) (e :: l)).
  rewrite IH, reverse_cons, <- app_assoc. done.
Qed.

Lemma ops_valid_insert_front esz es l :
  Forall (λ e, Z.of_nat (length e) = esz) es →
  ops_valid esz l (map (λ e, InsertAt e 0) es).
Proof.
  intros Hes. revert l. induction Hes as [|e es He _ IH]; intros l; simpl; [done|].
  split; [done|]. split; [lia|]. apply IH.
Qed.


(** C7. For a vector holding [l]: First() is NULL when the vector is empty
    and otherwise the address of slot 0; Next of the address of slot [i] is
    that address plus [elemsz], the address of slot [i + 1], unless slot [i]
    is the last live slot, where Next is NULL; the traversal by First/Next
    stops after visiting the slots 0, 1, ... in order, and reading them gives
    [l].  Consequently, inserting [e1 .. en] each at index 0 into a new
    vector and traversing it reads [en, ..., e1]. *)
Theorem cvec_first_next_traversal :
  (∀ cv m l,
     rep cv m l → Z.of_nat (length l) ≤ INT_MAX →
     (l = [] → cvec_first cv = NULL)
     ∧ (l ≠ [] → cvec_first cv = data cv ∧ data cv = get_nth cv 0)
     ∧ (∀ i, (S i < length l)%nat →
          cvec_next cv (get_nth cv (Z.of_nat i))
          = ptr_add (get_nth cv (Z.of_nat i)) (elemsz cv)
          ∧ ptr_add (get_nth cv (Z.of_nat i)) (elemsz cv) = get_nth cv (Z.of_nat (S i)))
     ∧ (∀ i, S i = length l → cvec_next cv (get_nth cv (Z.of_nat i)) = NULL)
     ∧ (∀ fuel, (length l < fuel)%nat → cvec_traversal cv fuel = Some (slots cv 0 l))
     ∧ Forall2 (λ p e, load (heap m) p (elemsz cv) = Some e) (slots cv 0 l) l)
  ∧ (∀ esz capacity_hint fn es m0,
       0 < esz → 0 ≤ capacity_hint →
       Forall (λ e, Z.of_nat (length e) = esz) es →
       Z.of_nat (length es) ≤ INT_MAX →
       Z.max (initial_capacity capacity_hint) (2 * Z.of_nat (length es)) * esz < 2 ^ 64 →
       ∃ cv m ps,
         ('(cv, m) ← cvec_create esz capacity_hint fn m0;
          run_ops (map (λ e, InsertAt e 0) es) cv m) = Ret (cv, m)
         ∧ cvec_traversal cv (S (length es)) = Some ps
         ∧ Forall2 (λ p e, load (heap m) p esz = Some e) ps (reverse es)).
Proof.
  split.
  - intros cv m l Hrep Hmax.
    destruct (cvec_first_rep cv m l Hrep Hmax) as [Hfirst Hzero].
    split; [|split; [|split; [|split; [|split]]]].
    + intros ->. by rewrite Hfirst.
    + intros Hne. rewrite Hfirst. by destruct (decide (l = [])).
    + intros i Hi. destruct (cvec_next_rep cv m l Hrep Hmax i) as [Hnext Hadd]; [lia|].
      split; [|done]. rewrite Hnext, Hadd. destruct (decide (S i = length l)); [lia | done].
    + intros i Hi. destruct (cvec_next_rep cv m l Hrep Hmax i) as [Hnext _]; [lia|].
      rewrite Hnext. by destruct (decide (S i = length l)).
    + intros fuel Hfuel. by apply (cvec_traversal_rep cv m l Hrep Hmax).
    + by apply (slots_load cv m l Hrep l 0%nat).
  - intros esz capacity_hint fn es m0 Hesz Hhint Hes Hmax Hfit.
    destruct (cvec_create_rep esz capacity_hint fn m0)
      as (cv0 & m1 & Hcr & Hrep0 & Hcap0 & Hesz0 & _); [done | done | nia |].
    rewrite Hcr. simpl.
    destruct (run_ops_rep (map (λ e, InsertAt e 0) es) cv0 m1 []
                (Z.max (initial_capacity capacity_hint) (2 * Z.of_nat (length es))))
      as (cv & m & Hrun & Hrep & Hesz1 & _);
      simpl; rewrite ?length_map; try done; try lia; try (by rewrite Hesz0).
    { rewrite Hesz0. by apply ops_valid_insert_front. }
    rewrite apply_ops_insert_front, app_nil_r in Hrep.
    exists cv, m, (slots cv 0 (reverse es)). split; [done|]. split.
    + apply (cvec_traversal_rep cv m (reverse es) Hrep); rewrite length_reverse; lia.
    + rewrite <- Hesz0, <- Hesz1. by apply (slots_load cv m (reverse es) Hrep _ 0%nat).
Qed.

Lemma cvec_first_next_traversal_witness :
  ((ones = [] → cvec_first ones_vec = NULL)
   ∧ (ones ≠ [] → cvec_first ones_vec = data ones_vec ∧ data ones_vec = get_nth ones_vec 0)
   ∧ (∀ i, (S i < length ones)%nat →
        cvec_next ones_vec (get_nth ones_vec (Z.of_nat i))
        = ptr_add (get_nth ones_vec (Z.of_nat i)) (elemsz ones_vec)
        ∧ ptr_add (get_nth ones_vec (Z.of_nat i)) (elemsz ones_vec)
          = get_nth ones_vec (Z.of_nat (S i)))
   ∧ (∀ i, S i = length ones → cvec_next ones_vec (get_nth ones_vec (Z.of_nat i)) = NULL)
   ∧ (∀ fuel, (length ones < fuel)%nat →
        cvec_traversal ones_vec fuel = Some (slots ones_vec 0 ones))
   ∧ Forall2 (λ p e, load (heap ones_mem) p (elemsz ones_vec) = Some e)
       (slots ones_vec 0 ones) ones)
  ∧ (∃ cv m ps,
       ('(cv, m) ← cvec_create 1 2 None mem0;
        run_ops (map (λ e, InsertAt e 0) [[x01]; [x02]; [x03]]) cv m) = Ret (cv, m)
       ∧ cvec_traversal cv (S (length [[x01]; [x02]; [x03]])) = Some ps
       ∧ Forall2 (λ p e, load (heap m) p 1 = Some e) ps (reverse [[x01]; [x02]; [x03]])).
Proof.
  split.
  - apply (proj1 cvec_first_next_traversal ones_vec ones_mem ones).
    + exact ones_rep.
    + vm_compute. discriminate.
  - apply (proj2 cvec_first_next_traversal 1 2 None [[x01]; [x02]; [x03]] mem0).
    + lia.
    + lia.
    + repeat constructor.
    + vm_compute. discriminate.
    + vm_compute. reflexivity.
Defined.

(** ** Further properties of the vector *)

(** X1. Creation fails its assertion when the element size is 0, and also
    when [calloc] cannot give the buffer because [capacity * elemsz] does not
    fit [size_t]. *)
Theorem cvec_create_rejects esz capacity_hint fn m :
  esz = 0 ∨ 2 ^ 64 ≤ initial_capacity capacity_hint * esz →
  cvec_create esz capacity_hint fn m = Abort.
Proof.
  intros H. unfold cvec_create, initial_capacity in *.
  destruct (Z.eqb_spec esz 0) as [?|Hne]; [done|]. cbn [negb assert mbind outcome_bind].
  destruct H as [?|H]; [done|]. unfold calloc.
  destruct (Z.ltb_spec ((if capacity_hint =? 0 then DEFAULT_CAPACITY else capacity_hint) * esz)
              (2 ^ 64)) as [?|_]; [lia|]. done.
Qed.

Lemma cvec_create_rejects_witness : cvec_create 0 8 None mem0 = Abort.
Proof. apply (cvec_create_rejects 0 8 None mem0). left. reflexivity. Defined.

(** X2. A new vector is empty: its count is 0, First() is NULL, its capacity
    is the hint, or 16 when the hint is 0, and its buffer is a block that was
    not live before, filled with zero bytes; the rest of the memory and the
    cleanup log are as before. *)
Theorem cvec_create_empty_vector esz capacity_hint fn m :
  0 < esz → 0 ≤ capacity_hint →
  initial_capacity capacity_hint * esz < 2 ^ 64 →
  ∃ cv m' b,
    cvec_create esz capacity_hint fn m = Ret (cv, m')
    ∧ cvec_count cv = 0 ∧ cvec_first cv = NULL
    ∧ capacity cv = (if capacity_hint =? 0 then 16 else capacity_hint)
    ∧ elemsz cv = esz ∧ clean cv = fn
    ∧ data cv = Ptr b 0 ∧ heap m !! b = None
    ∧ heap m' = <[b := replicate (Z.to_nat (capacity cv * esz)) x00]> (heap m)
    ∧ log m' = log m.
Proof.
  intros Hesz Hhint Hfit. unfold cvec_create, initial_capacity in *.
  destruct (Z.eqb_spec esz 0) as [?|_]; [lia|]. cbn [negb assert mbind outcome_bind].
  unfold calloc.
  destruct (Z.ltb_spec ((if capacity_hint =? 0 then DEFAULT_CAPACITY else capacity_hint) * esz)
              (2 ^ 64)) as [_|?]; [|lia].
  simpl. eexists _, _, (fresh (dom (heap m))). split; [done|]. simpl.
  repeat split; try done. apply not_elem_of_dom, is_fresh.
Qed.

Lemma cvec_create_empty_vector_witness :
  ∃ cv m' b,
    cvec_create 4 0 None mem0 = Ret (cv, m')
    ∧ cvec_count cv = 0 ∧ cvec_first cv = NULL
    ∧ capacity cv = (if 0 =? 0 then 16 else 0)
    ∧ elemsz cv = 4 ∧ clean cv = None
    ∧ data cv = Ptr b 0 ∧ heap mem0 !! b = None
    ∧ heap m' = <[b := replicate (Z.to_nat (capacity cv * 4)) x00]> (heap mem0)
    ∧ log m' = log mem0.
Proof.
  apply (cvec_create_empty_vector 4 0 None mem0).
  - lia.
  - lia.
  - vm_compute. reflexivity.
Defined.

(** X3. An insertion at an index outside [0, count] fails the assertion:
    nothing is inserted, also on an empty vector. *)
Theorem cvec_insert_rejects_index cv addr index m :
  - 2 ^ 31 ≤ index < 2 ^ 31 →
  ¬ (0 ≤ index ≤ size cv) →
  cvec_insert cv addr index m = Abort.
Proof.
  intros Hint Hout. unfold cvec_insert.
  destruct (Z.leb_spec 0 index) as [Hge|?]; [|done].
  rewrite (to_ulong_small index) by lia.
  destruct (Z.leb_spec index (size cv)) as [?|_]; [lia | done].
Qed.

Lemma cvec_insert_rejects_index_witness :
  cvec_insert ones_vec [x05] 4 ones_mem = Abort.
Proof.
  apply (cvec_insert_rejects_index ones_vec [x05] 4 ones_mem).
  - lia.
  - simpl. lia.
Defined.

(** X4. A search from a start index outside [0, count] fails the assertion,
    in both modes. *)
Theorem cvec_search_rejects_start cv key cmp start sorted m :
  - 2 ^ 31 ≤ start < 2 ^ 31 →
  ¬ (0 ≤ start ≤ size cv) →
  cvec_search cv key cmp start sorted m = Abort.
Proof.
  intros Hint Hout. unfold cvec_search.
  destruct (Z.leb_spec 0 start) as [Hge|?]; [|done].
  rewrite (to_ulong_small start) by lia.
  destruct (Z.leb_spec start (size cv)) as [?|_]; [lia | done].
Qed.

Lemma cvec_search_rejects_start_witness :
  cvec_search ones_vec [x01] cmp_byte (-1) false ones_mem = Abort.
Proof.
  apply (cvec_search_rejects_start ones_vec [x01] cmp_byte (-1) false ones_mem).
  - lia.
  - simpl. lia.
Defined.

(** X5. On a vector that is not empty ElementAt checks its bounds: for
    [0 <= index < count] it returns the address of slot [index], where the
    bytes of element [index] are; for any other index it fails the
    assertion. *)
Theorem cvec_nth_checks_bounds cv m l index :
  rep cv m l → l ≠ [] → - 2 ^ 31 ≤ index < 2 ^ 31 →
  (0 ≤ index < Z.of_nat (length l) →
   ∃ e, l !! Z.to_nat index = Some e
        ∧ cvec_nth cv index = Ret (get_nth cv index)
        ∧ load (heap m) (get_nth cv index) (elemsz cv) = Some e)
  ∧ (¬ (0 ≤ index < Z.of_nat (length l)) → cvec_nth cv index = Abort).
Proof.
  intros Hrep Hne Hint. split.
  - intros Hin. destruct (lookup_lt_is_Some_2 l (Z.to_nat index)) as [e He]; [lia|].
    exists e. split; [done|].
    destruct (cvec_nth_in_range cv m l _ e Hrep He) as [Hnth Hload].
    rewrite Z2Nat.id in Hnth, Hload by lia. done.
  - intros Hout. apply (cvec_nth_out_of_range cv m l); try done.
    assert (size cv = Z.of_nat (length l)) as ->
      by (by destruct Hrep as (?&?&?&?&?&?&?&?&?&?)).
    done.
Qed.

Lemma cvec_nth_checks_bounds_witness :
  (0 ≤ 3 < Z.of_nat (length ones) →
   ∃ e, ones !! Z.to_nat 3 = Some e
        ∧ cvec_nth ones_vec 3 = Ret (get_nth ones_vec 3)
        ∧ load (heap ones_mem) (get_nth ones_vec 3) (elemsz ones_vec) = Some e)
  ∧ (¬ (0 ≤ 3 < Z.of_nat (length ones)) → cvec_nth ones_vec 3 = Abort).
Proof.
  apply (cvec_nth_checks_bounds ones_vec ones_mem ones 3).
  - exact ones_rep.
  - discriminate.
  - lia.
Defined.

(** *** The buffer across insertions *)

Lemma store_inv (h h' : gmap block (list byte)) b o bs :
  store h (Ptr b o) bs = Some h' → ∃ new, h' = <[b := new]> h.
Proof.
  unfold store. destruct (h !! b) as [blk|]; simpl; [|done].
  case_bool_decide; [|done]. intros [= <-]. eauto.
Qed.

Lemma get_nth_block cv b n : data cv = Ptr b 0 → ∃ o, get_nth cv n = Ptr b o.
Proof. intros Hd. unfold get_nth. rewrite Hd. simpl. eauto. Qed.

(** Without growth an insertion leaves the buffer where it is. *)
Lemma cvec_insert_data cv addr index m cv' m' :
  size cv ≠ capacity cv →
  cvec_insert cv addr index m = Ret (cv', m') →
  data cv' = data cv ∧ capacity cv' = capacity cv ∧ elemsz cv' = elemsz cv.
Proof.
  intros Hne. unfold cvec_insert.
  destruct ((0 <=? index) && (to_ulong index <=? size cv)); [|done].
  cbn [assert mbind outcome_bind].
  destruct (Z.eqb_spec (size cv) (capacity cv)) as [?|_]; [done|].
  cbn [mbind outcome_bind].
  destruct (memmove _ _ _ _) as [h1|]; [|done]. cbn [defined mbind outcome_bind].
  destruct (memcpy _ _ _ _) as [h2|]; [|done]. cbn [defined mbind outcome_bind].
  intros [= <- <-]. done.
Qed.

Lemma cvec_create_owns esz capacity_hint fn m cv m' :
  cvec_create esz capacity_hint fn m = Ret (cv, m') → owns cv m' (heap m).
Proof.
  unfold cvec_create. destruct (negb (esz =? 0)); [|done].
  cbn [assert mbind outcome_bind]. unfold calloc.
  destruct (_ <? _); [|done]. cbn [mbind outcome_bind].
  rewrite bool_decide_eq_false_2 by done. cbn [negb assert mbind outcome_bind].
  intros [= <- <-]. eexists _, _. cbn [data heap]. split; [done|]. split; [|done].
  apply not_elem_of_dom, is_fresh.
Qed.

Lemma cvec_expand_owns cv m h0 cv' m' :
  owns cv m h0 → cvec_expand cv m = Ret (cv', m') → owns cv' m' h0.
Proof.
  intros (b & blk & Hd & Hb & Hh). unfold cvec_expand. rewrite Hd, Hh.
  unfold realloc. rewrite lookup_insert_eq. cbn [mbind option_bind].
  destruct (_ =? 0); cbn [defined mbind outcome_bind]; [done|].
  rewrite bool_decide_eq_false_2 by done. cbn [negb assert mbind outcome_bind].
  intros [= <- <-].
  pose proof (is_fresh (dom (<[b:=blk]> h0))) as Hfresh.
  eexists _, _. cbn [data heap]. split; [done|]. split.
  - apply not_elem_of_dom. intros Hin. apply Hfresh. rewrite dom_insert. set_solver.
  - by rewrite delete_insert_id.
Qed.

Lemma cvec_insert_owns cv addr index m h0 cv' m' :
  owns cv m h0 → cvec_insert cv addr index m = Ret (cv', m') → owns cv' m' h0.
Proof.
  intros Hown. unfold cvec_insert.
  destruct ((0 <=? index) && (to_ulong index <=? size cv)); [|done].
  cbn [assert mbind outcome_bind].
  assert (∀ cv1 m1,
            owns cv1 m1 h0 →
            (defined (memmove (heap m1) (get_nth cv1 (to_int (index + 1))) (get_nth cv1 index)
                        (to_ulong (elemsz cv1 * to_ulong (size cv1 - to_ulong index))))
             ≫= λ h, defined (memcpy h (get_nth cv1 index) addr (elemsz cv1))
             ≫= λ h, Ret (mkCVector (data cv1) (to_ulong (size cv1 + 1)) (capacity cv1)
                            (elemsz cv1) (clean cv1), mkMem h (log m1)))
            = Ret (cv', m') → owns cv' m' h0) as Htail.
  { intros cv1 m1 (b & blk & Hd & Hb & Hh).
    destruct (get_nth_block cv1 b (to_int (index + 1)) Hd) as [o1 ->].
    destruct (get_nth_block cv1 b index Hd) as [o2 ->].
    unfold memmove, memcpy.
    destruct (load _ _ _) as [bs|]; cbn [mbind option_bind defined outcome_bind]; [|done].
    destruct (store (heap m1) _ _) as [h1|] eqn:E1; cbn [defined mbind outcome_bind]; [|done].
    destruct (store h1 _ _) as [h2|] eqn:E2; cbn [defined mbind outcome_bind]; [|done].
    intros [= <- <-]. apply store_inv in E1 as [n1 ->]. apply store_inv in E2 as [n2 ->].
    exists b, n2. cbn [data heap]. split; [done|]. split; [done|].
    by rewrite Hh, !insert_insert_eq. }
  destruct (size cv =? capacity cv).
  - destruct (cvec_expand cv m) as [[cv1 m1]| | |] eqn:E; cbn [mbind outcome_bind]; try done.
    apply Htail. by eapply cvec_expand_owns.
  - cbn [mbind outcome_bind]. by apply Htail.
Qed.

Lemma run_ops_owns ops cv m h0 cv' m' :
  owns cv m h0 → run_ops ops cv m = Ret (cv', m') → owns cv' m' h0.
Proof.
  revert cv m. induction ops as [|op ops IH]; intros cv m Hown; simpl.
  - by intros [= <- <-].
  - destruct (run_op op cv m) as [[cv1 m1]| | |] eqn:E; cbn [mbind outcome_bind]; try done.
    apply IH. destruct op; simpl in E; [unfold cvec_append in E|];
      by eapply cvec_insert_owns.
Qed.

(** X6. An insertion into a vector that is not full happens in place: the
    capacity and the address of the buffer stay, so the elements before the
    insertion index are still found at the addresses they had. *)
Theorem cvec_insert_in_place cv m l v index :
  rep cv m l →
  (index ≤ length l)%nat → Z.of_nat (length v) = elemsz cv →
  Z.of_nat (length l) < INT_MAX →
  size cv < capacity cv →
  ∃ cv' m',
    cvec_insert cv v (Z.of_nat index) m = Ret (cv', m')
    ∧ data cv' = data cv ∧ capacity cv' = capacity cv
    ∧ cvec_count cv' = cvec_count cv + 1
    ∧ ∀ j e, (j < index)%nat → l !! j = Some e →
        get_nth cv' (Z.of_nat j) = get_nth cv (Z.of_nat j)
        ∧ load (heap m') (get_nth cv (Z.of_nat j)) (elemsz cv) = Some e.
Proof.
  intros Hrep Hidx Hv Hmax Hlt.
  destruct (cvec_insert_rep cv m l v index Hrep Hidx Hv Hmax)
    as (cv' & m' & Hins & Hrep' & _ & Hesz & _); [intros ?; lia|].
  destruct (cvec_insert_data cv v (Z.of_nat index) m cv' m') as (Hd & Hc & _);
    [lia | done |].
  assert (size cv = Z.of_nat (length l)) as Hsize
    by (by destruct Hrep as (?&?&?&?&?&?&?&?&?&?)).
  assert (size cv' = Z.of_nat (length l) + 1) as Hsize'.
  { destruct Hrep' as (_&_&_&_&_&_&->&_).
    rewrite length_app, length_cons, length_take, length_drop. lia. }
  exists cv', m'. split; [done|]. split; [done|]. split; [done|]. split.
  { unfold cvec_count, INT_MAX in *. rewrite Hsize, Hsize', !to_int_small; lia. }
  intros j e Hj He.
  assert (get_nth cv' (Z.of_nat j) = get_nth cv (Z.of_nat j)) as Hnth.
  { unfold get_nth. by rewrite Hd, Hesz. }
  split; [done|]. rewrite <- Hnth, <- Hesz.
  apply (load_elem cv' m' _ j e Hrep').
  rewrite lookup_app_l by (rewrite length_take; lia).
  rewrite lookup_take_lt by lia. done.
Qed.

Lemma cvec_insert_in_place_witness :
  ∃ cv' m',
    cvec_insert ones_vec [x05] (Z.of_nat 2) ones_mem = Ret (cv', m')
    ∧ data cv' = data ones_vec ∧ capacity cv' = capacity ones_vec
    ∧ cvec_count cv' = cvec_count ones_vec + 1
    ∧ ∀ j e, (j < 2)%nat → ones !! j = Some e →
        get_nth cv' (Z.of_nat j) = get_nth ones_vec (Z.of_nat j)
        ∧ load (heap m') (get_nth ones_vec (Z.of_nat j)) (elemsz ones_vec) = Some e.
Proof.
  apply (cvec_insert_in_place ones_vec ones_mem ones [x05] 2).
  - exact ones_rep.
  - simpl. lia.
  - reflexivity.
  - vm_compute. reflexivity.
  - simpl. lia.
Defined.

(** X7. An insertion into a full vector doubles the capacity before it
    inserts: afterwards the capacity is twice the old one and the vector
    holds the old elements with the new one at its index. *)
Theorem cvec_insert_doubles_capacity cv m l v index :
  rep cv m l →
  (index ≤ length l)%nat → Z.of_nat (length v) = elemsz cv →
  Z.of_nat (length l) < INT_MAX →
  size cv = capacity cv → 2 * capacity cv * elemsz cv < 2 ^ 64 →
  ∃ cv' m',
    cvec_insert cv v (Z.of_nat index) m = Ret (cv', m')
    ∧ capacity cv' = 2 * capacity cv
    ∧ rep cv' m' (take index l ++ v :: drop index l).
Proof.
  intros Hrep Hidx Hv Hmax Hfull Hfit.
  destruct (cvec_insert_rep cv m l v index Hrep Hidx Hv Hmax)
    as (cv' & m' & Hins & Hrep' & Hcap & _); [done|].
  exists cv', m'. split; [done|]. split; [|done].
  rewrite Hcap. destruct (Z.eqb_spec (size cv) (capacity cv)); [done | lia].
Qed.

Lemma cvec_insert_doubles_capacity_witness :
  ∃ cv' m',
    cvec_insert (mkCVector (Ptr 1%positive 0) 3 3 1 None) [x05] (Z.of_nat 1)
      (mkMem {[ 1%positive := [x01; x01; x01] ]} []) = Ret (cv', m')
    ∧ capacity cv' = 2 * capacity (mkCVector (Ptr 1%positive 0) 3 3 1 None)
    ∧ rep cv' m' (take 1 ones ++ [x05] :: drop 1 ones).
Proof.
  apply (cvec_insert_doubles_capacity (mkCVector (Ptr 1%positive 0) 3 3 1 None)
           (mkMem {[ 1%positive := [x01; x01; x01] ]} []) ones [x05] 1).
  - exists 1%positive, []. simpl.
    split; [done|]. split; [done|]. split; [done|]. split; [done|].
    split; [done|]. split; [done|]. split; [|done]. repeat constructor.
  - simpl. lia.
  - reflexivity.
  - vm_compute. reflexivity.
  - reflexivity.
  - vm_compute. reflexivity.
Defined.

(** X8. The vector gives back its element buffers: after creation, any
    sequence of insertions and disposal, the heap of byte blocks is the heap
    from before the creation; the buffers [realloc] moved away from during
    growth and the last buffer are all freed.  (The [CVector] struct itself
    is a record of the model, not a block of this heap.) *)
Theorem cvec_lifetime_returns_memory esz capacity_hint fn ops m0 :
  0 < esz → 0 ≤ capacity_hint →
  ops_valid esz [] ops →
  Z.of_nat (length ops) ≤ INT_MAX →
  Z.max (initial_capacity capacity_hint) (2 * Z.of_nat (length ops)) * esz < 2 ^ 64 →
  ∃ cv m m',
    ('(cv, m) ← cvec_create esz capacity_hint fn m0; run_ops ops cv m) = Ret (cv, m)
    ∧ cvec_dispose cv m = Ret m'
    ∧ heap m' = heap m0.
Proof.
  intros Hesz Hhint Hv Hmax Hfit.
  destruct (cvec_create_rep esz capacity_hint fn m0)
    as (cv0 & m1 & Hcr & Hrep0 & Hcap0 & Hesz0 & _); [done | done | nia |].
  pose proof (cvec_create_owns _ _ _ _ _ _ Hcr) as Hown0.
  destruct (run_ops_rep ops cv0 m1 []
              (Z.max (initial_capacity capacity_hint) (2 * Z.of_nat (length ops))))
    as (cv & m & Hrun & Hrep & _);
    simpl; try done; try lia; try (by rewrite Hesz0).
  destruct (run_ops_owns _ _ _ _ _ _ Hown0 Hrun) as (b & blk & Hd & Hb & Hh).
  destruct (cvec_dispose_rep cv m _ Hrep) as (b' & m' & Hd' & Hdisp & Hheap & _).
  exists cv, m, m'. rewrite Hcr. cbn [mbind outcome_bind]. split; [done|]. split; [done|].
  rewrite Hd in Hd'. injection Hd' as <-. rewrite Hheap, Hh. by apply delete_insert_id.
Qed.

Lemma cvec_lifetime_returns_memory_witness :
  ∃ cv m m',
    ('(cv, m) ← cvec_create 1 2 None mem0;
     run_ops [Append [x01]; InsertAt [x02] 0; Append [x03]] cv m) = Ret (cv, m)
    ∧ cvec_dispose cv m = Ret m'
    ∧ heap m' = heap mem0.
Proof.
  apply (cvec_lifetime_returns_memory 1 2 None
           [Append [x01]; InsertAt [x02] 0; Append [x03]] mem0).
  - lia.
  - lia.
  - simpl. lia.
  - vm_compute. discriminate.
  - vm_compute. reflexivity.
Defined.

End CVecProofs.

(** ** cmap.c *)

Module CMapProofs.
Import CMap.

(** *** Strings *)

Lemma uchar_inj c1 c2 : uchar c1 = uchar c2 → c1 = c2.
Proof.
  unfold uchar. intros H. apply N2Z.inj in H.
  rewrite <- (Ascii.ascii_N_embedding c1), <- (Ascii.ascii_N_embedding c2). by rewrite H.
Qed.

Lemma uchar_zero c : uchar c = 0 → c = Ascii.zero.
Proof. intros H. apply uchar_inj. rewrite H. reflexivity. Qed.

Lemma strcmp_refl s : strcmp s s = 0.
Proof. induction s as [|c s IH]; simpl; [done|]. by destruct (decide (c = c)). Qed.

(** On C strings [strcmp] is 0 exactly for equal strings. *)
Lemma strcmp_eq s1 s2 : cstring s1 → cstring s2 → strcmp s1 s2 = 0 ↔ s1 = s2.
Proof.
  intros H1 H2. split; [|intros ->; apply strcmp_refl].
  revert s2 H1 H2. induction s1 as [|c1 s1 IH]; intros [|c2 s2] H1 H2 H; simpl in *.
  - done.
  - destruct H2 as [Hc _]. assert (uchar c2 = 0) as Hz by lia. by apply uchar_zero in Hz.
  - destruct H1 as [Hc _]. by apply uchar_zero in H.
  - destruct (decide (c1 = c2)) as [->|Hne].
    + f_equal. apply IH; tauto.
    + assert (uchar c1 = uchar c2) as Heq by lia. by apply uchar_inj in Heq.
Qed.

(** *** The hash *)

Lemma hash_range s n :
  0 < n ≤ INT_MAX →
  ∃ r, hash s (to_int n) = Ret r ∧ 0 ≤ r < n.
Proof.
  intros Hn. unfold hash, INT_MAX in *.
  rewrite to_int_small by lia. rewrite to_ulong_small by lia.
  destruct (Z.eqb_spec n 0) as [?|_]; [lia|].
  pose proof (Z.mod_pos_bound (hash_loop s 0) n ltac:(lia)) as Hmod.
  eexists. split; [reflexivity|]. rewrite to_int_small; lia.
Qed.


(** *** Blobs *)

Section BlobFacts.
Context (h : gmap block Blob) (b : block) (x : Blob).
Context (Hb : h !! b = Some x).

Lemma get_next_blob : get_next h (Ptr b 0) = Some (b_next x).
Proof using Hb. unfold get_next. by rewrite Hb. Qed.

Lemma string_at_blob : string_at h (get_key (Ptr b 0)) = Some (b_key x).
Proof using Hb. unfold string_at, get_key. simpl. by rewrite Hb. Qed.

Lemma string_at_key_ptr : string_at h (Ptr b PTR_SIZE) = Some (b_key x).
Proof using Hb. unfold string_at. simpl. by rewrite Hb. Qed.

Lemma get_value_blob :
  get_value h (Ptr b 0) = Some (Ptr b (PTR_SIZE + strlen (b_key x) + 1)).
Proof using Hb. unfold get_value. rewrite string_at_blob. simpl. done. Qed.

Lemma value_at_blob :
  value_at h (Ptr b (PTR_SIZE + strlen (b_key x) + 1)) = Some (b_value x).
Proof using Hb. unfold value_at. rewrite Hb. simpl. by rewrite Z.eqb_refl. Qed.

Lemma set_value_blob cm v :
  PTR_SIZE + strlen (b_key x) + 1 + valsz cm ≤ b_size x →
  set_value cm h (Ptr b 0) v
  = Some (<[b := mkBlob (b_size x) (b_next x) (b_key x)
                   (take (Z.to_nat (valsz cm)) v)]> h).
Proof using Hb.
  intros Hsz. unfold set_value. rewrite get_value_blob. simpl. rewrite Hb. simpl.
  rewrite Z.eqb_refl. simpl.
  destruct (PTR_SIZE + strlen (b_key x) + 1 + valsz cm <=? b_size x) eqn:E; [done | lia].
Qed.

Lemma set_next_blob nxt :
  set_next h (Ptr b 0) nxt = Some (<[b := mkBlob (b_size x) nxt (b_key x) (b_value x)]> h).
Proof using Hb. unfold set_next. by rewrite Hb. Qed.

Lemma set_key_blob k :
  PTR_SIZE + strlen k + 1 ≤ b_size x →
  set_key h (Ptr b 0) k = Some (<[b := mkBlob (b_size x) (b_next x) k (b_value x)]> h).
Proof using Hb.
  intros Hsz. unfold set_key, get_key. simpl. rewrite Hb. simpl.
  destruct (PTR_SIZE + strlen k + 1 <=? b_size x) eqn:E; [done | lia].
Qed.
End BlobFacts.

(** *** Chains *)

#[local] Arguments get_next : simpl never.
#[local] Arguments set_next : simpl never.
#[local] Arguments string_at : simpl never.
#[local] Arguments get_value : simpl never.
#[local] Arguments value_at : simpl never.
#[local] Arguments set_value : simpl never.
#[local] Arguments set_key : simpl never.
#[local] Arguments call_clean : simpl never.
#[local] Arguments hash : simpl never.
#[local] Arguments bucket : simpl never.
#[local] Arguments set_bucket : simpl never.
#[local] Arguments strcmp : simpl never.

Lemma strlen_nonneg s : 0 ≤ strlen s.
Proof. unfold strlen. lia. Qed.

Lemma chain_frame vsz h h' p es :
  chain vsz h p es →
  (∀ e, e ∈ es → h' !! e_block e = h !! e_block e) →
  chain vsz h' p es.
Proof.
  revert p. induction es as [|e es IH]; intros p Hc Hsame; simpl in *; [done|].
  destruct Hc as (-> & Hv & nxt & Hb & Hc). split; [done|]. split; [done|].
  exists nxt. split.
  - rewrite Hsame; [done | by left].
  - apply IH; [done|]. intros e' He'. apply Hsame. by right.
Qed.

Lemma chain_lookup vsz h p es e :
  chain vsz h p es → e ∈ es →
  valid_key vsz (e_key e)
  ∧ ∃ nxt, h !! e_block e = Some (mkBlob (blob_size vsz (e_key e)) nxt (e_key e) (e_value e)).
Proof.
  revert p. induction es as [|e0 es IH]; intros p Hc He; [by apply elem_of_nil in He|].
  destruct Hc as (-> & Hv & nxt & Hb & Hc).
  apply elem_of_cons in He as [-> | He]; [eauto | by eapply IH].
Qed.

(** A chain is no longer than the heap has blocks. *)
Lemma chain_length vsz (h : gmap block Blob) p es :
  chain vsz h p es → NoDup (e_block <$> es) → (length es ≤ size h)%nat.
Proof.
  intros Hc Hnd.
  assert (list_to_set (e_block <$> es) ⊆ dom h) as Hsub.
  { intros b Hb. apply elem_of_list_to_set, list_elem_of_fmap in Hb as (e & -> & He).
    destruct (chain_lookup _ _ _ _ _ Hc He) as (_ & nxt & Hl).
    apply elem_of_dom. eauto. }
  apply subseteq_size in Hsub.
  rewrite size_list_to_set, length_fmap, size_dom in Hsub; done.
Qed.

(** The first entry of a chain with a given key, if there is one. *)
Lemma chain_find_key (key : string) (es : list entry) :
  (∃ es1 e es2, es = es1 ++ e :: es2 ∧ e_key e = key
                ∧ ∀ e', e' ∈ es1 → e_key e' ≠ key)
  ∨ (∀ e, e ∈ es → e_key e ≠ key).
Proof.
  induction es as [|e es IH].
  - right. intros e He. by apply elem_of_nil in He.
  - destruct (decide (e_key e = key)) as [Heq|Hne].
    + left. exists [], e, es. split; [done|]. split; [done|].
      intros e' He'. by apply elem_of_nil in He'.
    + destruct IH as [(es1 & e0 & es2 & -> & Hk & Hno) | Hno].
      * left. exists (e :: es1), e0, es2. split; [done|]. split; [done|].
        intros e' He'. apply elem_of_cons in He' as [-> | He']; auto.
      * right. intros e' He'. apply elem_of_cons in He' as [-> | He']; auto.
Qed.


(** *** Put *)

(** One step of the outcome monad. *)
Ltac mstep := cbn [mbind outcome_bind defined].

Lemma call_clean_entry cm m e sz nxt :
  heap m !! e_block e = Some (mkBlob sz nxt (e_key e) (e_value e)) →
  call_clean cm m (Ptr (e_block e) 0)
  = Ret (mkMem (heap m) (log m ++ clean_calls (clean cm) [e])).
Proof.
  intros Hb. unfold call_clean, clean_calls.
  destruct (clean cm) as [f|].
  - pose proof (value_at_blob _ _ _ Hb) as Hv. simpl in Hv.
    rewrite (get_value_blob _ _ _ Hb). simpl. by rewrite Hv.
  - rewrite app_nil_r. by destruct m.
Qed.

Lemma put_loop_not_found cm key addr m es p fuel :
  chain (valsz cm) (heap m) p es →
  cstring key →
  (∀ e, e ∈ es → e_key e ≠ key) →
  (length es < fuel)%nat →
  put_loop cm key addr m fuel p = Ret None.
Proof.
  intros Hc Hkey. revert p fuel Hc.
  induction es as [|e es IH]; intros p fuel Hc Hno Hfuel;
    (destruct fuel as [|fuel]; [simpl in Hfuel; lia|]); simpl in Hc.
  - subst p. done.
  - destruct Hc as (-> & [Hcs Hfit] & nxt & Hb & Hc).
    cbn [put_loop]. rewrite bool_decide_eq_false_2 by done.
    rewrite (string_at_blob _ _ _ Hb). simpl.
    destruct (Z.eqb_spec (strcmp (e_key e) key) 0) as [Heq|_].
    { apply strcmp_eq in Heq; [|done|done]. exfalso. apply (Hno e); [by left | done]. }
    rewrite (get_next_blob _ _ _ Hb). simpl.
    apply IH; [done | | simpl in Hfuel; lia].
    intros e' He'. apply Hno. by right.
Qed.

Lemma put_loop_found cm key addr m es1 e es2 p fuel :
  chain (valsz cm) (heap m) p (es1 ++ e :: es2) →
  cstring key → e_key e = key →
  (∀ e', e' ∈ es1 → e_key e' ≠ key) →
  (length es1 < fuel)%nat →
  ∃ nxt,
    heap m !! e_block e
    = Some (mkBlob (blob_size (valsz cm) key) nxt key (e_value e))
    ∧ put_loop cm key addr m fuel p
      = Ret (Some (mkMem
                     (<[e_block e := mkBlob (blob_size (valsz cm) key) nxt key
                                       (take (Z.to_nat (valsz cm)) addr)]> (heap m))
                     (log m ++ clean_calls (clean cm) [e]))).
Proof.
  intros Hc Hkey Hek. revert p fuel Hc.
  induction es1 as [|e1 es1 IH]; intros p fuel Hc Hno Hfuel;
    (destruct fuel as [|fuel]; [simpl in Hfuel; lia|]); simpl in Hc;
    destruct Hc as (-> & [Hcs Hfit] & nxt & Hb & Hc).
  - exists nxt. rewrite Hek in Hb. split; [done|].
    cbn [put_loop]. rewrite bool_decide_eq_false_2 by done.
    rewrite (string_at_blob _ _ _ Hb). simpl. rewrite strcmp_refl. simpl.
    rewrite <- Hek in Hb. rewrite (call_clean_entry cm m e _ _ Hb). simpl.
    rewrite (set_value_blob _ _ _ Hb); [|simpl; unfold blob_size; lia].
    simpl. by rewrite Hek.
  - cbn [put_loop]. rewrite bool_decide_eq_false_2 by done.
    rewrite (string_at_blob _ _ _ Hb). simpl.
    destruct (Z.eqb_spec (strcmp (e_key e1) key) 0) as [Heq|_].
    { apply strcmp_eq in Heq; [|done|done]. exfalso. apply (Hno e1); [by left | done]. }
    rewrite (get_next_blob _ _ _ Hb). simpl.
    apply IH; [done | | simpl in Hfuel; lia].
    intros e' He'. apply Hno. by right.
Qed.


(** *** Tables *)

Lemma NoDup_fmap_elem_inj {A B} (f : A → B) (l : list A) x y :
  NoDup (f <$> l) → x ∈ l → y ∈ l → f x = f y → x = y.
Proof.
  induction l as [|a l IH]; intros Hnd Hx Hy Hf; [by apply elem_of_nil in Hx|].
  rewrite fmap_cons in Hnd. apply NoDup_cons in Hnd as [Hnotin Hnd].
  apply elem_of_cons in Hx as [-> | Hx]; apply elem_of_cons in Hy as [-> | Hy].
  - done.
  - exfalso. apply Hnotin. rewrite Hf. apply list_elem_of_fmap. eauto.
  - exfalso. apply Hnotin. rewrite <- Hf. apply list_elem_of_fmap. eauto.
  - by apply IH.
Qed.

Lemma concat_lookup_split {A} (T : list (list A)) i es :
  T !! i = Some es →
  concat T = concat (take i T) ++ es ++ concat (drop (S i) T).
Proof.
  intros Hi. rewrite <- (take_drop_middle T i es Hi) at 1.
  by rewrite concat_app.
Qed.

Lemma concat_insert_split {A} (T : list (list A)) i es es' :
  T !! i = Some es →
  concat (<[i := es']> T) = concat (take i T) ++ es' ++ concat (drop (S i) T).
Proof.
  intros Hi. pose proof (lookup_lt_Some _ _ _ Hi) as Hlt.
  rewrite insert_take_drop by done. by rewrite concat_app.
Qed.

Lemma elem_of_concat_lookup {A} (T : list (list A)) x :
  x ∈ concat T ↔ ∃ i es, T !! i = Some es ∧ x ∈ es.
Proof.
  split.
  - induction T as [|es T IH]; simpl; intros Hx; [by apply elem_of_nil in Hx|].
    apply elem_of_app in Hx as [Hx | Hx].
    + exists 0%nat, es. done.
    + destruct (IH Hx) as (i & es' & Hi & Hx'). exists (S i), es'. done.
  - intros (i & es & Hi & Hx). rewrite (concat_lookup_split T i es Hi).
    apply elem_of_app. right. apply elem_of_app. by left.
Qed.

Lemma concat_map_table f T : concat (map_table f T) = f <$> concat T.
Proof.
  induction T as [|es T IH]; simpl; [done|]. rewrite fmap_app, <- IH. done.
Qed.

Lemma set_entry_value_block k v e : e_block (set_entry_value k v e) = e_block e.
Proof. unfold set_entry_value. by destruct (decide (e_key e = k)). Qed.

Lemma set_entry_value_key k v e : e_key (set_entry_value k v e) = e_key e.
Proof. unfold set_entry_value. by destruct (decide (e_key e = k)). Qed.

Lemma table_entry_unique T e1 e2 :
  NoDup (table_blocks T) → NoDup (table_keys T) →
  e1 ∈ concat T → e2 ∈ concat T →
  e_block e1 = e_block e2 ↔ e_key e1 = e_key e2.
Proof.
  intros Hb Hk H1 H2. split; intros Heq.
  - by rewrite (NoDup_fmap_elem_inj e_block (concat T) e1 e2).
  - by rewrite (NoDup_fmap_elem_inj e_key (concat T) e1 e2).
Qed.

Lemma chain_set_value vsz h p es b sz nxt k v0 v :
  chain vsz h p es →
  h !! b = Some (mkBlob sz nxt k v0) →
  (∀ e, e ∈ es → e_block e = b ↔ e_key e = k) →
  chain vsz (<[b := mkBlob sz nxt k v]> h) p (set_entry_value k v <$> es).
Proof.
  intros Hc Hb. revert p Hc. induction es as [|e es IH]; intros p Hc Hiff; [done|].
  destruct Hc as (-> & Hv & nxt' & He & Hc). rewrite fmap_cons.
  cbn [chain]. rewrite set_entry_value_block, set_entry_value_key.
  split; [done|]. split; [done|].
  assert (chain vsz (<[b:=mkBlob sz nxt k v]> h) nxt' (set_entry_value k v <$> es)) as Hc'.
  { apply IH; [done|]. intros e' He'. apply Hiff. by right. }
  exists nxt'. split; [|done].
  unfold set_entry_value. destruct (decide (e_key e = k)) as [Hk|Hk].
  - assert (e_block e = b) as Hbe by (apply Hiff; [by left | done]).
    rewrite Hbe in *. rewrite He in Hb. injection Hb as <- <- _ _.
    rewrite lookup_insert_eq. simpl. by rewrite Hk.
  - assert (e_block e ≠ b) as Hbe by (intros Hbe; apply Hk, Hiff; [by left | done]).
    by rewrite lookup_insert_ne.
Qed.

(** The bucket a key hashes to and its chain. *)
Lemma rep_bucket cm m T key :
  rep cm m T →
  ∃ i p es,
    hash key (to_int (nbuckets cm)) = Ret (Z.of_nat i)
    ∧ bucket cm (Z.of_nat i) = Some p
    ∧ buckets cm !! i = Some p
    ∧ T !! i = Some es
    ∧ chain (valsz cm) (heap m) p es
    ∧ (length es ≤ size (heap m))%nat.
Proof.
  intros (Hch & Hlen & Hn & Hvs & Hnd & Hhash & Hndk & Hcount).
  destruct (hash_range key (nbuckets cm) Hn) as (r & Hr & Hrange).
  assert (Z.to_nat r < length (buckets cm))%nat as Hlt by lia.
  destruct (lookup_lt_is_Some_2 _ _ Hlt) as [p Hp].
  destruct (Forall2_lookup_l _ _ _ _ _ Hch Hp) as (es & Hes & Hc).
  exists (Z.to_nat r), p, es. rewrite Z2Nat.id by lia.
  split; [done|]. split.
  { unfold bucket. destruct (r <? 0) eqn:E; [lia | done]. }
  split; [done|]. split; [done|]. split; [done|].
  apply (chain_length _ _ _ _ Hc).
  unfold table_blocks in Hnd. rewrite (concat_lookup_split T _ es Hes) in Hnd.
  rewrite !fmap_app in Hnd. apply NoDup_app in Hnd as (_ & _ & Hnd).
  by apply NoDup_app in Hnd as (Hnd & _ & _).
Qed.


Lemma map_table_lookup f T i es :
  T !! i = Some es → map_table f T !! i = Some (f <$> es).
Proof. intros Hi. unfold map_table. by rewrite list_lookup_fmap, Hi. Qed.

Lemma map_table_lookup_inv f T i es' :
  map_table f T !! i = Some es' → ∃ es, T !! i = Some es ∧ es' = f <$> es.
Proof.
  unfold map_table. rewrite list_lookup_fmap. intros H.
  destruct (T !! i) as [es|]; simpl in H; [|done]. injection H as <-. eauto.
Qed.

(** Put of a stored key: the value of its entry is replaced, after the
    cleanup callback, if there is one, was called on the old value. *)
Lemma cmap_put_update_heap cm m T key addr e :
  rep cm m T → valid_key (valsz cm) key →
  e ∈ concat T → e_key e = key →
  ∃ m',
    cmap_put cm key addr m = Ret (cm, m')
    ∧ (∃ x, heap m' = <[e_block e := x]> (heap m))
    ∧ rep cm m' (map_table (set_entry_value key (take (Z.to_nat (valsz cm)) addr)) T)
    ∧ log m' = log m ++ clean_calls (clean cm) [e].
Proof.
  intros Hrep [Hcs Hfit] He Hek.
  destruct (rep_bucket cm m T key Hrep) as (i & p & es & Hh & Hbk & Hp & Hes & Hc & Hlen).
  destruct Hrep as (Hch & Hblen & Hn & Hvs & Hnd & Hhash & Hndk & Hcount).
  (* the entry is in the bucket its key hashes to *)
  assert (e ∈ es) as Hin.
  { apply elem_of_concat_lookup in He as (j & es' & Hj & He).
    pose proof (Hhash j es' e Hj He) as Hhj. rewrite Hek, Hh in Hhj.
    injection Hhj as Hij. apply Nat2Z.inj in Hij. subst j. congruence. }
  destruct (chain_find_key key es) as [(es1 & e0 & es2 & -> & Hk0 & Hno) | Hno];
    [|by destruct (Hno e Hin)].
  assert (e0 ∈ concat T) as He0.
  { apply elem_of_concat_lookup. exists i, (es1 ++ e0 :: es2). split; [done|].
    apply elem_of_app. right. by left. }
  assert (e0 = e) as ->.
  { apply (NoDup_fmap_elem_inj e_key (concat T)); [done | done | done | congruence]. }
  destruct (put_loop_found cm key addr m es1 e es2 p (S (size (heap m))))
    as (nxt & Hb & Hloop); [done | done | done | done | |].
  { rewrite length_app in Hlen. simpl in Hlen. lia. }
  unfold cmap_put. rewrite Hh. mstep. rewrite Hbk. mstep. rewrite Hloop. mstep.
  eexists. split; [done|]. split; [simpl; eauto|]. split; [|done].
  (* the invariant *)
  set (v := take (Z.to_nat (valsz cm)) addr).
  split; [|split; [done|]; split; [done|]; split; [done|]; split; [|split; [|split]]].
  - simpl. apply Forall2_same_length_lookup_2.
    + unfold map_table. rewrite length_fmap. by eapply Forall2_length.
    + intros j q es' Hq Hj. apply map_table_lookup_inv in Hj as (es0 & Hj & ->).
      apply (chain_set_value _ _ _ _ _ _ _ _ (e_value e)); [|done|].
      * by eapply (Forall2_lookup_lr _ _ _ _ _ _ Hch).
      * intros e' He'. rewrite <- Hek. apply table_entry_unique with T; try done.
        apply elem_of_concat_lookup. eauto.
  - unfold table_blocks in *. rewrite concat_map_table, <- list_fmap_compose.
    erewrite list_fmap_ext; [exact Hnd|]. intros ? e' _. apply set_entry_value_block.
  - intros j es' e' Hj He'. apply map_table_lookup_inv in Hj as (es0 & Hj & ->).
    apply list_elem_of_fmap in He' as (e1 & -> & He1).
    rewrite set_entry_value_key. by eapply Hhash.
  - unfold table_keys in *. rewrite concat_map_table, <- list_fmap_compose.
    erewrite list_fmap_ext; [exact Hndk|]. intros ? e' _. apply set_entry_value_key.
  - rewrite concat_map_table, length_fmap. done.
Qed.

Lemma cmap_put_update cm m T key addr e :
  rep cm m T → valid_key (valsz cm) key →
  e ∈ concat T → e_key e = key →
  ∃ m',
    cmap_put cm key addr m = Ret (cm, m')
    ∧ rep cm m' (map_table (set_entry_value key (take (Z.to_nat (valsz cm)) addr)) T)
    ∧ log m' = log m ++ clean_calls (clean cm) [e].
Proof.
  intros Hrep Hvalid He Hek.
  destruct (cmap_put_update_heap cm m T key addr e Hrep Hvalid He Hek)
    as (m' & Hput & _ & Hrep' & Hlog).
  by exists m'.
Qed.


Lemma create_blob_fresh cm key addr (h : gmap block Blob) :
  valid_key (valsz cm) key → 0 < valsz cm →
  create_blob cm key addr h
  = Ret (Ptr (fresh (dom h)) 0,
         <[fresh (dom h) := mkBlob (blob_size (valsz cm) key) NULL key
                              (take (Z.to_nat (valsz cm)) addr)]> h).
Proof.
  intros [Hcs Hfit] Hvs. unfold create_blob, malloc, blob_size in *.
  pose proof (strlen_nonneg key) as Hlen.
  assert (0 < PTR_SIZE) as Hptr by done.
  rewrite to_ulong_small by lia.
  rewrite bool_decide_eq_false_2 by done. cbn [negb assert]. mstep.
  erewrite set_next_blob by apply lookup_insert_eq. mstep.
  erewrite set_key_blob; [|first [apply lookup_insert_eq | simpl; lia]..]. mstep.
  erewrite set_value_blob; [|first [apply lookup_insert_eq | simpl; lia]..]. mstep.
  simpl. by rewrite !insert_insert_eq.
Qed.

Lemma chain_insert_fresh vsz (h : gmap block Blob) p es b x :
  chain vsz h p es → h !! b = None → chain vsz (<[b := x]> h) p es.
Proof.
  intros Hc Hb. apply (chain_frame _ _ _ _ _ Hc). intros e He.
  destruct (chain_lookup _ _ _ _ _ Hc He) as (_ & nxt & Hl).
  apply lookup_insert_ne. intros ->. congruence.
Qed.

Lemma concat_insert_cons_perm {A} (T : list (list A)) i es x :
  T !! i = Some es → concat (<[i := x :: es]> T) ≡ₚ x :: concat T.
Proof.
  intros Hi. rewrite (concat_insert_split T i es _ Hi), (concat_lookup_split T i es Hi).
  simpl. by rewrite <- Permutation_middle.
Qed.

(** The blocks of a table are live. *)
Lemma rep_blocks_live cm m T b :
  Forall2 (chain (valsz cm) (heap m)) (buckets cm) T →
  b ∈ table_blocks T → is_Some (heap m !! b).
Proof.
  intros Hch Hb. apply list_elem_of_fmap in Hb as (e & -> & He).
  apply elem_of_concat_lookup in He as (i & es & Hi & He).
  destruct (Forall2_lookup_r _ _ _ _ _ Hch Hi) as (p & _ & Hc).
  destruct (chain_lookup _ _ _ _ _ Hc He) as (_ & nxt & Hl). eauto.
Qed.

(** Put of a key that is not stored: a new entry is put in front of the
    chain of the bucket the key hashes to. *)
Lemma cmap_put_insert_heap cm m T key addr :
  rep cm m T → valid_key (valsz cm) key → key ∉ table_keys T →
  ∃ cm' m' i es b,
    cmap_put cm key addr m = Ret (cm', m')
    ∧ T !! i = Some es
    ∧ hash key (to_int (nbuckets cm)) = Ret (Z.of_nat i)
    ∧ (heap m !! b = None ∧ ∃ x, heap m' = <[b := x]> (heap m))
    ∧ rep cm' m' (<[i := mkEntry b key (take (Z.to_nat (valsz cm)) addr) :: es]> T)
    ∧ nbuckets cm' = nbuckets cm ∧ valsz cm' = valsz cm ∧ clean cm' = clean cm
    ∧ count cm' = count cm + 1
    ∧ log m' = log m.
Proof.
  intros Hrep Hvalid Hnew.
  destruct (rep_bucket cm m T key Hrep) as (i & p & es & Hh & Hbk & Hp & Hes & Hc & Hlen).
  destruct Hrep as (Hch & Hblen & Hn & Hvs & Hnd & Hhash & Hndk & Hcount).
  assert (∀ e, e ∈ concat T → e_key e ≠ key) as Hno.
  { intros e He Hk. apply Hnew. apply list_elem_of_fmap. eauto. }
  unfold cmap_put. rewrite Hh. mstep. rewrite Hbk. mstep.
  rewrite (put_loop_not_found cm key addr m es p); [|done | by destruct Hvalid | | lia].
  2:{ intros e He. apply Hno. apply elem_of_concat_lookup. eauto. }
  mstep. rewrite create_blob_fresh by done. mstep.
  set (b := fresh (dom (heap m))).
  set (v := take (Z.to_nat (valsz cm)) addr).
  assert (heap m !! b = None) as Hfresh.
  { apply not_elem_of_dom. apply is_fresh. }
  (* the next pointer of the new blob is the old head in both cases *)
  assert ((if bool_decide (p = NULL)
           then Ret (<[b := mkBlob (blob_size (valsz cm) key) NULL key v]> (heap m))
           else defined (set_next
                           (<[b := mkBlob (blob_size (valsz cm) key) NULL key v]> (heap m))
                           (Ptr b 0) p))
          = Ret (<[b := mkBlob (blob_size (valsz cm) key) p key v]> (heap m))) as ->.
  { destruct (bool_decide_reflect (p = NULL)) as [-> | _]; [done|].
    erewrite set_next_blob by apply lookup_insert_eq. simpl. by rewrite insert_insert_eq. }
  mstep. unfold set_bucket. rewrite Hbk. mstep. cbn [mbind option_bind].
  rewrite Nat2Z.id. mstep.
  eexists _, _, i, es, b. split; [done|]. split; [done|]. split; [done|].
  split; [simpl; eauto|].
  split; [|simpl; done].
  (* the invariant *)
  split; [|split; [|split; [done|]; split; [done|]; split; [|split; [|split]]]]; simpl.
  - apply Forall2_insert.
    + eapply Forall2_impl; [exact Hch|]. intros q es' Hq. by apply chain_insert_fresh.
    + simpl. split; [done|]. split; [done|]. exists p. split; [apply lookup_insert_eq|].
      by apply chain_insert_fresh.
  - by rewrite length_insert.
  - unfold table_blocks in *. rewrite (concat_insert_cons_perm T i es _ Hes), fmap_cons.
    apply NoDup_cons. split; [|done]. simpl. intros Hb.
    destruct (rep_blocks_live cm m T b Hch Hb) as [x Hx]. congruence.
  - intros j es' e' Hj He'. destruct (decide (j = i)) as [->|Hne].
    + rewrite list_lookup_insert_eq in Hj by (by eapply lookup_lt_Some).
      injection Hj as <-. apply elem_of_cons in He' as [-> | He']; [done|].
      by eapply Hhash.
    + rewrite list_lookup_insert_ne in Hj by done. by eapply Hhash.
  - unfold table_keys in *. rewrite (concat_insert_cons_perm T i es _ Hes), fmap_cons.
    apply NoDup_cons. split; [|done]. done.
  - rewrite (concat_insert_cons_perm T i es _ Hes). simpl. lia.
Qed.

Lemma cmap_put_insert cm m T key addr :
  rep cm m T → valid_key (valsz cm) key → key ∉ table_keys T →
  ∃ cm' m' i es b,
    cmap_put cm key addr m = Ret (cm', m')
    ∧ T !! i = Some es
    ∧ hash key (to_int (nbuckets cm)) = Ret (Z.of_nat i)
    ∧ rep cm' m' (<[i := mkEntry b key (take (Z.to_nat (valsz cm)) addr) :: es]> T)
    ∧ nbuckets cm' = nbuckets cm ∧ valsz cm' = valsz cm ∧ clean cm' = clean cm
    ∧ count cm' = count cm + 1
    ∧ log m' = log m.
Proof.
  intros Hrep Hvalid Hnew.
  destruct (cmap_put_insert_heap cm m T key addr Hrep Hvalid Hnew)
    as (cm' & m' & i & es & b & Hput & Hes & Hh & _ & Hrest).
  by exists cm', m', i, es, b.
Qed.


Lemma table_keys_map_table k v T :
  table_keys (map_table (set_entry_value k v) T) = table_keys T.
Proof.
  unfold table_keys. rewrite concat_map_table, <- list_fmap_compose.
  apply list_fmap_ext. intros ? e _. apply set_entry_value_key.
Qed.

(** Put keeps the invariant; the keys of the table are the old keys and the
    key that was put. *)
Lemma cmap_put_rep cm m T key addr :
  rep cm m T → valid_key (valsz cm) key →
  ∃ cm' m' T',
    cmap_put cm key addr m = Ret (cm', m')
    ∧ rep cm' m' T'
    ∧ nbuckets cm' = nbuckets cm ∧ valsz cm' = valsz cm ∧ clean cm' = clean cm
    ∧ (∀ k, k ∈ table_keys T' ↔ k = key ∨ k ∈ table_keys T).
Proof.
  intros Hrep Hvalid. destruct (decide (key ∈ table_keys T)) as [Hin|Hnew].
  - pose proof Hin as Hin'. apply list_elem_of_fmap in Hin' as (e & Hk & He).
    destruct (cmap_put_update cm m T key addr e) as (m' & Hput & Hrep' & _); try done.
    eexists cm, m', _. split; [done|]. split; [done|]. repeat split; try done.
    + rewrite table_keys_map_table. by right.
    + rewrite table_keys_map_table. intros [-> | Hk']; done.
  - destruct (cmap_put_insert cm m T key addr)
      as (cm' & m' & i & es & b & Hput & Hes & Hh & Hrep' & ? & ? & ? & ? & ?); try done.
    eexists cm', m', _. split; [done|]. split; [done|]. repeat split; try done.
    + unfold table_keys. rewrite (concat_insert_cons_perm T i es _ Hes), fmap_cons.
      simpl. intros Hk. by apply elem_of_cons in Hk.
    + unfold table_keys. rewrite (concat_insert_cons_perm T i es _ Hes), fmap_cons.
      simpl. intros Hk. by apply elem_of_cons.
Qed.

Lemma concat_replicate_nil {A} n : concat (replicate n ([] : list A)) = [].
Proof. induction n as [|n IH]; simpl; done. Qed.

Lemma cmap_create_rep valuesz capacity_hint fn m :
  0 < valuesz → 0 ≤ capacity_hint ≤ INT_MAX →
  ∃ cm,
    cmap_create valuesz capacity_hint fn m = Ret (cm, m)
    ∧ rep cm m (replicate (length (buckets cm)) [])
    ∧ valsz cm = valuesz ∧ clean cm = fn ∧ count cm = 0
    ∧ nbuckets cm = (if capacity_hint =? 0 then DEFAULT_CAPACITY else capacity_hint).
Proof.
  intros Hv Hc. unfold cmap_create, INT_MAX in *.
  destruct (Z.eqb_spec valuesz 0) as [?|_]; [lia|]. cbn [negb assert]. mstep.
  set (n := if capacity_hint =? 0 then DEFAULT_CAPACITY else capacity_hint).
  assert (0 < n ≤ 2147483647) as Hn.
  { subst n. destruct (Z.eqb_spec capacity_hint 0); [done | lia]. }
  destruct (n * PTR_SIZE <? 2 ^ 64) eqn:E; [|unfold PTR_SIZE in E; lia].
  cbn [assert]. mstep. eexists. split; [done|]. simpl.
  split; [|done]. unfold rep, table_keys, table_blocks. simpl. rewrite length_replicate.
  rewrite concat_replicate_nil. simpl.
  split; [|split; [lia|]; split; [done|]; split; [done|]; split; [constructor|];
           split; [|split; [constructor | done]]].
  - apply Forall2_replicate. done.
  - intros i es e Hi He. apply lookup_replicate in Hi as [-> _]. by apply elem_of_nil in He.
Qed.

Lemma run_puts_rep kvs cm m T :
  rep cm m T → valid_keys (valsz cm) kvs →
  ∃ cm' m' T',
    run_puts kvs cm m = Ret (cm', m')
    ∧ rep cm' m' T'
    ∧ nbuckets cm' = nbuckets cm ∧ valsz cm' = valsz cm ∧ clean cm' = clean cm
    ∧ (∀ k, k ∈ table_keys T' ↔ k ∈ kvs.*1 ∨ k ∈ table_keys T).
Proof.
  revert cm m T. induction kvs as [|[k v] kvs IH]; intros cm m T Hrep Hvalid.
  - exists cm, m, T. do 5 (split; [done|]). intros k. split.
    + intros Hk. by right.
    + intros [Hk | Hk]; [by apply elem_of_nil in Hk | done].
  - apply Forall_cons in Hvalid as [Hk Hvalid]. simpl in Hk.
    destruct (cmap_put_rep cm m T k v Hrep Hk)
      as (cm1 & m1 & T1 & Hput & Hrep1 & Hn1 & Hv1 & Hc1 & Hkeys1).
    destruct (IH cm1 m1 T1 Hrep1) as (cm' & m' & T' & Hrun & Hrep' & Hn & Hv & Hc & Hkeys).
    { by rewrite Hv1. }
    exists cm', m', T'. simpl. rewrite Hput. mstep.
    split; [done|]. split; [done|].
    split; [congruence|]. split; [congruence|]. split; [congruence|].
    intros k'. rewrite Hkeys, Hkeys1. cbn [fmap list_fmap fst]. rewrite elem_of_cons. tauto.
Qed.

(** A table with the keys of [l] has as many entries as [l] has distinct
    keys. *)
Lemma table_size_distinct_keys T (l : list string) :
  NoDup (table_keys T) → (∀ k, k ∈ table_keys T ↔ k ∈ l) →
  length (concat T) = length (remove_dups l).
Proof.
  intros Hnd Hk. rewrite <- (length_fmap e_key). apply Permutation_length.
  apply NoDup_Permutation; [done | apply NoDup_remove_dups|].
  intros k. rewrite elem_of_remove_dups. apply Hk.
Qed.

(** C9. In every table state reached from Create by a sequence of Put calls
    (with valid keys, a bucket count that fits [int] and no more distinct
    keys than the [int] count can number) the buckets head chains of entries
    [T] such that every entry of bucket [i] has a key that hashes to [i], no
    key occurs in two entries, and the count is the number of entries of all
    chains, a number within [int]. *)
Theorem table_invariant valuesz capacity_hint fn kvs m0 :
  0 < valuesz → 0 ≤ capacity_hint ≤ INT_MAX → valid_keys valuesz kvs →
  Z.of_nat (length (remove_dups kvs.*1)) ≤ INT_MAX →
  ∃ cm m T,
    ('(cm, m) ← cmap_create valuesz capacity_hint fn m0; run_puts kvs cm m) = Ret (cm, m)
    ∧ Forall2 (chain (valsz cm) (heap m)) (buckets cm) T
    ∧ (∀ i es e, T !! i = Some es → e ∈ es →
         hash (e_key e) (to_int (nbuckets cm)) = Ret (Z.of_nat i))
    ∧ NoDup (table_keys T)
    ∧ NoDup (table_blocks T)
    ∧ cmap_count cm = Z.of_nat (length (concat T))
    ∧ (∀ k, k ∈ table_keys T ↔ k ∈ kvs.*1)
    ∧ 0 ≤ cmap_count cm ≤ INT_MAX.
Proof.
  intros Hv Hc Hkeys Hmax.
  destruct (cmap_create_rep valuesz capacity_hint fn m0 Hv Hc)
    as (cm0 & Hcr & Hrep0 & Hv0 & _).
  destruct (run_puts_rep kvs cm0 m0 _ Hrep0) as (cm & m & T & Hrun & Hrep & _ & _ & _ & Hk).
  { by rewrite Hv0. }
  exists cm, m, T. rewrite Hcr. mstep. split; [done|].
  destruct Hrep as (Hch & Hblen & Hn & Hvs & Hnd & Hhash & Hndk & Hcount).
  unfold table_keys at 2 in Hk. rewrite concat_replicate_nil in Hk. simpl in Hk.
  assert (∀ k, k ∈ table_keys T ↔ k ∈ kvs.*1) as Hk'.
  { intros k. rewrite Hk. split; [|by left].
    intros [Hin | Hin]; [done | by apply elem_of_nil in Hin]. }
  do 5 (split; [done|]). split; [done|].
  unfold cmap_count. rewrite Hcount, (table_size_distinct_keys T kvs.*1 Hndk Hk'). lia.
Qed.


Lemma table_invariant_witness :
  ∃ cm m T,
    ('(cm, m) ← cmap_create 1 3 None mem0;
     run_puts [("a", [x01]); ("b", [x02]); ("a", [x03])] cm m) = Ret (cm, m)
    ∧ Forall2 (chain (valsz cm) (heap m)) (buckets cm) T
    ∧ (∀ i es e, T !! i = Some es → e ∈ es →
         hash (e_key e) (to_int (nbuckets cm)) = Ret (Z.of_nat i))
    ∧ NoDup (table_keys T)
    ∧ NoDup (table_blocks T)
    ∧ cmap_count cm = Z.of_nat (length (concat T))
    ∧ (∀ k, k ∈ table_keys T ↔ k ∈ [("a", [x01]); ("b", [x02]); ("a", [x03])].*1)
    ∧ 0 ≤ cmap_count cm ≤ INT_MAX.
Proof.
  apply (table_invariant 1 3 None [("a", [x01]); ("b", [x02]); ("a", [x03])] mem0).
  - lia.
  - unfold INT_MAX. lia.
  - repeat constructor; done.
  - vm_compute. discriminate.
Defined.

(** *** Traversal *)

Section MapTraversalFacts.
Context (cm : CMap) (m : mem) (T : list (list entry)).
Context (Hrep : rep cm m T).

Lemma rep_lookup i es :
  T !! i = Some es →
  ∃ p, buckets cm !! i = Some p ∧ bucket cm (Z.of_nat i) = Some p
       ∧ chain (valsz cm) (heap m) p es.
Proof using Hrep.
  intros Hi. destruct Hrep as (Hch & _).
  destruct (Forall2_lookup_r _ _ _ _ _ Hch Hi) as (p & Hp & Hc).
  exists p. split; [done|]. split; [|done].
  unfold bucket. destruct (Z.ltb_spec (Z.of_nat i) 0) as [?|_]; [lia|]. by rewrite Nat2Z.id.
Qed.

Lemma rep_length : Z.of_nat (length T) = nbuckets cm ∧ 0 < nbuckets cm ≤ INT_MAX.
Proof using Hrep.
  destruct Hrep as (Hch & Hlen & Hn & _). apply Forall2_length in Hch. split; [lia | done].
Qed.

(** The scan of the buckets from index [i] stops at the first bucket that
    is not empty. *)
Lemma scan_buckets_rep fuel i :
  (i ≤ length T)%nat → (length T - i ≤ fuel)%nat →
  scan_buckets cm fuel (Z.of_nat i) = Ret (first_key_ptr (concat (drop i T))).
Proof using Hrep.
  destruct rep_length as [Hlen Hn]. unfold INT_MAX in *.
  revert i. induction fuel as [|fuel IH]; intros i Hi Hfuel.
  - rewrite drop_ge by lia. done.
  - cbn [scan_buckets]. rewrite to_ulong_small by lia.
    destruct (Z.ltb_spec (Z.of_nat i) (nbuckets cm)) as [Hlt|Hge].
    2:{ rewrite drop_ge by lia. done. }
    destruct (lookup_lt_is_Some_2 T i) as [es Hes]; [lia|].
    destruct (rep_lookup i es Hes) as (p & Hp & Hbk & Hc).
    rewrite Hbk. mstep.
    rewrite (drop_S T es i Hes). simpl.
    destruct es as [|e es]; simpl in Hc.
    + subst p. rewrite bool_decide_eq_true_2 by done.
      replace (Z.of_nat i + 1) with (Z.of_nat (S i)) by lia. apply IH; lia.
    + destruct Hc as (-> & _). rewrite bool_decide_eq_false_2 by done. done.
Qed.

Lemma chain_split vsz h p es1 e es2 :
  chain vsz h p (es1 ++ e :: es2) →
  ∃ nxt,
    h !! e_block e = Some (mkBlob (blob_size vsz (e_key e)) nxt (e_key e) (e_value e))
    ∧ chain vsz h nxt es2.
Proof.
  revert p. induction es1 as [|e1 es1 IH]; intros p Hc; simpl in Hc;
    destruct Hc as (-> & _ & nxt & Hb & Hc); eauto.
Qed.

(** Next of the key of an entry: the key of the entry that follows it in its
    chain, or else the first key of the buckets after its bucket. *)
Lemma cmap_next_rep i es1 e es2 :
  T !! i = Some (es1 ++ e :: es2) →
  cmap_next cm (key_ptr e) m
  = Ret (first_key_ptr (es2 ++ concat (drop (S i) T))).
Proof using Hrep.
  intros Hi. destruct rep_length as [Hlen Hn].
  pose proof (lookup_lt_Some _ _ _ Hi) as Hlt.
  destruct (rep_lookup i _ Hi) as (p & Hp & Hbk & Hc).
  destruct (chain_split _ _ _ _ _ _ Hc) as (nxt & Hb & Hc2).
  unfold cmap_next, key_ptr. cbn [ptr_add].
  replace (PTR_SIZE + - PTR_SIZE) with 0 by done.
  rewrite (get_next_blob _ _ _ Hb). mstep. cbn [b_next].
  destruct es2 as [|e2 es2]; simpl in Hc2.
  - subst nxt. rewrite bool_decide_eq_true_2 by done. cbn [negb].
    rewrite (string_at_key_ptr _ _ _ Hb). mstep. cbn [b_key].
    destruct Hrep as (_ & _ & _ & _ & _ & Hhash & _).
    rewrite (Hhash i _ e Hi) by (apply elem_of_app; right; by left). mstep.
    replace (Z.of_nat i + 1) with (Z.of_nat (S i)) by lia.
    rewrite scan_buckets_rep by lia. done.
  - destruct Hc2 as (-> & _). rewrite bool_decide_eq_false_2 by done. done.
Qed.

Lemma cmap_first_rep : cmap_first cm = Ret (first_key_ptr (concat T)).
Proof using Hrep.
  destruct rep_length as [Hlen Hn]. unfold cmap_first.
  rewrite <- Hlen, Nat2Z.id. change 0 with (Z.of_nat 0).
  rewrite scan_buckets_rep by lia. done.
Qed.

Lemma concat_drop_head k e rest :
  concat (drop k T) = e :: rest →
  ∃ j es, (k ≤ j)%nat ∧ T !! j = Some (e :: es) ∧ rest = es ++ concat (drop (S j) T).
Proof.
  clear Hrep. revert k. induction T as [|es0 T' IH]; intros k Hk.
  - by rewrite drop_nil in Hk.
  - destruct k as [|k].
    + simpl in Hk. destruct es0 as [|e0 es0].
      * destruct (IH 0%nat Hk) as (j & es & _ & Hj & Hr). exists (S j), es.
        split; [lia|]. done.
      * injection Hk as -> <-. exists 0%nat, es0. split; [lia|]. done.
    + destruct (IH k Hk) as (j & es & Hle & Hj & Hr). exists (S j), es.
      split; [lia|]. done.
Qed.

(** The table has no more entries than the heap has blocks. *)
Lemma table_length : (length (concat T) ≤ size (heap m))%nat.
Proof using Hrep.
  destruct Hrep as (Hch & _ & _ & _ & Hnd & _).
  assert (list_to_set (table_blocks T) ⊆ dom (heap m)) as Hsub.
  { intros b Hb. apply elem_of_list_to_set in Hb.
    apply elem_of_dom. by apply (rep_blocks_live cm m T). }
  apply subseteq_size in Hsub.
  rewrite size_list_to_set, size_dom in Hsub by done.
  unfold table_blocks in Hsub. by rewrite length_fmap in Hsub.
Qed.

Lemma cmap_iterate_rep rest i es1 e es2 fuel :
  T !! i = Some (es1 ++ e :: es2) →
  rest = es2 ++ concat (drop (S i) T) →
  (S (length rest) < fuel)%nat →
  cmap_iterate cm m fuel (key_ptr e) = Ret (key_ptr <$> e :: rest).
Proof using Hrep.
  revert i es1 e es2 fuel.
  induction rest as [|e' rest IH]; intros i es1 e es2 fuel Hi Hrest Hfuel;
    (destruct fuel as [|fuel]; [simpl in Hfuel; lia|]);
    cbn [cmap_iterate]; rewrite bool_decide_eq_false_2 by done;
    rewrite (cmap_next_rep i es1 e es2 Hi), <- Hrest; mstep.
  - destruct fuel as [|fuel]; [simpl in Hfuel; lia|]. done.
  - cbn [first_key_ptr].
    assert (∃ j es1' es2', T !! j = Some (es1' ++ e' :: es2')
                           ∧ rest = es2' ++ concat (drop (S j) T))
      as (j & es1' & es2' & Hj & Hr).
    { destruct es2 as [|e2 es2].
      - simpl in Hrest. symmetry in Hrest.
        destruct (concat_drop_head _ _ _ Hrest) as (j & es & _ & Hj & Hr).
        exists j, [], es. done.
      - injection Hrest as -> ->. exists i, (es1 ++ [e]), es2.
        split; [by rewrite <- app_assoc | done]. }
    rewrite (IH j es1' e' es2' fuel Hj Hr) by (simpl in Hfuel; lia). done.
Qed.

Lemma cmap_traversal_rep : cmap_traversal cm m = Ret (key_ptr <$> concat T).
Proof using Hrep.
  unfold cmap_traversal. rewrite cmap_first_rep. mstep.
  pose proof table_length as Hlen.
  destruct (concat T) as [|e rest] eqn:Hc; [done|].
  rewrite <- (drop_0 T) in Hc.
  destruct (concat_drop_head _ _ _ Hc) as (j & es & _ & Hj & Hr).
  cbn [first_key_ptr].
  apply (cmap_iterate_rep rest j [] e es); [done | done | simpl in Hlen; lia].
Qed.

(** Reading the key pointers of the entries gives their keys. *)
Lemma key_ptrs_keys :
  Forall2 (λ p k, string_at (heap m) p = Some k) (key_ptr <$> concat T) (table_keys T).
Proof using Hrep.
  unfold table_keys. apply Forall2_fmap, Forall_Forall2_diag, Forall_forall.
  intros e He. apply elem_of_concat_lookup in He as (i & es & Hi & He).
  destruct (rep_lookup i es Hi) as (p & _ & _ & Hc).
  destruct (chain_lookup _ _ _ _ _ Hc He) as (_ & nxt & Hb).
  exact (string_at_key_ptr _ _ _ Hb).
Qed.

Lemma key_ptrs_NoDup : NoDup (key_ptr <$> concat T).
Proof using Hrep.
  destruct Hrep as (_ & _ & _ & _ & Hnd & _). unfold table_blocks in Hnd.
  assert (key_ptr <$> concat T = (λ b, Ptr b PTR_SIZE) <$> (e_block <$> concat T)) as ->.
  { by rewrite <- list_fmap_compose. }
  apply NoDup_fmap_2; [|done]. intros b1 b2 Hb. by injection Hb.
Qed.

End MapTraversalFacts.

(** C3. For a table built by a sequence of Put calls, the traversal that
    starts with First() and applies Next to the previous key until NULL ends,
    and the keys it visits are the keys that were put, each once: no key is
    left out and none is visited twice, whatever the order of the Put
    calls.  (Their number is the count of the table, as long as the [int]
    count can hold it.) *)
Theorem traversal_visits_each_key_once valuesz capacity_hint fn kvs m0 :
  0 < valuesz → 0 ≤ capacity_hint ≤ INT_MAX → valid_keys valuesz kvs →
  ∃ cm m ps ks,
    ('(cm, m) ← cmap_create valuesz capacity_hint fn m0; run_puts kvs cm m) = Ret (cm, m)
    ∧ cmap_traversal cm m = Ret ps
    ∧ Forall2 (λ p k, string_at (heap m) p = Some k) ps ks
    ∧ NoDup ps ∧ NoDup ks
    ∧ (∀ k, k ∈ ks ↔ k ∈ kvs.*1)
    ∧ (Z.of_nat (length (remove_dups kvs.*1)) ≤ INT_MAX →
       Z.of_nat (length ks) = cmap_count cm).
Proof.
  intros Hv Hc Hkeys.
  destruct (cmap_create_rep valuesz capacity_hint fn m0 Hv Hc)
    as (cm0 & Hcr & Hrep0 & Hv0 & _).
  destruct (run_puts_rep kvs cm0 m0 _ Hrep0) as (cm & m & T & Hrun & Hrep & _ & _ & _ & Hk).
  { by rewrite Hv0. }
  unfold table_keys at 2 in Hk. rewrite concat_replicate_nil in Hk. simpl in Hk.
  exists cm, m, (key_ptr <$> concat T), (table_keys T). rewrite Hcr. mstep.
  split; [done|]. split; [by apply cmap_traversal_rep|].
  split; [by apply (key_ptrs_keys cm)|]. split; [by apply (key_ptrs_NoDup cm m)|].
  destruct Hrep as (Hch & Hblen & Hn & Hvs & Hnd & Hhash & Hndk & Hcount).
  split; [done|]. split.
  - intros k. rewrite Hk. split; [|by left].
    intros [Hin | Hin]; [done | by apply elem_of_nil in Hin].
  - intros _. unfold table_keys, cmap_count. rewrite length_fmap. lia.
Qed.

Lemma traversal_visits_each_key_once_witness :
  ∃ cm m ps ks,
    ('(cm, m) ← cmap_create 1 3 None mem0;
     run_puts [("a", [x01]); ("b", [x02]); ("a", [x03])] cm m) = Ret (cm, m)
    ∧ cmap_traversal cm m = Ret ps
    ∧ Forall2 (λ p k, string_at (heap m) p = Some k) ps ks
    ∧ NoDup ps ∧ NoDup ks
    ∧ (∀ k, k ∈ ks ↔ k ∈ [("a", [x01]); ("b", [x02]); ("a", [x03])].*1)
    ∧ (Z.of_nat (length (remove_dups [("a", [x01]); ("b", [x02]); ("a", [x03])].*1))
       ≤ INT_MAX →
       Z.of_nat (length ks) = cmap_count cm).
Proof.
  apply (traversal_visits_each_key_once 1 3 None
           [("a", [x01]); ("b", [x02]); ("a", [x03])] mem0).
  - lia.
  - unfold INT_MAX. lia.
  - repeat constructor; done.
Defined.


(** *** Disposal *)

Lemma lookup_free_blocks bs (h : gmap block Blob) b :
  b ∉ bs → free_blocks bs h !! b = h !! b.
Proof.
  revert h. induction bs as [|b0 bs IH]; intros h Hb; [done|].
  apply not_elem_of_cons in Hb as [Hne Hb]. simpl.
  change (foldl (λ h b, delete b h) (delete b0 h) bs) with (free_blocks bs (delete b0 h)).
  rewrite IH by done. by apply lookup_delete_ne.
Qed.

Lemma lookup_free_blocks_in bs (h : gmap block Blob) b :
  b ∈ bs → free_blocks bs h !! b = None.
Proof.
  revert h. induction bs as [|b0 bs IH]; intros h Hb; [by apply elem_of_nil in Hb|].
  simpl. change (foldl (λ h b, delete b h) (delete b0 h) bs)
    with (free_blocks bs (delete b0 h)).
  destruct (decide (b ∈ bs)) as [Hin|Hnin]; [by apply IH|].
  apply elem_of_cons in Hb as [-> | Hb]; [|done].
  rewrite lookup_free_blocks by done. apply lookup_delete_eq.
Qed.

Lemma clean_calls_nil fn : clean_calls fn [] = [].
Proof. by destruct fn. Qed.

Lemma clean_calls_cons fn e es :
  clean_calls fn (e :: es) = clean_calls fn [e] ++ clean_calls fn es.
Proof. by destruct fn. Qed.

Lemma clean_calls_app fn es1 es2 :
  clean_calls fn (es1 ++ es2) = clean_calls fn es1 ++ clean_calls fn es2.
Proof. destruct fn; simpl; [apply fmap_app | done]. Qed.

(** The inner loop of [cmap_dispose] cleans and frees the entries of one
    chain, in chain order, and leaves the bucket empty. *)
Lemma dispose_chain_rep es cm m p fuel i :
  buckets cm !! i = Some p →
  chain (valsz cm) (heap m) p es →
  NoDup (e_block <$> es) →
  (length es < fuel)%nat →
  dispose_chain fuel (Z.of_nat i) cm m
  = Ret (mkCMap (<[i := NULL]> (buckets cm)) (nbuckets cm) (valsz cm) (count cm) (clean cm),
         mkMem (free_blocks (e_block <$> es) (heap m))
               (log m ++ clean_calls (clean cm) es)).
Proof.
  revert cm m p fuel.
  induction es as [|e es IH]; intros cm m p fuel Hp Hc Hnd Hfuel;
    (destruct fuel as [|fuel]; [simpl in Hfuel; lia|]);
    assert (bucket cm (Z.of_nat i) = Some p) as Hbk
      by (unfold bucket; destruct (Z.ltb_spec (Z.of_nat i) 0) as [?|_];
          [lia | by rewrite Nat2Z.id]);
    cbn [dispose_chain]; rewrite Hbk; mstep; simpl in Hc.
  - subst p. rewrite bool_decide_eq_true_2 by done.
    rewrite list_insert_id by done. rewrite clean_calls_nil, app_nil_r.
    by destruct cm, m.
  - destruct Hc as (-> & _ & nxt & Hb & Hc).
    rewrite bool_decide_eq_false_2 by done.
    rewrite (get_next_blob _ _ _ Hb). mstep. cbn [b_next].
    unfold set_bucket. rewrite Hbk. cbn [mbind option_bind]. mstep. rewrite Nat2Z.id.
    rewrite (call_clean_entry _ m e _ _ Hb). mstep. cbn [heap log clean].
    unfold free. rewrite Hb. cbn [mbind option_bind]. mstep.
    rewrite fmap_cons in Hnd. apply NoDup_cons in Hnd as [Hnotin Hnd].
    pose proof (lookup_lt_Some _ _ _ Hp) as Hlt.
    erewrite IH; [| | | done | simpl in Hfuel; lia].
    + cbn [buckets nbuckets valsz count clean heap log].
      rewrite list_insert_insert_eq, (clean_calls_cons _ e es), <- app_assoc. done.
    + cbn [buckets]. by apply list_lookup_insert_eq.
    + cbn [valsz heap]. apply (chain_frame _ _ _ _ _ Hc). intros e' He'.
      apply lookup_delete_ne. intros Heq. apply Hnotin. rewrite Heq.
      apply list_elem_of_fmap. eauto.
Qed.

Lemma dispose_buckets_rep todo i cm m :
  Forall2 (chain (valsz cm) (heap m)) (drop i (buckets cm)) todo →
  NoDup (e_block <$> concat todo) →
  Z.of_nat (length (buckets cm)) = nbuckets cm → nbuckets cm ≤ INT_MAX →
  ∃ cm',
    dispose_buckets (length todo) (Z.of_nat i) cm m
    = Ret (cm', mkMem (free_blocks (e_block <$> concat todo) (heap m))
                      (log m ++ clean_calls (clean cm) (concat todo))).
Proof.
  revert i cm m. induction todo as [|es todo IH]; intros i cm m Hch Hnd Hlen Hmax.
  - exists cm. simpl. rewrite clean_calls_nil, app_nil_r. by destruct m.
  - pose proof (Forall2_length _ _ _ Hch) as Hl. rewrite length_drop in Hl. simpl in Hl.
    destruct (lookup_lt_is_Some_2 (buckets cm) i) as [p Hp]; [lia|].
    rewrite (drop_S _ p i Hp) in Hch. apply Forall2_cons in Hch as [Hc Hch].
    simpl in Hnd. rewrite fmap_app in Hnd. apply NoDup_app in Hnd as (Hnd1 & Hdisj & Hnd2).
    assert (length es ≤ size (heap m))%nat as Hsz by (by eapply chain_length).
    cbn [dispose_buckets length]. unfold INT_MAX in *. rewrite to_ulong_small by lia.
    destruct (Z.ltb_spec (Z.of_nat i) (nbuckets cm)) as [_|?]; [|lia].
    rewrite (dispose_chain_rep es cm m p) by (done || lia). mstep.
    replace (Z.of_nat i + 1) with (Z.of_nat (S i)) by lia.
    edestruct (IH (S i)) as (cm' & ->).
    + cbn [valsz heap buckets]. rewrite drop_insert_lt by lia.
      apply Forall2_same_length_lookup. split; [by eapply Forall2_length|].
      intros j q es' Hq Hj.
      pose proof (Forall2_lookup_lr _ _ _ _ _ _ Hch Hq Hj) as Hcj.
      apply (chain_frame _ _ _ _ _ Hcj). intros e' He'.
      apply lookup_free_blocks. intros Hin. apply (Hdisj _ Hin).
      apply list_elem_of_fmap. exists e'. split; [done|].
      apply elem_of_concat_lookup. eauto.
    + done.
    + cbn [buckets nbuckets]. by rewrite length_insert.
    + done.
    + exists cm'. cbn [heap log clean]. simpl.
      rewrite fmap_app, clean_calls_app, <- app_assoc.
      unfold free_blocks. by rewrite foldl_app.
Qed.


Lemma cmap_dispose_rep cm m T :
  rep cm m T →
  ∃ m',
    cmap_dispose cm m = Ret m'
    ∧ heap m' = free_blocks (table_blocks T) (heap m)
    ∧ log m' = log m ++ clean_calls (clean cm) (concat T).
Proof.
  intros Hrep. destruct (rep_length cm m T Hrep) as [Hlen Hn].
  destruct Hrep as (Hch & Hblen & _ & _ & Hnd & _).
  destruct (dispose_buckets_rep T 0 cm m) as (cm' & Hd); [done | done | done | lia |].
  unfold cmap_dispose. rewrite <- Hlen, Nat2Z.id. change 0 with (Z.of_nat 0).
  rewrite Hd. mstep. eexists. split; [done|]. done.
Qed.

Lemma value_ptrs_NoDup T : NoDup (table_blocks T) → NoDup (value_ptr <$> concat T).
Proof.
  unfold table_blocks. induction (concat T) as [|e es IH]; simpl; intros Hnd; [constructor|].
  apply NoDup_cons in Hnd as [Hnotin Hnd]. apply NoDup_cons. split; [|by apply IH].
  intros Hin. apply Hnotin. apply list_elem_of_fmap in Hin as (e' & Heq & He').
  apply list_elem_of_fmap. exists e'. split; [|done]. by injection Heq.
Qed.

(** C8. Dispose() of a vector built by a sequence of insertions calls the
    cleanup callback on the slots 0, 1, ... of the live elements, once each
    and in index order; Dispose() of a table built by a sequence of Put calls
    calls it on the value of each entry, one entry per live key, once each;
    without a callback no call is made. *)
Theorem dispose_cleans_each_once :
  (∀ esz capacity_hint fn ops m0,
     0 < esz → 0 ≤ capacity_hint →
     CVec.ops_valid esz [] ops →
     Z.of_nat (length ops) ≤ INT_MAX →
     Z.max (CVec.initial_capacity capacity_hint) (2 * Z.of_nat (length ops)) * esz < 2 ^ 64 →
     ∃ cv m m',
       ('(cv, m) ← CVec.cvec_create esz capacity_hint fn m0; CVec.run_ops ops cv m)
       = Ret (cv, m)
       ∧ CVec.cvec_dispose cv m = Ret m'
       ∧ CVec.log m' = CVec.log m0 ++ match fn with
                                      | Some f => CVec.cleanup_calls cv f 0 (CVec.apply_ops ops [])
                                      | None => []
                                      end)
  ∧ (∀ valuesz capacity_hint fn kvs m0,
       0 < valuesz → 0 ≤ capacity_hint ≤ INT_MAX → valid_keys valuesz kvs →
       ∃ cm m T m',
         ('(cm, m) ← cmap_create valuesz capacity_hint fn m0; run_puts kvs cm m)
         = Ret (cm, m)
         ∧ Forall2 (chain (valsz cm) (heap m)) (buckets cm) T
         ∧ NoDup (table_keys T)
         ∧ (∀ k, k ∈ table_keys T ↔ k ∈ kvs.*1)
         ∧ cmap_dispose cm m = Ret m'
         ∧ log m' = log m ++ clean_calls fn (concat T)
         ∧ NoDup (value_ptr <$> concat T)).
Proof.
  split.
  - intros esz capacity_hint fn ops m0 Hesz Hhint Hv Hmax Hfit.
    destruct (CVecProofs.cvec_create_rep esz capacity_hint fn m0)
      as (cv0 & m1 & Hcr & Hrep0 & Hcap0 & Hesz0 & Hcl0 & Hlog0); [done | done | nia |].
    destruct (CVecProofs.run_ops_rep ops cv0 m1 []
                (Z.max (CVec.initial_capacity capacity_hint) (2 * Z.of_nat (length ops))))
      as (cv & m & Hrun & Hrep & Hesz1 & Hcl1 & Hlog1);
      simpl; try done; try lia; try (by rewrite Hesz0).
    destruct (CVecProofs.cvec_dispose_rep cv m _ Hrep) as (b & m' & _ & Hd & _ & Hlog).
    exists cv, m, m'. rewrite Hcr. mstep. split; [done|]. split; [done|].
    rewrite Hlog, Hlog1, Hlog0, Hcl1, Hcl0. done.
  - intros valuesz capacity_hint fn kvs m0 Hv Hc Hkeys.
    destruct (cmap_create_rep valuesz capacity_hint fn m0 Hv Hc)
      as (cm0 & Hcr & Hrep0 & Hv0 & Hcl0 & _).
    destruct (run_puts_rep kvs cm0 m0 _ Hrep0)
      as (cm & m & T & Hrun & Hrep & _ & _ & Hcl & Hk).
    { by rewrite Hv0. }
    unfold table_keys at 2 in Hk. rewrite concat_replicate_nil in Hk. simpl in Hk.
    destruct (cmap_dispose_rep cm m T Hrep) as (m' & Hd & _ & Hlog).
    exists cm, m, T, m'. rewrite Hcr. mstep.
    destruct Hrep as (Hch & Hblen & Hn & Hvs & Hnd & Hhash & Hndk & Hcount).
    split; [done|]. split; [done|]. split; [done|]. split.
    { intros k. rewrite Hk. split; [|by left].
      intros [Hin | Hin]; [done | by apply elem_of_nil in Hin]. }
    split; [done|]. split; [by rewrite Hlog, Hcl, Hcl0|].
    by apply value_ptrs_NoDup.
Qed.

Lemma dispose_cleans_each_once_witness :
  (∃ cv m m',
     ('(cv, m) ← CVec.cvec_create 1 2 (Some 7%nat) CVec.mem0;
      CVec.run_ops [CVec.Append [x01]; CVec.InsertAt [x02] 0; CVec.Append [x03]] cv m)
     = Ret (cv, m)
     ∧ CVec.cvec_dispose cv m = Ret m'
     ∧ CVec.log m'
       = CVec.log CVec.mem0
         ++ CVec.cleanup_calls cv 7%nat 0
              (CVec.apply_ops [CVec.Append [x01]; CVec.InsertAt [x02] 0; CVec.Append [x03]] []))
  ∧ (∃ cm m T m',
       ('(cm, m) ← cmap_create 1 3 (Some 7%nat) mem0;
        run_puts [("a", [x01]); ("b", [x02]); ("a", [x03])] cm m) = Ret (cm, m)
       ∧ Forall2 (chain (valsz cm) (heap m)) (buckets cm) T
       ∧ NoDup (table_keys T)
       ∧ (∀ k, k ∈ table_keys T ↔ k ∈ [("a", [x01]); ("b", [x02]); ("a", [x03])].*1)
       ∧ cmap_dispose cm m = Ret m'
       ∧ log m' = log m ++ clean_calls (Some 7%nat) (concat T)
       ∧ NoDup (value_ptr <$> concat T)).
Proof.
  split.
  - apply (proj1 dispose_cleans_each_once 1 2 (Some 7%nat)
             [CVec.Append [x01]; CVec.InsertAt [x02] 0; CVec.Append [x03]] CVec.mem0).
    + lia.
    + lia.
    + simpl. lia.
    + vm_compute. discriminate.
    + vm_compute. reflexivity.
  - apply (proj2 dispose_cleans_each_once 1 3 (Some 7%nat)
             [("a", [x01]); ("b", [x02]); ("a", [x03])] mem0).
    + lia.
    + unfold INT_MAX. lia.
    + repeat constructor; done.
Defined.

(** *** Get *)

Lemma append_empty_r s : String.append s EmptyString = s.
Proof.
  induction s as [|c s IH]; [done|].
  change (String c (String.append s EmptyString) = String c s). by rewrite IH.
Qed.

(** On C strings, [strncmp(s, key, strlen(key))] is 0 exactly when [s]
    starts with [key]. *)
Lemma strncmp_starts_with s key :
  cstring s → cstring key →
  strncmp s key (String.length key) = 0 ↔ starts_with key s.
Proof.
  intros Hs Hk. revert s Hs. induction key as [|c key IH]; intros s Hs.
  - simpl. split; [|done]. intros _. by exists s.
  - destruct Hk as [Hc Hk]. destruct s as [|c' s]; simpl.
    + split.
      * intros H. assert (uchar c = 0) as Hz by lia. by apply uchar_zero in Hz.
      * intros [t Ht]. done.
    + destruct Hs as [Hc' Hs]. destruct (decide (c' = c)) as [->|Hne].
      * rewrite (IH Hk s Hs). split; intros [t Ht]; exists t.
        -- simpl. by rewrite Ht.
        -- simpl in Ht. by injection Ht.
      * split.
        -- intros H. assert (uchar c' = uchar c) as Heq by lia. by apply uchar_inj in Heq.
        -- intros [t Ht]. simpl in Ht. injection Ht as -> _. done.
Qed.

Lemma get_loop_rep key m vsz es p fuel :
  chain vsz (heap m) p es →
  (length es < fuel)%nat →
  get_loop key m fuel p
  = Ret (match get_match key es with
         | Some e => value_ptr e
         | None => NULL
         end).
Proof.
  revert p fuel. induction es as [|e es IH]; intros p fuel Hc Hfuel;
    (destruct fuel as [|fuel]; [simpl in Hfuel; lia|]); simpl in Hc.
  - subst p. done.
  - destruct Hc as (-> & _ & nxt & Hb & Hc).
    cbn [get_loop]. rewrite bool_decide_eq_false_2 by done.
    rewrite (string_at_blob _ _ _ Hb). mstep. cbn [b_key].
    unfold get_match. cbn [List.find].
    destruct (strncmp (e_key e) key (Z.to_nat (strlen key)) =? 0).
    + by rewrite (get_value_blob _ _ _ Hb).
    + rewrite (get_next_blob _ _ _ Hb). mstep. cbn [b_next].
      apply (IH nxt fuel Hc). simpl in Hfuel. lia.
Qed.

(** What Get returns: the value of the first entry, in the chain of the
    bucket [key] hashes to, whose key starts with [key]; NULL when that chain
    has no such entry. *)
Lemma cmap_get_rep cm m T key :
  rep cm m T →
  ∃ i es,
    hash key (to_int (nbuckets cm)) = Ret (Z.of_nat i)
    ∧ T !! i = Some es
    ∧ cmap_get cm key m
      = Ret (match get_match key es with
             | Some e => value_ptr e
             | None => NULL
             end).
Proof.
  intros Hrep.
  destruct (rep_bucket cm m T key Hrep) as (i & p & es & Hh & Hbk & Hp & Hes & Hc & Hlen).
  exists i, es. split; [done|]. split; [done|].
  unfold cmap_get. rewrite Hh. mstep. rewrite Hbk. mstep.
  apply (get_loop_rep key m _ es p _ Hc). lia.
Qed.

(** Get of a key that no stored key starts with returns NULL. *)
Lemma cmap_get_no_match cm m T key :
  rep cm m T → cstring key →
  (∀ k, k ∈ table_keys T → ¬ starts_with key k) →
  cmap_get cm key m = Ret NULL.
Proof.
  intros Hrep Hkey Hno.
  destruct (cmap_get_rep cm m T key Hrep) as (i & es & _ & Hes & ->).
  destruct (get_match key es) as [e|] eqn:Hm; [|done]. exfalso.
  apply find_some in Hm as [He Hs]. apply list_elem_of_In in He.
  destruct (rep_lookup cm m T Hrep i es Hes) as (p & _ & _ & Hc).
  destruct (chain_lookup _ _ _ _ _ Hc He) as ([Hcs _] & _).
  apply (Hno (e_key e)).
  - apply list_elem_of_fmap. exists e. split; [done|]. apply elem_of_concat_lookup. eauto.
  - apply strncmp_starts_with; [done | done |].
    unfold strlen in Hs. rewrite Nat2Z.id in Hs. lia.
Qed.

(** Get of a stored key returns its value when no other stored key starts
    with it. *)
Lemma cmap_get_stored cm m T e :
  rep cm m T → e ∈ concat T →
  (∀ k, k ∈ table_keys T → starts_with (e_key e) k → k = e_key e) →
  cmap_get cm (e_key e) m = Ret (value_ptr e)
  ∧ value_at (heap m) (value_ptr e) = Some (e_value e).
Proof.
  intros Hrep He Honly.
  destruct (cmap_get_rep cm m T (e_key e) Hrep) as (i & es & Hh & Hes & ->).
  pose proof Hrep as (_ & _ & _ & _ & _ & Hhash & Hndk & _).
  assert (e ∈ es) as Hin.
  { apply elem_of_concat_lookup in He as (j & es' & Hj & He).
    pose proof (Hhash j es' e Hj He) as Hhj. rewrite Hh in Hhj.
    injection Hhj as Hij. apply Nat2Z.inj in Hij. subst j. congruence. }
  destruct (rep_lookup cm m T Hrep i es Hes) as (p & _ & _ & Hc).
  destruct (chain_lookup _ _ _ _ _ Hc Hin) as ([Hcs _] & nxt & Hb).
  split; [|exact (value_at_blob _ _ _ Hb)].
  destruct (get_match (e_key e) es) as [e'|] eqn:Hm.
  - apply find_some in Hm as [He' Hs]. apply list_elem_of_In in He'.
    destruct (chain_lookup _ _ _ _ _ Hc He') as ([Hcs' _] & _).
    assert (e_key e' = e_key e) as Hk.
    { apply Honly.
      - apply list_elem_of_fmap. exists e'. split; [done|].
        apply elem_of_concat_lookup. eauto.
      - apply strncmp_starts_with; [done | done |].
        unfold strlen in Hs. rewrite Nat2Z.id in Hs. lia. }
    assert (e' = e) as ->; [|done].
    apply (NoDup_fmap_elem_inj e_key (concat T)); try done.
    apply elem_of_concat_lookup. eauto.
  - exfalso. apply list_elem_of_In in Hin.
    pose proof (find_none _ _ Hm e Hin) as Hf. simpl in Hf.
    assert (strncmp (e_key e) (e_key e) (String.length (e_key e)) = 0) as Hz.
    { apply strncmp_starts_with; [done | done |]. exists EmptyString.
      by rewrite append_empty_r. }
    unfold strlen in Hf. rewrite Nat2Z.id in Hf. lia.
Qed.

(** After Put(key, addr) the table has an entry of that key with the first
    [valsz] bytes of [addr] as its value. *)
Lemma cmap_put_stores cm m T key addr :
  rep cm m T → valid_key (valsz cm) key →
  ∃ cm' m' T' e,
    cmap_put cm key addr m = Ret (cm', m')
    ∧ rep cm' m' T'
    ∧ valsz cm' = valsz cm ∧ clean cm' = clean cm
    ∧ e ∈ concat T' ∧ e_key e = key
    ∧ e_value e = take (Z.to_nat (valsz cm)) addr.
Proof.
  intros Hrep Hvalid. destruct (decide (key ∈ table_keys T)) as [Hin|Hnew].
  - apply list_elem_of_fmap in Hin as (e & Hk & He). symmetry in Hk.
    destruct (cmap_put_update cm m T key addr e) as (m' & Hput & Hrep' & _); try done.
    eexists cm, m', _, (mkEntry (e_block e) key (take (Z.to_nat (valsz cm)) addr)).
    split; [done|]. split; [done|]. split; [done|]. split; [done|].
    split; [|done]. rewrite concat_map_table. apply list_elem_of_fmap.
    exists e. split; [|done]. unfold set_entry_value. by destruct (decide (e_key e = key)).
  - destruct (cmap_put_insert cm m T key addr)
      as (cm' & m' & i & es & b & Hput & Hes & Hh & Hrep' & ? & ? & ? & ? & ?); try done.
    eexists cm', m', _, (mkEntry b key (take (Z.to_nat (valsz cm)) addr)).
    split; [done|]. split; [done|]. split; [done|]. split; [done|].
    split; [|done]. rewrite (concat_insert_cons_perm T i es _ Hes). by left.
Qed.

(** Put(k, v1) followed by Put(k, v2): the second Put leaves the count as it
    is, calls the cleanup callback (if there is one) once, on the stored
    bytes of v1, and leaves the bytes of v2 stored under k. *)
Lemma cmap_put_twice cm m T key v1 v2 :
  rep cm m T → valid_key (valsz cm) key →
  ∃ cm1 m1 m2 T2 e1 e2,
    cmap_put cm key v1 m = Ret (cm1, m1)
    ∧ cmap_put cm1 key v2 m1 = Ret (cm1, m2)
    ∧ rep cm1 m2 T2
    ∧ e_key e1 = key ∧ e_value e1 = take (Z.to_nat (valsz cm)) v1
    ∧ log m2 = log m1 ++ clean_calls (clean cm) [e1]
    ∧ e2 ∈ concat T2 ∧ e_key e2 = key
    ∧ e_value e2 = take (Z.to_nat (valsz cm)) v2
    ∧ value_at (heap m2) (value_ptr e2) = Some (e_value e2).
Proof.
  intros Hrep Hvalid.
  destruct (cmap_put_stores cm m T key v1 Hrep Hvalid)
    as (cm1 & m1 & T1 & e1 & Hput1 & Hrep1 & Hv1 & Hc1 & He1 & Hk1 & Hval1).
  destruct (cmap_put_update cm1 m1 T1 key v2 e1) as (m2 & Hput2 & Hrep2 & Hlog);
    [done | by rewrite Hv1 | done | done |].
  exists cm1, m1, m2,
    (map_table (set_entry_value key (take (Z.to_nat (valsz cm1)) v2)) T1), e1,
    (mkEntry (e_block e1) key (take (Z.to_nat (valsz cm)) v2)).
  split; [done|]. split; [done|]. split; [exact Hrep2|]. split; [done|]. split; [done|].
  split; [by rewrite Hlog, Hc1|].
  assert (mkEntry (e_block e1) key (take (Z.to_nat (valsz cm)) v2)
          ∈ concat (map_table (set_entry_value key (take (Z.to_nat (valsz cm1)) v2)) T1))
    as Hin.
  { rewrite concat_map_table. apply list_elem_of_fmap. exists e1. split; [|done].
    unfold set_entry_value. rewrite Hv1. by destruct (decide (e_key e1 = key)). }
  split; [done|]. split; [done|]. split; [done|].
  apply elem_of_concat_lookup in Hin as (i & es & Hi & Hin).
  destruct (rep_lookup cm1 m2 _ Hrep2 i es Hi) as (p & _ & _ & Hc).
  destruct (chain_lookup _ _ _ _ _ Hc Hin) as (_ & nxt & Hb).
  exact (value_at_blob _ _ _ Hb).
Qed.

(** The keys "k" and "kdu" hash to the same bucket of a table of the default
    bucket count. *)
Lemma hash_k_kdu :
  hash "k" (to_int DEFAULT_CAPACITY) = Ret 107
  ∧ hash "kdu" (to_int DEFAULT_CAPACITY) = Ret 107.
Proof. split; vm_compute; reflexivity. Qed.

(** C1. Get of a key that was never put does not always return NULL: in a
    table of one bucket that holds only the key "ab", Get("a") returns the
    address of the value of "ab"; in a table of the default bucket count that
    holds only "kdu", Get("k") returns the address of the value of "kdu".
    The searched key hashes to the bucket of the stored key, and [strncmp]
    compares only the [strlen(key)] first characters. *)
Theorem cmap_get_prefix_of_stored_key :
  ('(cm, m) ← cmap_create 1 1 None mem0;
   '(cm, m) ← cmap_put cm "ab" [x07] m;
   p ← cmap_get cm "a" m;
   Ret (p, value_at (heap m) p))
  = Ret (Ptr 1%positive 11, Some [x07])
  ∧ ('(cm, m) ← cmap_create 1 0 None mem0;
     '(cm, m) ← cmap_put cm "kdu" [x07] m;
     p ← cmap_get cm "k" m;
     Ret (p, value_at (heap m) p))
    = Ret (Ptr 1%positive 12, Some [x07]).
Proof. split; vm_compute; reflexivity. Qed.

(** C2. Put(k, v1) then Put(k, v2) then Get(k): in a table that holds "k" and
    then "kdu" (same bucket, "kdu" in front), after Put("k", v1) and
    Put("k", v2) the count is still 2 and the second Put has called the
    cleanup callback once, on the bytes of v1, but Get("k") returns the value
    of "kdu" and not the bytes of v2. *)
Theorem cmap_get_after_put_twice :
  ('(cm, m) ← cmap_create 1 0 (Some 7%nat) mem0;
   '(cm, m) ← cmap_put cm "k" [x01] m;
   '(cm, m) ← cmap_put cm "kdu" [x02] m;
   '(cm1, m1) ← cmap_put cm "k" [x03] m;
   '(cm2, m2) ← cmap_put cm1 "k" [x04] m1;
   p ← cmap_get cm2 "k" m2;
   Ret (cmap_count cm1, cmap_count cm2, drop (length (log m1)) (log m2),
        value_at (heap m2) p))
  = Ret (2, 2, [Cleanup 7%nat (Ptr 1%positive 10) [x03]], Some [x02]).
Proof. vm_compute. reflexivity. Qed.

(** ** Further properties of the map *)

(** *** One Put, in full *)

(** Put writes one block: the block of the entry of the key when the key is
    stored, a block that was not live otherwise. *)
Lemma cmap_put_full cm m T key addr :
  rep cm m T → valid_key (valsz cm) key →
  ∃ cm' m' T' b x,
    cmap_put cm key addr m = Ret (cm', m')
    ∧ rep cm' m' T'
    ∧ nbuckets cm' = nbuckets cm ∧ valsz cm' = valsz cm ∧ clean cm' = clean cm
    ∧ heap m' = <[b := x]> (heap m)
    ∧ ((∃ e, e ∈ concat T ∧ e_key e = key ∧ e_block e = b
          ∧ T' = map_table (set_entry_value key (take (Z.to_nat (valsz cm)) addr)) T
          ∧ log m' = log m ++ clean_calls (clean cm) [e])
       ∨ ((key ∉ table_keys T) ∧ heap m !! b = None
          ∧ (concat T' ≡ₚ mkEntry b key (take (Z.to_nat (valsz cm)) addr) :: concat T)
          ∧ log m' = log m)).
Proof.
  intros Hrep Hvalid. destruct (decide (key ∈ table_keys T)) as [Hin|Hnew].
  - apply list_elem_of_fmap in Hin as (e & Hk & He). symmetry in Hk.
    destruct (cmap_put_update_heap cm m T key addr e Hrep Hvalid He Hk)
      as (m' & Hput & [x Hheap] & Hrep' & Hlog).
    exists cm, m', (map_table (set_entry_value key (take (Z.to_nat (valsz cm)) addr)) T),
      (e_block e), x.
    do 6 (split; [done|]). left. by exists e.
  - destruct (cmap_put_insert_heap cm m T key addr Hrep Hvalid Hnew)
      as (cm' & m' & i & es & b & Hput & Hes & Hh & [Hfresh [x Hheap]] & Hrep'
          & Hn & Hv & Hc & Hcount & Hlog).
    exists cm', m', (<[i := mkEntry b key (take (Z.to_nat (valsz cm)) addr) :: es]> T), b, x.
    do 6 (split; [done|]). right. split; [done|]. split; [done|]. split; [|done].
    by apply concat_insert_cons_perm.
Qed.

Lemma set_entry_value_other k v e : e_key e ≠ k → set_entry_value k v e = e.
Proof. intros Hne. unfold set_entry_value. by destruct (decide (e_key e = k)). Qed.

Lemma set_entry_value_same k v e :
  e_key e = k → set_entry_value k v e = mkEntry (e_block e) k v.
Proof. intros He. unfold set_entry_value. by destruct (decide (e_key e = k)). Qed.

(** What is stored after a Put: the new value under the key, and what was
    stored under the other keys. *)
Lemma stored_map_table T key v k w :
  key ∈ table_keys T →
  stored (map_table (set_entry_value key v) T) k w
  ↔ if decide (key = k) then w = v else stored T k w.
Proof.
  intros Hin. unfold stored. rewrite concat_map_table. split.
  - intros (e' & He' & Hk & Hw). apply list_elem_of_fmap in He' as (e & -> & He).
    rewrite set_entry_value_key in Hk. destruct (decide (key = k)) as [->|Hne].
    + rewrite set_entry_value_same in Hw by done. by simpl in Hw.
    + rewrite set_entry_value_other in Hw by congruence. eauto.
  - destruct (decide (key = k)) as [<-|Hne].
    + intros ->. apply list_elem_of_fmap in Hin as (e & Hk & He).
      exists (set_entry_value key v e). split; [apply list_elem_of_fmap; eauto|].
      rewrite set_entry_value_key. split; [done|].
      by rewrite set_entry_value_same.
    + intros (e & He & Hk & Hw). exists e. split; [|done].
      apply list_elem_of_fmap. exists e. split; [|done].
      rewrite set_entry_value_other; [done | congruence].
Qed.

Lemma stored_cons T T' b key v k w :
  key ∉ table_keys T →
  concat T' ≡ₚ mkEntry b key v :: concat T →
  stored T' k w ↔ if decide (key = k) then w = v else stored T k w.
Proof.
  intros Hnew Hperm. unfold stored. split.
  - intros (e & He & Hk & Hw). rewrite Hperm in He.
    apply elem_of_cons in He as [-> | He]; simpl in *.
    + by rewrite decide_True.
    + rewrite decide_False; [eauto|]. intros ->. apply Hnew.
      apply list_elem_of_fmap. eauto.
  - destruct (decide (key = k)) as [<-|Hne].
    + intros ->. exists (mkEntry b key v). rewrite Hperm. split; [by left | done].
    + intros (e & He & Hk & Hw). exists e. rewrite Hperm. split; [by right | done].
Qed.

Lemma stored_key T k : k ∈ table_keys T ↔ ∃ v, stored T k v.
Proof.
  unfold stored, table_keys. rewrite list_elem_of_fmap. split.
  - intros (e & -> & He). eauto.
  - intros (v & e & He & <- & _). eauto.
Qed.

Lemma last_put_key vsz kvs k : k ∈ kvs.*1 ↔ is_Some (last_put vsz kvs k).
Proof.
  induction kvs as [|[k' v] kvs IH]; simpl.
  - split; [by intros ?%elem_of_nil | by intros [? ?]].
  - rewrite elem_of_cons, IH. destruct (last_put vsz kvs k) as [v'|].
    + split; eauto.
    + destruct (decide (k' = k)) as [->|Hne].
      * split; eauto.
      * split; [intros [? | [? ?]]; done | intros [? ?]; done].
Qed.

(** *** Sequences of Put calls *)

(** What a sequence of Put calls leaves stored. *)
Lemma run_puts_stored kvs cm m T :
  rep cm m T → valid_keys (valsz cm) kvs →
  ∃ cm' m' T',
    run_puts kvs cm m = Ret (cm', m')
    ∧ rep cm' m' T'
    ∧ nbuckets cm' = nbuckets cm ∧ valsz cm' = valsz cm ∧ clean cm' = clean cm
    ∧ (∀ k v, stored T' k v
              ↔ match last_put (valsz cm) kvs k with
                | Some v' => v = v'
                | None => stored T k v
                end)
    ∧ (∀ e, e ∈ concat T →
         ∃ e', e' ∈ concat T' ∧ e_block e' = e_block e ∧ e_key e' = e_key e).
Proof.
  revert cm m T. induction kvs as [|[k0 v0] kvs IH]; intros cm m T Hrep Hvalid.
  - exists cm, m, T. do 5 (split; [done|]). split; [done|]. eauto.
  - apply Forall_cons in Hvalid as [Hk Hvalid]. simpl in Hk.
    destruct (cmap_put_full cm m T k0 v0 Hrep Hk)
      as (cm1 & m1 & T1 & b & x & Hput & Hrep1 & Hn1 & Hv1 & Hc1 & _ & Hcase).
    destruct (IH cm1 m1 T1 Hrep1)
      as (cm' & m' & T' & Hrun & Hrep' & Hn & Hv & Hc & Hst & Hkeep).
    { by rewrite Hv1. }
    exists cm', m', T'. simpl. rewrite Hput. mstep.
    split; [done|]. split; [done|].
    split; [congruence|]. split; [congruence|]. split; [congruence|]. split.
    + intros k v. rewrite Hst, Hv1. destruct (last_put (valsz cm) kvs k); [done|].
      destruct Hcase as [(e & He & Hek & _ & -> & _) | (Hnew & _ & Hperm & _)].
      * rewrite stored_map_table by (apply list_elem_of_fmap; eauto).
        by destruct (decide (k0 = k)).
      * rewrite (stored_cons T T1 b k0 _ k v Hnew Hperm).
        by destruct (decide (k0 = k)).
    + intros e He.
      assert (∃ e1, e1 ∈ concat T1 ∧ e_block e1 = e_block e ∧ e_key e1 = e_key e)
        as (e1 & He1 & Hb1 & Hk1).
      { destruct Hcase as [(e0 & _ & _ & _ & -> & _) | (_ & _ & Hperm & _)].
        - eexists. split; [|split; [apply set_entry_value_block | apply set_entry_value_key]].
          rewrite concat_map_table. apply list_elem_of_fmap. eauto.
        - exists e. rewrite Hperm. split; [by right | done]. }
      destruct (Hkeep e1 He1) as (e' & He' & Hb' & Hk'). exists e'.
      split; [done|]. split; congruence.
Qed.

(** The heap over a sequence of Put calls: the blocks of the table stay in
    the table, only blocks of the table are written, and a block that enters
    the table was not live before. *)
Lemma run_puts_heap kvs cm m T :
  rep cm m T → valid_keys (valsz cm) kvs →
  ∃ cm' m' T',
    run_puts kvs cm m = Ret (cm', m')
    ∧ rep cm' m' T'
    ∧ (∀ b, b ∈ table_blocks T → b ∈ table_blocks T')
    ∧ (∀ b, b ∉ table_blocks T' → heap m' !! b = heap m !! b)
    ∧ (∀ b, b ∈ table_blocks T' → b ∈ table_blocks T ∨ heap m !! b = None).
Proof.
  revert cm m T. induction kvs as [|[k0 v0] kvs IH]; intros cm m T Hrep Hvalid.
  - exists cm, m, T. split; [done|]. split; [done|]. split; [done|].
    split; [done|]. by left.
  - apply Forall_cons in Hvalid as [Hk Hvalid]. simpl in Hk.
    destruct (cmap_put_full cm m T k0 v0 Hrep Hk)
      as (cm1 & m1 & T1 & b & x & Hput & Hrep1 & Hn1 & Hv1 & Hc1 & Hheap & Hcase).
    destruct (IH cm1 m1 T1 Hrep1) as (cm' & m' & T' & Hrun & Hrep' & Hmono & Hout & Hin).
    { by rewrite Hv1. }
    exists cm', m', T'. simpl. rewrite Hput. mstep.
    split; [done|]. split; [done|].
    assert (b ∈ table_blocks T1
            ∧ (∀ b', b' ∈ table_blocks T → b' ∈ table_blocks T1)
            ∧ ∀ b', b' ∈ table_blocks T1 → b' = b ∨ b' ∈ table_blocks T)
      as (Hb1 & Hsup1 & Hsub1).
    { unfold table_blocks.
      destruct Hcase as [(e & He & Hek & Hb & HT1 & _) | (Hnew & _ & Hperm & _)].
      - assert (e_block <$> concat T1 = e_block <$> concat T) as ->.
        { rewrite HT1, concat_map_table, <- list_fmap_compose.
          apply list_fmap_ext. intros ? e' _. apply set_entry_value_block. }
        split; [|split; [done | by right]].
        rewrite <- Hb. apply list_elem_of_fmap. eauto.
      - split; [|split].
        + rewrite Hperm, fmap_cons. by left.
        + intros b' Hb'. rewrite Hperm, fmap_cons. by right.
        + intros b' Hb'. rewrite Hperm, fmap_cons in Hb'. simpl in Hb'.
          by apply elem_of_cons in Hb'. }
    assert (b ∈ table_blocks T ∨ heap m !! b = None) as Hb0.
    { destruct Hcase as [(e & He & Hek & Hb & _) | (_ & Hfresh & _)]; [left | by right].
      rewrite <- Hb. apply list_elem_of_fmap. eauto. }
    split; [by auto|]. split.
    + intros b' Hb'. rewrite Hout by done. rewrite Hheap.
      apply lookup_insert_ne. intros <-. auto.
    + intros b' Hb'. destruct (decide (b' = b)) as [->|Hne]; [done|].
      destruct (decide (b' ∈ table_blocks T1)) as [H1|H1].
      * destruct (Hsub1 b' H1) as [? | ?]; [done | by left].
      * destruct (Hin b' Hb') as [?|Hnone]; [done|].
        right. rewrite Hheap in Hnone. by rewrite lookup_insert_ne in Hnone.
Qed.

(** The cleanup calls over a sequence of Put calls: the values that were
    replaced.  Together with the values still stored they are the values
    that were put. *)
Lemma cmap_put_log cm m T key addr :
  rep cm m T → valid_key (valsz cm) key →
  ∃ cm' m' T' es,
    cmap_put cm key addr m = Ret (cm', m')
    ∧ rep cm' m' T'
    ∧ valsz cm' = valsz cm ∧ clean cm' = clean cm
    ∧ log m' = log m ++ clean_calls (clean cm) es
    ∧ (e_value <$> es) ++ (e_value <$> concat T')
      ≡ₚ (e_value <$> concat T) ++ [take (Z.to_nat (valsz cm)) addr].
Proof.
  intros Hrep Hvalid.
  destruct (cmap_put_full cm m T key addr Hrep Hvalid)
    as (cm' & m' & T' & b & x & Hput & Hrep' & _ & Hv & Hc & _ & Hcase).
  destruct Hcase as [(e & He & Hek & _ & -> & Hlog) | (Hnew & _ & Hperm & Hlog)].
  - eexists cm', m', _, [e]. do 5 (split; [done|]).
    destruct Hrep as (_ & _ & _ & _ & _ & _ & Hndk & _).
    apply elem_of_Permutation in He as [rest Hrest].
    unfold table_keys in Hndk. rewrite Hrest, fmap_cons in Hndk.
    apply NoDup_cons in Hndk as [Hnotin _].
    rewrite concat_map_table, Hrest, !fmap_cons.
    rewrite set_entry_value_same by done. simpl.
    assert (set_entry_value key (take (Z.to_nat (valsz cm)) addr) <$> rest = rest) as ->.
    { transitivity (id <$> rest); [|apply list_fmap_id].
      apply list_fmap_ext. intros ? e' He'.
      apply set_entry_value_other. intros Hk. apply Hnotin. rewrite Hek, <- Hk.
      apply list_elem_of_fmap. exists e'. split; [done|].
      by eapply list_elem_of_lookup_2. }
    rewrite (Permutation_app_comm (e_value <$> rest)). simpl. done.
  - exists cm', m', T', []. do 4 (split; [done|]).
    split; [by rewrite clean_calls_nil, app_nil_r|].
    simpl. rewrite Hperm, fmap_cons. simpl.
    by rewrite <- Permutation_cons_append.
Qed.

Lemma run_puts_log kvs cm m T :
  rep cm m T → valid_keys (valsz cm) kvs →
  ∃ cm' m' T' es,
    run_puts kvs cm m = Ret (cm', m')
    ∧ rep cm' m' T'
    ∧ valsz cm' = valsz cm ∧ clean cm' = clean cm
    ∧ log m' = log m ++ clean_calls (clean cm) es
    ∧ (e_value <$> es) ++ (e_value <$> concat T')
      ≡ₚ (e_value <$> concat T) ++ put_values (valsz cm) kvs.
Proof.
  revert cm m T. induction kvs as [|[k0 v0] kvs IH]; intros cm m T Hrep Hvalid.
  - exists cm, m, T, []. do 4 (split; [done|]).
    split; [by rewrite clean_calls_nil, app_nil_r|]. simpl. by rewrite app_nil_r.
  - apply Forall_cons in Hvalid as [Hk Hvalid]. simpl in Hk.
    destruct (cmap_put_log cm m T k0 v0 Hrep Hk)
      as (cm1 & m1 & T1 & es1 & Hput & Hrep1 & Hv1 & Hc1 & Hlog1 & Hperm1).
    destruct (IH cm1 m1 T1 Hrep1)
      as (cm' & m' & T' & es & Hrun & Hrep' & Hv & Hc & Hlog & Hperm).
    { by rewrite Hv1. }
    exists cm', m', T', (es1 ++ es). simpl. rewrite Hput. mstep.
    split; [done|]. split; [done|]. split; [congruence|]. split; [congruence|].
    split.
    { by rewrite Hlog, Hlog1, Hc1, clean_calls_app, app_assoc. }
    rewrite fmap_app, <- app_assoc, Hperm, Hv1.
    rewrite app_assoc, Hperm1, <- app_assoc. done.
Qed.

(** *** The interface *)

(** X9. A new table is empty: its count is 0, the number of buckets is the
    hint (1023 for the hint 0), First returns NULL, a traversal visits
    nothing, Get returns NULL for every key, and disposing of it frees no
    blob and calls no cleanup. *)
Theorem cmap_create_empty_table valuesz capacity_hint fn m :
  0 < valuesz → 0 ≤ capacity_hint ≤ INT_MAX →
  ∃ cm,
    cmap_create valuesz capacity_hint fn m = Ret (cm, m)
    ∧ cmap_count cm = 0
    ∧ nbuckets cm = (if capacity_hint =? 0 then 1023 else capacity_hint)
    ∧ cmap_first cm = Ret NULL
    ∧ cmap_traversal cm m = Ret []
    ∧ (∀ key, cmap_get cm key m = Ret NULL)
    ∧ cmap_dispose cm m = Ret m.
Proof.
  intros Hv Hc.
  destruct (cmap_create_rep valuesz capacity_hint fn m Hv Hc)
    as (cm & Hcr & Hrep & _ & _ & Hcount & Hn).
  exists cm. split; [done|]. split; [done|]. split; [done|].
  split; [|split; [|split]].
  - rewrite (cmap_first_rep cm m _ Hrep). by rewrite concat_replicate_nil.
  - rewrite (cmap_traversal_rep cm m _ Hrep). by rewrite concat_replicate_nil.
  - intros key. destruct (cmap_get_rep cm m _ key Hrep) as (i & es & _ & Hes & ->).
    apply lookup_replicate in Hes as [-> _]. done.
  - destruct (cmap_dispose_rep cm m _ Hrep) as (m' & -> & Hheap & Hlog).
    unfold table_blocks in Hheap. rewrite concat_replicate_nil in *.
    rewrite clean_calls_nil, app_nil_r in Hlog. simpl in Hheap.
    destruct m, m'. simpl in *. congruence.
Qed.

Lemma cmap_create_empty_table_witness :
  ∃ cm,
    cmap_create 4 0 None mem0 = Ret (cm, mem0)
    ∧ cmap_count cm = 0
    ∧ nbuckets cm = (if 0 =? 0 then 1023 else 0)
    ∧ cmap_first cm = Ret NULL
    ∧ cmap_traversal cm mem0 = Ret []
    ∧ (∀ key, cmap_get cm key mem0 = Ret NULL)
    ∧ cmap_dispose cm mem0 = Ret mem0.
Proof.
  apply (cmap_create_empty_table 4 0 None mem0).
  - lia.
  - unfold INT_MAX. lia.
Defined.

(** X10. For a bucket count that fits [int], [hash] returns a bucket number
    of the table: at least 0 and less than the bucket count, for every
    string. *)
Theorem hash_in_bucket_range s n :
  0 < n ≤ INT_MAX → ∃ r, hash s n = Ret r ∧ 0 ≤ r < n.
Proof.
  intros Hn. destruct (hash_range s n Hn) as (r & Hr & Hrange).
  exists r. split; [|done]. unfold INT_MAX in Hn. by rewrite to_int_small in Hr by lia.
Qed.

Lemma hash_in_bucket_range_witness :
  ∃ r, hash "kdu" 1023 = Ret r ∧ 0 ≤ r < 1023.
Proof.
  apply (hash_in_bucket_range "kdu" 1023). unfold INT_MAX. lia.
Defined.

(** X11. Get of a key that was never put returns NULL, provided no key that
    was put starts with it. *)
Theorem cmap_get_absent_key valuesz capacity_hint fn kvs key m0 :
  0 < valuesz → 0 ≤ capacity_hint ≤ INT_MAX → valid_keys valuesz kvs →
  cstring key →
  (∀ k, k ∈ kvs.*1 → ¬ starts_with key k) →
  ∃ cm m,
    ('(cm, m) ← cmap_create valuesz capacity_hint fn m0; run_puts kvs cm m) = Ret (cm, m)
    ∧ cmap_get cm key m = Ret NULL.
Proof.
  intros Hv Hc Hkeys Hkey Hno.
  destruct (cmap_create_rep valuesz capacity_hint fn m0 Hv Hc)
    as (cm0 & Hcr & Hrep0 & Hv0 & _).
  destruct (run_puts_rep kvs cm0 m0 _ Hrep0) as (cm & m & T & Hrun & Hrep & _ & _ & _ & Hk).
  { by rewrite Hv0. }
  exists cm, m. rewrite Hcr. mstep. split; [done|].
  apply (cmap_get_no_match cm m T key Hrep Hkey).
  intros k Hin. apply Hno. apply Hk in Hin as [Hin | Hin]; [done|].
  unfold table_keys in Hin. rewrite concat_replicate_nil in Hin.
  by apply elem_of_nil in Hin.
Qed.

Lemma cmap_get_absent_key_witness :
  ∃ cm m,
    ('(cm, m) ← cmap_create 1 3 None mem0;
     run_puts [("a", [x01]); ("b", [x02])] cm m) = Ret (cm, m)
    ∧ cmap_get cm "c" m = Ret NULL.
Proof.
  apply (cmap_get_absent_key 1 3 None [("a", [x01]); ("b", [x02])] "c" mem0).
  - lia.
  - unfold INT_MAX. lia.
  - repeat constructor; done.
  - repeat constructor; done.
  - intros k Hk [t Ht]. simpl in Hk.
    apply elem_of_cons in Hk as [-> | Hk]; [done|].
    apply elem_of_cons in Hk as [-> | Hk]; [done|].
    by apply elem_of_nil in Hk.
Defined.

(** X12. Put then Get: after a sequence of Put calls, Get of a key that was
    put returns a pointer to the first [valsz] bytes of the last value put
    under that key, provided no other key that was put starts with it. *)
Theorem cmap_put_get_round_trip valuesz capacity_hint fn kvs key v m0 :
  0 < valuesz → 0 ≤ capacity_hint ≤ INT_MAX → valid_keys valuesz kvs →
  last_put valuesz kvs key = Some v →
  (∀ k, k ∈ kvs.*1 → starts_with key k → k = key) →
  ∃ cm m p,
    ('(cm, m) ← cmap_create valuesz capacity_hint fn m0; run_puts kvs cm m) = Ret (cm, m)
    ∧ cmap_get cm key m = Ret p
    ∧ p ≠ NULL
    ∧ value_at (heap m) p = Some v.
Proof.
  intros Hv Hc Hkeys Hlast Honly.
  destruct (cmap_create_rep valuesz capacity_hint fn m0 Hv Hc)
    as (cm0 & Hcr & Hrep0 & Hv0 & _).
  destruct (run_puts_stored kvs cm0 m0 _ Hrep0)
    as (cm & m & T & Hrun & Hrep & _ & _ & _ & Hst & _).
  { by rewrite Hv0. }
  rewrite Hv0 in Hst.
  assert (stored T key v) as (e & He & Hek & Hev).
  { apply Hst. by rewrite Hlast. }
  destruct (cmap_get_stored cm m T e Hrep He) as [Hget Hval].
  { intros k Hk. rewrite Hek. apply Honly.
    apply stored_key in Hk as [w Hw]. apply Hst in Hw.
    apply (last_put_key valuesz). destruct (last_put valuesz kvs k); [done|].
    destruct Hw as (e' & He' & _). rewrite concat_replicate_nil in He'.
    by apply elem_of_nil in He'. }
  exists cm, m, (value_ptr e). rewrite Hcr. mstep. split; [done|].
  split; [by rewrite <- Hek|]. split; [done|]. by rewrite <- Hev.
Qed.

Lemma cmap_put_get_round_trip_witness :
  ∃ cm m p,
    ('(cm, m) ← cmap_create 1 3 None mem0;
     run_puts [("a", [x01]); ("b", [x02]); ("a", [x03])] cm m) = Ret (cm, m)
    ∧ cmap_get cm "a" m = Ret p
    ∧ p ≠ NULL
    ∧ value_at (heap m) p = Some [x03].
Proof.
  apply (cmap_put_get_round_trip 1 3 None [("a", [x01]); ("b", [x02]); ("a", [x03])]
           "a" [x03] mem0).
  - lia.
  - unfold INT_MAX. lia.
  - repeat constructor; done.
  - reflexivity.
  - intros k Hk [t Ht]. simpl in Hk.
    apply elem_of_cons in Hk as [-> | Hk]; [done|].
    apply elem_of_cons in Hk as [-> | Hk]; [done|].
    apply elem_of_cons in Hk as [-> | Hk]; [done|].
    by apply elem_of_nil in Hk.
Defined.

(** X13. After a sequence of Put calls with no more distinct keys than the
    [int] count can number, the count is the number of distinct keys that
    were put, a number within [int], and the number of buckets is still the
    one chosen at creation: the table never grows its bucket array. *)
Theorem cmap_count_distinct_keys valuesz capacity_hint fn kvs m0 :
  0 < valuesz → 0 ≤ capacity_hint ≤ INT_MAX → valid_keys valuesz kvs →
  Z.of_nat (length (remove_dups kvs.*1)) ≤ INT_MAX →
  ∃ cm m,
    ('(cm, m) ← cmap_create valuesz capacity_hint fn m0; run_puts kvs cm m) = Ret (cm, m)
    ∧ cmap_count cm = Z.of_nat (length (remove_dups kvs.*1))
    ∧ 0 ≤ cmap_count cm ≤ INT_MAX
    ∧ nbuckets cm = (if capacity_hint =? 0 then 1023 else capacity_hint)
    ∧ Z.of_nat (length (buckets cm)) = nbuckets cm.
Proof.
  intros Hv Hc Hkeys Hmax.
  destruct (cmap_create_rep valuesz capacity_hint fn m0 Hv Hc)
    as (cm0 & Hcr & Hrep0 & Hv0 & _ & _ & Hn0).
  destruct (run_puts_rep kvs cm0 m0 _ Hrep0) as (cm & m & T & Hrun & Hrep & Hn & _ & _ & Hk).
  { by rewrite Hv0. }
  exists cm, m. rewrite Hcr. mstep. split; [done|].
  destruct Hrep as (_ & Hblen & _ & _ & _ & _ & Hndk & Hcount).
  assert (cmap_count cm = Z.of_nat (length (remove_dups kvs.*1))) as Heq.
  { unfold cmap_count. rewrite Hcount. f_equal.
    apply table_size_distinct_keys; [done|].
    intros k. rewrite Hk. unfold table_keys. rewrite concat_replicate_nil. simpl.
    split; [intros [? | ?%elem_of_nil]; done | by left]. }
  split; [done|]. split; [lia|]. split; [by rewrite Hn, Hn0 | done].
Qed.

Lemma cmap_count_distinct_keys_witness :
  ∃ cm m,
    ('(cm, m) ← cmap_create 1 3 None mem0;
     run_puts [("a", [x01]); ("b", [x02]); ("a", [x03])] cm m) = Ret (cm, m)
    ∧ cmap_count cm
      = Z.of_nat (length (remove_dups [("a", [x01]); ("b", [x02]); ("a", [x03])].*1))
    ∧ 0 ≤ cmap_count cm ≤ INT_MAX
    ∧ nbuckets cm = (if 3 =? 0 then 1023 else 3)
    ∧ Z.of_nat (length (buckets cm)) = nbuckets cm.
Proof.
  apply (cmap_count_distinct_keys 1 3 None [("a", [x01]); ("b", [x02]); ("a", [x03])] mem0).
  - lia.
  - unfold INT_MAX. lia.
  - repeat constructor; done.
  - vm_compute. discriminate.
Defined.

(** X14. Entries never move: the address Get returns for a key is the same
    before and after any later sequence of Put calls, and what it points to
    afterwards is the last value put under the key since, or the old value
    when the key was not put again (provided no other key that was put
    starts with the key). *)
Theorem cmap_get_address_stable valuesz capacity_hint fn kvs1 kvs2 key m0 :
  0 < valuesz → 0 ≤ capacity_hint ≤ INT_MAX →
  valid_keys valuesz kvs1 → valid_keys valuesz kvs2 →
  key ∈ kvs1.*1 →
  (∀ k, k ∈ kvs1.*1 ∨ k ∈ kvs2.*1 → starts_with key k → k = key) →
  ∃ cm1 m1 cm2 m2 p,
    ('(cm, m) ← cmap_create valuesz capacity_hint fn m0; run_puts kvs1 cm m)
    = Ret (cm1, m1)
    ∧ run_puts kvs2 cm1 m1 = Ret (cm2, m2)
    ∧ cmap_get cm1 key m1 = Ret p
    ∧ cmap_get cm2 key m2 = Ret p
    ∧ p ≠ NULL
    ∧ value_at (heap m2) p
      = match last_put valuesz kvs2 key with
        | Some v => Some v
        | None => value_at (heap m1) p
        end.
Proof.
  intros Hv Hc Hkeys1 Hkeys2 Hin Honly.
  destruct (cmap_create_rep valuesz capacity_hint fn m0 Hv Hc)
    as (cm0 & Hcr & Hrep0 & Hv0 & _).
  destruct (run_puts_stored kvs1 cm0 m0 _ Hrep0)
    as (cm1 & m1 & T1 & Hrun1 & Hrep1 & _ & Hv1 & _ & Hst1 & _).
  { by rewrite Hv0. }
  rewrite Hv0 in Hst1, Hv1.
  destruct (run_puts_stored kvs2 cm1 m1 T1 Hrep1)
    as (cm2 & m2 & T2 & Hrun2 & Hrep2 & _ & Hv2 & _ & Hst2 & Hkeep).
  { by rewrite Hv1. }
  rewrite Hv1 in Hst2.
  (* the keys of the two tables were put *)
  assert (∀ k, k ∈ table_keys T1 → k ∈ kvs1.*1) as Hk1.
  { intros k Hk. apply stored_key in Hk as [w Hw]. apply Hst1 in Hw.
    apply (last_put_key valuesz). destruct (last_put valuesz kvs1 k); [done|].
    destruct Hw as (e' & He' & _). rewrite concat_replicate_nil in He'.
    by apply elem_of_nil in He'. }
  assert (∀ k, k ∈ table_keys T2 → k ∈ kvs1.*1 ∨ k ∈ kvs2.*1) as Hk2.
  { intros k Hk. apply stored_key in Hk as [w Hw]. apply Hst2 in Hw.
    destruct (last_put valuesz kvs2 k) eqn:E.
    - right. apply (last_put_key valuesz). by rewrite E.
    - left. apply Hk1. apply stored_key. eauto. }
  (* the entry of the key, before and after *)
  apply (last_put_key valuesz) in Hin as [v1 Hlast1].
  assert (stored T1 key v1) as (e & He & Hek & Hev).
  { apply Hst1. by rewrite Hlast1. }
  destruct (Hkeep e He) as (e' & He' & Hb' & Hk').
  assert (value_ptr e' = value_ptr e) as Hptr.
  { unfold value_ptr. by rewrite Hb', Hk'. }
  destruct (cmap_get_stored cm1 m1 T1 e Hrep1 He) as [Hget1 Hval1].
  { intros k Hk. rewrite Hek. apply Honly. left. by apply Hk1. }
  destruct (cmap_get_stored cm2 m2 T2 e' Hrep2 He') as [Hget2 Hval2].
  { intros k Hk. rewrite Hk', Hek. apply Honly. by apply Hk2. }
  exists cm1, m1, cm2, m2, (value_ptr e). rewrite Hcr. mstep.
  split; [done|]. split; [done|]. split; [by rewrite <- Hek|].
  split; [by rewrite <- Hek, <- Hk', <- Hptr|]. split; [done|].
  rewrite <- Hptr, Hval2, Hptr, Hval1.
  assert (stored T2 key (e_value e')) as Hs by (exists e'; split; [done | split; congruence]).
  apply Hst2 in Hs. destruct (last_put valuesz kvs2 key); [by rewrite Hs|].
  destruct Hs as (e1 & He1 & Hek1 & Hev1). f_equal. rewrite <- Hev1. f_equal.
  destruct Hrep1 as (_ & _ & _ & _ & _ & _ & Hndk & _).
  apply (NoDup_fmap_elem_inj e_key (concat T1)); [done | done | done | congruence].
Qed.

Lemma cmap_get_address_stable_witness :
  ∃ cm1 m1 cm2 m2 p,
    ('(cm, m) ← cmap_create 1 3 None mem0; run_puts [("a", [x01]); ("b", [x02])] cm m)
    = Ret (cm1, m1)
    ∧ run_puts [("c", [x04]); ("a", [x03])] cm1 m1 = Ret (cm2, m2)
    ∧ cmap_get cm1 "a" m1 = Ret p
    ∧ cmap_get cm2 "a" m2 = Ret p
    ∧ p ≠ NULL
    ∧ value_at (heap m2) p
      = match last_put 1 [("c", [x04]); ("a", [x03])] "a" with
        | Some v => Some v
        | None => value_at (heap m1) p
        end.
Proof.
  apply (cmap_get_address_stable 1 3 None [("a", [x01]); ("b", [x02])]
           [("c", [x04]); ("a", [x03])] "a" mem0).
  - lia.
  - unfold INT_MAX. lia.
  - repeat constructor; done.
  - repeat constructor; done.
  - simpl. by left.
  - intros k Hk [t Ht]. simpl in Hk. destruct Hk as [Hk | Hk].
    + apply elem_of_cons in Hk as [-> | Hk]; [done|].
      apply elem_of_cons in Hk as [-> | Hk]; [done|].
      by apply elem_of_nil in Hk.
    + apply elem_of_cons in Hk as [-> | Hk]; [done|].
      apply elem_of_cons in Hk as [-> | Hk]; [done|].
      by apply elem_of_nil in Hk.
Defined.

(** X15. Over the life of a table with a cleanup callback, from creation
    through any sequence of Put calls to disposal, the callback is called
    once for every Put: the bytes it is called on are, up to order, the
    values that were put.  Without a callback nothing is called. *)
Theorem cmap_lifetime_cleanup valuesz capacity_hint fn kvs m0 :
  0 < valuesz → 0 ≤ capacity_hint ≤ INT_MAX → valid_keys valuesz kvs →
  ∃ cm m m' calls,
    ('(cm, m) ← cmap_create valuesz capacity_hint fn m0; run_puts kvs cm m) = Ret (cm, m)
    ∧ cmap_dispose cm m = Ret m'
    ∧ log m' = log m0 ++ calls
    ∧ match fn with
      | Some f => Forall (λ c, cc_fn c = f) calls
                  ∧ cc_bytes <$> calls ≡ₚ put_values valuesz kvs
      | None => calls = []
      end.
Proof.
  intros Hv Hc Hkeys.
  destruct (cmap_create_rep valuesz capacity_hint fn m0 Hv Hc)
    as (cm0 & Hcr & Hrep0 & Hv0 & Hc0 & _).
  destruct (run_puts_log kvs cm0 m0 _ Hrep0)
    as (cm & m & T & es & Hrun & Hrep & _ & Hcl & Hlog & Hperm).
  { by rewrite Hv0. }
  destruct (cmap_dispose_rep cm m T Hrep) as (m' & Hdisp & _ & Hlog').
  exists cm, m, m', (clean_calls fn (es ++ concat T)). rewrite Hcr. mstep.
  split; [done|]. split; [done|]. split.
  { by rewrite Hlog', Hlog, Hcl, Hc0, clean_calls_app, app_assoc. }
  destruct fn as [f|]; [|done]. simpl. split.
  - apply Forall_fmap, Forall_forall. done.
  - rewrite <- list_fmap_compose.
    change (cc_bytes ∘ clean_entry f) with e_value.
    rewrite fmap_app, Hperm, Hv0, concat_replicate_nil. done.
Qed.

Lemma cmap_lifetime_cleanup_witness :
  ∃ cm m m' calls,
    ('(cm, m) ← cmap_create 1 3 (Some 7%nat) mem0;
     run_puts [("a", [x01]); ("b", [x02]); ("a", [x03])] cm m) = Ret (cm, m)
    ∧ cmap_dispose cm m = Ret m'
    ∧ log m' = log mem0 ++ calls
    ∧ (Forall (λ c, cc_fn c = 7%nat) calls
       ∧ cc_bytes <$> calls ≡ₚ put_values 1 [("a", [x01]); ("b", [x02]); ("a", [x03])]).
Proof.
  apply (cmap_lifetime_cleanup 1 3 (Some 7%nat)
           [("a", [x01]); ("b", [x02]); ("a", [x03])] mem0).
  - lia.
  - unfold INT_MAX. lia.
  - repeat constructor; done.
Defined.

(** X16. The table gives back its blobs: after creation, any sequence of
    Put calls and disposal, the heap of blobs is the heap from before; every
    blob that a Put allocated is freed, once.  (The [CMap] struct and the
    bucket array are a record of the model, not blocks of this heap.) *)
Theorem cmap_lifetime_returns_memory valuesz capacity_hint fn kvs m0 :
  0 < valuesz → 0 ≤ capacity_hint ≤ INT_MAX → valid_keys valuesz kvs →
  ∃ cm m m',
    ('(cm, m) ← cmap_create valuesz capacity_hint fn m0; run_puts kvs cm m) = Ret (cm, m)
    ∧ cmap_dispose cm m = Ret m'
    ∧ heap m' = heap m0.
Proof.
  intros Hv Hc Hkeys.
  destruct (cmap_create_rep valuesz capacity_hint fn m0 Hv Hc)
    as (cm0 & Hcr & Hrep0 & Hv0 & _).
  destruct (run_puts_heap kvs cm0 m0 _ Hrep0)
    as (cm & m & T & Hrun & Hrep & _ & Hout & Hin).
  { by rewrite Hv0. }
  destruct (cmap_dispose_rep cm m T Hrep) as (m' & Hdisp & Hheap & _).
  exists cm, m, m'. rewrite Hcr. mstep. split; [done|]. split; [done|].
  rewrite Hheap. apply map_eq. intros b.
  destruct (decide (b ∈ table_blocks T)) as [Hb|Hb].
  - rewrite lookup_free_blocks_in by done.
    destruct (Hin b Hb) as [Hb0 | Hnone]; [|done].
    unfold table_blocks in Hb0. rewrite concat_replicate_nil in Hb0.
    by apply elem_of_nil in Hb0.
  - rewrite lookup_free_blocks by done. by apply Hout.
Qed.

Lemma cmap_lifetime_returns_memory_witness :
  ∃ cm m m',
    ('(cm, m) ← cmap_create 1 3 None mem0;
     run_puts [("a", [x01]); ("b", [x02]); ("a", [x03])] cm m) = Ret (cm, m)
    ∧ cmap_dispose cm m = Ret m'
    ∧ heap m' = heap mem0.
Proof.
  apply (cmap_lifetime_returns_memory 1 3 None
           [("a", [x01]); ("b", [x02]); ("a", [x03])] mem0).
  - lia.
  - unfold INT_MAX. lia.
  - repeat constructor; done.
Defined.

End CMapProofs.
